(** * EasySpin, [private/chili_lm2.c]: the sparse assembler of the
    stochastic-Liouville superoperator.

    The development embeds the three functions of the C file, [BasisSize],
    [makematrix] and [mexFunction], and proves properties of the basis
    enumeration, of the capacity guards and of the stored matrix elements.

    Conventions of the embedding.
    - A C [int] or [long] is a [Z].  Signed overflow is undefined behaviour
      in C; the loop variables and counters of the model are unbounded, so
      the model describes the executions in which none of them leaves the
      range of [int].  The [int] products of [IsoDiff], which leave that
      range for moderate [L], are taken modulo 2^32 ([imul]), the two's
      complement result of the usual compilers; the module [Int32] gives
      [BasisSize] with every [int] operation taken that way.
    - A C [double] is an element of a type [F] equipped with the operations
      of the class [FloatOps].  The instance [Float64] interprets them by
      the IEEE binary64 primitives of Rocq and makes the model executable;
      the instance [RealOps] interprets them by exact real arithmetic.
    - The Wigner 3j function [jjj] comes from [jjj.h], which is not part of
      the file; it is a parameter of the model.
    - A pointer to a host array ([double*]) is a function from offsets to
      values; a pointer that may be NULL is an [option].
    - [mexErrMsgTxt] aborts the MEX call: outcome [Fatal].
    - The host allocations [mxCreateDoubleMatrix] of [mexFunction] are taken
      to succeed, so the three tests of their results are left out.
    - The diagnostic output under [Display] (a constant [false]) is left out. *)

From Stdlib Require Import String ZArith Zquot List Sorted Bool Lia Floats Reals Lra.
Import ListNotations.
Local Open Scope Z_scope.

Set Implicit Arguments.

(* ================================================================== *)
(** * Outcomes of a run and the [for] loops of C                       *)
(* ================================================================== *)

Module Run.

(** The result of running a piece of the program from a state. *)
Inductive outcome (S : Type) : Type :=
| Done (s : S)                      (* ran to its end *)
| Fatal (msg : string) (s : S)      (* [mexErrMsgTxt(msg)] was called in state [s] *)
| OutOfFuel.                        (* a loop was still running when the fuel ended *)

Arguments OutOfFuel {S}.

(** Sequencing of two state transformers. *)
Definition andthen {S : Type} (o : outcome S) (k : S -> outcome S) : outcome S :=
  match o with
  | Done s => k s
  | Fatal msg s => Fatal msg s
  | OutOfFuel => OutOfFuel
  end.

Notation "o ;; k" := (andthen o k) (at level 61, right associativity).

(** [for (i = lo; i <= hi; i += step) body]: the test comes first, each
    iteration spends one unit of fuel.  A [continue] in the body is a body
    that returns [Done] with the state unchanged. *)
Fixpoint for_loop {S : Type} (fuel : nat) (i hi step : Z)
  (body : Z -> S -> outcome S) (s : S) : outcome S :=
  if i <=? hi then
    match fuel with
    | O => OutOfFuel
    | Datatypes.S fuel' => body i s ;; for_loop fuel' (i + step) hi step body
    end
  else Done s.

(** A loop whose step is a positive constant performs at most
    [hi - lo + 1] iterations: this much fuel always suffices. *)
Definition for_up {S : Type} (lo hi step : Z)
  (body : Z -> S -> outcome S) (s : S) : outcome S :=
  for_loop (Z.to_nat (hi - lo + 1)) lo hi step body s.

(** What is known of a run when it stops: [P] of the final state when it
    ran to its end, [Q] of the message and the state when it was aborted. *)
Definition stops {S : Type} (P : S -> Prop) (Q : string -> S -> Prop)
  (o : outcome S) : Prop :=
  match o with
  | Done s => P s
  | Fatal msg s => Q msg s
  | OutOfFuel => True
  end.

(** A property of the state in which a run stopped, normally or not. *)
Definition holds {S : Type} (P : S -> Prop) (o : outcome S) : Prop :=
  stops P (fun _ => P) o.

(** A property of the final state of a run that ran to its end. *)
Definition ended {S : Type} (P : S -> Prop) (o : outcome S) : Prop :=
  stops P (fun _ _ => True) o.

Definition is_fatal {S : Type} (o : outcome S) : bool :=
  match o with
  | Fatal _ _ => true
  | _ => false
  end.

Definition fatal_msg {S : Type} (o : outcome S) : option string :=
  match o with
  | Fatal msg _ => Some msg
  | _ => None
  end.

(** Two runs in step: when the first run ends normally, so does the second,
    in a related state. *)
Definition sim {S1 S2 : Type} (R : S1 -> S2 -> Prop)
  (o1 : outcome S1) (o2 : outcome S2) : Prop :=
  match o1 with
  | Done s1 => exists s2, o2 = Done s2 /\ R s1 s2
  | _ => True
  end.

End Run.
Import Run.

(* ================================================================== *)
(** * Arithmetic on [double]                                           *)
(* ================================================================== *)

(** The operations the C file performs on values of type [double]. *)
Class FloatOps (F : Type) : Type := {
  of_Z : Z -> F;              (* conversion [int] to [double] *)
  to_int : F -> Z;            (* the cast [(int) x] *)
  fadd : F -> F -> F;
  fsub : F -> F -> F;
  fmul : F -> F -> F;
  fdiv : F -> F -> F;
  fopp : F -> F;
  fsqrt : F -> F;             (* [sqrt] of [math.h] *)
  feqb : F -> F -> bool;      (* [x == y] *)
  fltb : F -> F -> bool;      (* [x < y] *)
  sqrt12 : F;                 (* the constant 0.70710678118655 *)
  sqrt13 : F;                 (* the constant 0.57735026918963 *)
  sqrt23 : F                  (* the constant 0.81649658092773 *)
}.

Declare Scope F_scope.
Delimit Scope F_scope with fl.
Infix "+" := fadd : F_scope.
Infix "-" := fsub : F_scope.
Infix "*" := fmul : F_scope.
Infix "/" := fdiv : F_scope.
Notation "- x" := (fopp x) : F_scope.

(** [x != y] and the truth value of a [double] used as a condition. *)
Definition fneb {F} `{FloatOps F} (x y : F) : bool := negb (feqb x y).
Definition nonzero {F} `{FloatOps F} (x : F) : bool := fneb x (of_Z 0).

(* ================================================================== *)
(** * The helpers of the C file                                        *)
(* ================================================================== *)

(** [isodd(k)] is [k % 2]: 0, 1 or -1 (C remainder truncates). *)
Definition isodd (k : Z) : Z := Z.rem k 2.

(** An [int] used as a condition. *)
Definition truth (z : Z) : bool := negb (z =? 0).

(** The [int] value of a C comparison. *)
Definition c_int (b : bool) : Z := if b then 1 else 0.

Definition parity (k : Z) : Z := if truth (isodd k) then -1 else 1.

Definition mini (a b : Z) : Z := if a <? b then a else b.

(** The value of an [int] expression whose exact value is [z], in two's
    complement. *)
Definition wrap32 (z : Z) : Z := (z + 2 ^ 31) mod 2 ^ 32 - 2 ^ 31.

(** The product of two [int]s. *)
Definition imul (a b : Z) : Z := wrap32 (a * b).

Definition Lband : Z := 8.
Definition Kband : Z := 8.

(* ================================================================== *)
(** * Data of the program                                              *)
(* ================================================================== *)

Section Model.

Context {F : Type} {ops : FloatOps F}.

(** The Wigner 3j symbol of [jjj.h]; every call site passes [int]s. *)
Variable jjj : Z -> Z -> Z -> Z -> Z -> Z -> F.

Local Open Scope F_scope.
Local Notation "0" := (of_Z 0%Z) : F_scope.
Local Notation "1" := (of_Z 1%Z) : F_scope.
Local Notation "2" := (of_Z 2%Z) : F_scope.
Local Notation "4" := (of_Z 4%Z) : F_scope.
Local Notation "6" := (of_Z 6%Z) : F_scope.
Local Notation "8" := (of_Z 8%Z) : F_scope.

(** [struct SystemStruct]. *)
Record SystemStruct : Type := {
  SysI : F;   (* field [I]; renamed, [I] is the proof of [True] *)
  NZI0 : F;
  HFI0 : F;
  ReHFI2 : Z -> F;
  ImHFI2 : option (Z -> F);
  Ib : F;
  NZI0b : F;
  HFI0b : F;
  ReHFI2b : Z -> F;
  ImHFI2b : option (Z -> F);
  EZI0 : F;
  ReEZI2 : Z -> F;
  ImEZI2 : option (Z -> F);
  d2psi : Z -> F;
  DirTilt : F
}.

(** [struct DiffusionStruct]. *)
Record DiffusionStruct : Type := {
  xlk : Z -> F;
  Rxx : F;
  Ryy : F;
  Rzz : F;
  Exchange : F;
  maxL : Z
}.

(** The four output arrays hold, at one index, one stored element.  The
    index arrays are [double] arrays that receive the [int] counters; the
    conversion is exact below 2^53 and the model keeps the integers. *)
Record Entry : Type := {
  ridx : Z;
  cidx : Z;
  MatrixRe : F;
  MatrixIm : F
}.

(** The global variables of the file.  [written] is the sequence of
    writes into the output arrays, the latest first: the pair [(k, e)] is
    the four assignments [MatrixRe[k]], [MatrixIm[k]], [ridx[k]],
    [cidx[k]] of one element. *)
Record Globals : Type := {
  maxElements : Z;
  maxRows : Z;
  written : list (Z * Entry);
  nRows : Z;
  nElements : Z;
  Lemax : Z;
  Lomax : Z;
  Kmax : Z;
  Mmax : Z;
  jKmin : Z;
  pSmin : Z;
  pImax : Z;
  pIbmax : Z;
  deltaK : Z;
  MeirovitchSymm : Z;
  Sys : SystemStruct;
  Diff : DiffusionStruct
}.

(** The ten quantum numbers of one basis function: the loop variables
    [L1, jK1, K1, M1, pS1, qS1, pI1, qI1, pI1b, qI1b] of a row, or the
    variables [L2 ... qI2b] of a column. *)
Record BasisIndex : Type := {
  bL : Z;
  bjK : Z;
  bK : Z;
  bM : Z;
  bpS : Z;
  bqS : Z;
  bpI : Z;
  bqI : Z;
  bpIb : Z;
  bqIb : Z
}.

(** The local variables of [makematrix] that the loops update. *)
Record MState : Type := {
  iRow : Z;
  iCol : Z;
  iElement : Z;
  diagRC : bool;
  stores : list (Z * Entry)
}.

(** [(int)(2*I)] and [(int)(2*Ib)]. *)
Definition twoI (g : Globals) : Z := to_int (2 * SysI (Sys g)).
Definition twoIb (g : Globals) : Z := to_int (2 * Ib (Sys g)).

(** The test [(MeirovitchSymm) && (DirTilt==0)] that switches on the
    symmetry filter of Eq. (A47). *)
Definition symm_on (g : Globals) : bool :=
  truth (MeirovitchSymm g) && feqb (DirTilt (Sys g)) 0.

(* ================================================================== *)
(** * [BasisSize]                                                      *)
(* ================================================================== *)

Section BasisSize.

Variable fuel : nat.
Variable g : Globals.

Definition BasisSize_qI1b (pI1b : Z) : Z -> outcome Z :=
  let qI1bmax := (twoIb g - Z.abs pI1b)%Z in
  for_up (- qI1bmax) qI1bmax 2%Z (fun qI1b iRow => Done (iRow + 1)%Z).

Definition BasisSize_pI1b (M1 pS1 pI1 : Z) : Z -> outcome Z :=
  for_up (- pIbmax g) (pIbmax g) 1%Z (fun pI1b iRow =>
    if symm_on g && negb (pI1 + pI1b + pS1 - 1 =? M1)%Z then Done iRow
    else BasisSize_qI1b pI1b iRow).

Definition BasisSize_qI1 (M1 pS1 pI1 : Z) : Z -> outcome Z :=
  let qI1max := (twoI g - Z.abs pI1)%Z in
  for_up (- qI1max) qI1max 2%Z (fun qI1 => BasisSize_pI1b M1 pS1 pI1).

Definition BasisSize_pI1 (M1 pS1 : Z) : Z -> outcome Z :=
  for_up (- pImax g) (pImax g) 1%Z (fun pI1 => BasisSize_qI1 M1 pS1 pI1).

Definition BasisSize_qS1 (M1 pS1 : Z) : Z -> outcome Z :=
  let qS1max := (1 - Z.abs pS1)%Z in
  for_up (- qS1max) qS1max 2%Z (fun qS1 => BasisSize_pI1 M1 pS1).

Definition BasisSize_pS1 (M1 : Z) : Z -> outcome Z :=
  for_up (pSmin g) 1%Z 1%Z (fun pS1 => BasisSize_qS1 M1 pS1).

Definition BasisSize_M1 (L1 : Z) : Z -> outcome Z :=
  let M1max := mini (Mmax g) L1 in
  for_up (- M1max) M1max 1%Z (fun M1 => BasisSize_pS1 M1).

(** The K loop advances by the run-time value [deltaK]; its test uses the
    bitwise [&] of the two comparison results. *)
Definition BasisSize_K1 (L1 jK1 : Z) : Z -> outcome Z :=
  let K1max := mini (Kmax g) L1 in
  for_loop fuel 0%Z K1max (deltaK g) (fun K1 iRow =>
    if truth (Z.land (c_int (K1 =? 0)%Z) (c_int (negb (parity L1 =? jK1)%Z)))
    then Done iRow
    else BasisSize_M1 L1 iRow).

Definition BasisSize_jK1 (L1 : Z) : Z -> outcome Z :=
  for_up (jKmin g) 1%Z 2%Z (fun jK1 => BasisSize_K1 L1 jK1).

Definition BasisSize_L1 : Z -> outcome Z :=
  for_up 0%Z (Lemax g) 1%Z (fun L1 iRow =>
    if truth (isodd L1) && (L1 >? Lomax g)%Z then Done iRow
    else BasisSize_jK1 L1 iRow).

(** [int BasisSize()]: the number of rows, when the loops end. *)
Definition BasisSize : outcome Z := BasisSize_L1 0%Z.

End BasisSize.

(* ================================================================== *)
(** * [makematrix]: the quantities computed for a pair of basis functions *)
(* ================================================================== *)

Section Elements.

Variable g : Globals.

Definition Potential : bool := (maxL (Diff g) >=? 0)%Z.
Definition ExchangePresent : bool := fneb (Exchange (Diff g)) 0.
Definition RhombicDiff : bool := fneb (Rxx (Diff g)) (Ryy (Diff g)).

(** Potential-independent part of the diffusion operator, computed once
    per [(L1, K1)]: [IsoDiffKdiag], [IsoDiffKm2], [IsoDiffKp2].  The
    products [L1*(L1+1)], [K1*K1] and the product of four factors under
    the square root are products of [int]s. *)
Record IsoTerms : Type := {
  IsoDiffKdiag : F;
  IsoDiffKm2 : F;
  IsoDiffKp2 : F
}.

Definition IsoDiff (L1 K1 : Z) : IsoTerms :=
  let Rxx := Rxx (Diff g) in
  let Ryy := Ryy (Diff g) in
  let Rzz := Rzz (Diff g) in
  let Kdiag :=
    (Rxx + Ryy) / 2 * of_Z (imul L1 (L1 + 1))
    + of_Z (imul K1 K1) * (Rzz - (Rxx + Ryy) / 2) in
  if RhombicDiff then
    let KKm := (K1 - 2)%Z in
    let Km2 := (Rxx - Ryy) / 4
               * fsqrt (of_Z (imul (imul (imul (L1 - KKm - 1) (L1 - KKm))
                                      (L1 + KKm + 1)) (L1 + KKm + 2))) in
    let KKp := (K1 + 2)%Z in
    let Kp2 := (Rxx - Ryy) / 4
               * fsqrt (of_Z (imul (imul (imul (L1 + KKp - 1) (L1 + KKp))
                                      (L1 - KKp + 1)) (L1 - KKp + 2))) in
    {| IsoDiffKdiag := Kdiag; IsoDiffKm2 := Km2; IsoDiffKp2 := Kp2 |}
  else
    {| IsoDiffKdiag := Kdiag; IsoDiffKm2 := 0; IsoDiffKp2 := 0 |}.

(** [N_L], the normalisation factor after Eq. (A11). *)
Definition N_L (L1 L2 : Z) : F :=
  fsqrt ((2 * of_Z L1 + 1) * (2 * of_Z L2 + 1)).

(** [N_K(K1,K2)], Eq. (A43): 1.0, divided by [sqrt(2.0)] for [K1 == 0]
    and again for [K2 == 0]. *)
Definition N_K (K1 K2 : Z) : F :=
  let n0 := 1 in
  let n1 := if (K1 =? 0)%Z then n0 / fsqrt 2 else n0 in
  if (K2 =? 0)%Z then n1 / fsqrt 2 else n1.

(** The prefactor of Eq. (A40) and (A41). *)
Definition NormFactor (L1 K1 M1 L2 K2 : Z) : F :=
  N_L L1 L2 * N_K K1 K2 * of_Z (parity (M1 + K1)).

(** One rank-2 component of an interaction tensor: the real array when
    [jK1 == jK2], else the imaginary array (if there is one) times [jK1]. *)
Definition tensor2 (Re : Z -> F) (Im : option (Z -> F)) (jK1 jK2 : Z)
  (coeff : F) (q : Z) : F :=
  if (jK1 =? jK2)%Z then coeff * Re (q + 2)%Z
  else match Im with
       | Some im => coeff * im (q + 2)%Z * of_Z jK1
       | None => 0
       end.

(** [R_EZI2], [R_HFI2], [R_HFI2b], Eq. (A42) and (A44). *)
Record Rank2 : Type := {
  R_EZI2 : F;
  R_HFI2 : F;
  R_HFI2b : F
}.

Definition reduced (L1 jK1 K1 L2 jK2 K2 : Z) : Rank2 :=
  let S := Sys g in
  let Ld := (L1 - L2)%Z in
  let Ld2 := (Z.abs Ld <=? 2)%Z in
  let Kd := (K1 - K2)%Z in
  let Ks := (K1 + K2)%Z in
  let parityLK2 := parity (L2 + K2) in
  if Ld2 then
    let '(g1, a1, a1b) :=
      if (Z.abs Kd <=? 2)%Z then
        let coeff := jjj L1 2 L2 K1 (- Kd) (- K2) in
        (tensor2 (ReEZI2 S) (ImEZI2 S) jK1 jK2 coeff Kd,
         tensor2 (ReHFI2 S) (ImHFI2 S) jK1 jK2 coeff Kd,
         tensor2 (ReHFI2b S) (ImHFI2b S) jK1 jK2 coeff Kd)
      else (0, 0, 0) in
    let '(g2, a2, a2b) :=
      if (Z.abs Ks <=? 2)%Z then
        let coeff := jjj L1 2 L2 K1 (- Ks) K2 in
        (tensor2 (ReEZI2 S) (ImEZI2 S) jK1 jK2 coeff Ks,
         tensor2 (ReHFI2 S) (ImHFI2 S) jK1 jK2 coeff Ks,
         tensor2 (ReHFI2b S) (ImHFI2b S) jK1 jK2 coeff Ks)
      else (0, 0, 0) in
    {| R_EZI2 := g1 + of_Z (jK2 * parityLK2) * g2;
       R_HFI2 := a1 + of_Z (jK2 * parityLK2) * a2;
       R_HFI2b := a1b + of_Z (jK2 * parityLK2) * a2b |}
  else {| R_EZI2 := 0; R_HFI2 := 0; R_HFI2b := 0 |}.

(** One pass of the loop [for (L=0; L<=Lband; L+=2)] of Eq. (A40). *)
Definition PotDiff_step (L1 jK1 K1 M1 L2 jK2 K2 : Z) (PotDiff : F) (L : Z) : F :=
  let Kd := (K1 - K2)%Z in
  let Ks := (K1 + K2)%Z in
  let parityLK2 := parity (L2 + K2) in
  let Term1 :=
    if (Kd >=? - L)%Z then
      let X := xlk (Diff g) ((Kd + L) * (maxL (Diff g) + 1) + L)%Z in
      if nonzero X then X * jjj L1 L L2 K1 (- Kd) (- K2) else 0
    else 0 in
  let Term2 :=
    if (Ks <=? L)%Z then
      let X := xlk (Diff g) ((Ks + L) * (maxL (Diff g) + 1) + L)%Z in
      if nonzero X then of_Z (parityLK2 * jK2) * X * jjj L1 L L2 K1 (- Ks) K2 else 0
    else 0 in
  if nonzero Term1 || nonzero Term2
  then PotDiff + (Term1 + Term2) * jjj L1 L L2 M1 0%Z (- M1)
  else PotDiff.

(** The potential-dependent term of the diffusion operator, Eq. (A40). *)
Definition PotDiff (L1 jK1 K1 M1 L2 jK2 K2 : Z) (NormFactor : F) : F :=
  let Ld := (L1 - L2)%Z in
  let jKd := (jK1 - jK2)%Z in
  let Kd := (K1 - K2)%Z in
  let Ks := (K1 + K2)%Z in
  if Potential then
    if (Z.abs Ld <=? Lband)%Z && (parity Ks =? 1)%Z && (jKd =? 0)%Z
       && (Z.abs Kd <=? Kband)%Z && (Z.abs Ks <=? Kband)%Z
    then
      fold_left (PotDiff_step L1 jK1 K1 M1 L2 jK2 K2) [0; 2; 4; 6; 8]%Z 0 * NormFactor
    else 0
  else 0.

(** The Clebsch-Gordan coefficients [C0], [C2] and the spin factor [S_A] of
    a hyperfine term, Eq. (B7), for a nucleus of spin [I] with row numbers
    [(pI1, qI1)] and differences [(pId, qId)]. *)
Definition hyperfine_coeffs (I : F) (pS1 qS1 pSd qSd pI1 qI1 pId qId : Z)
  : F * F * F :=
  if (pId =? 0)%Z then
    if (pSd =? 0)%Z then
      (- sqrt13, sqrt23, of_Z (pS1 * qI1 + pI1 * qS1) / 2)
    else
      (0, sqrt12, of_Z (- (pI1 * pSd + qI1 * qSd)) / fsqrt 8)
  else
    let t := (qI1 * qId + pI1 * pId)%Z in
    let KI := fsqrt (I * (I + 1) - of_Z t * (of_Z t - 2) / 4) in
    if (pSd =? 0)%Z then
      (0, sqrt12, of_Z (- (pS1 * pId + qS1 * qId)) * KI / fsqrt 8)
    else
      (sqrt13,
       (if (pSd + pId =? 0)%Z then fsqrt (1 / 6) else 1),
       of_Z (pSd * qId) * KI / 2).

(** The matrix element of the Liouville operator for the row [r] and the
    column [c]; [NormFactor], [rk] (the reduced couplings) and [Liou3j] are
    the values precomputed in the K2 and M2 loops. *)
Definition LiouvilleElement (r c : BasisIndex) (NormFactor : F) (rk : Rank2)
  (Liou3j : F) : F :=
  let S := Sys g in
  let Ld2 := (Z.abs (bL r - bL c) <=? 2)%Z in
  let jKd := (bjK r - bjK c)%Z in
  let Md := (bM r - bM c)%Z in
  let diagLK := (bL r =? bL c)%Z && (bK r =? bK c)%Z in
  let diagLKM := diagLK && (jKd =? 0)%Z && (Md =? 0)%Z in
  let pSd := (bpS r - bpS c)%Z in
  let qSd := (bqS r - bqS c)%Z in
  let diagS := (bpS r =? bpS c)%Z && (bqS r =? bqS c)%Z in
  let pId := (bpI r - bpI c)%Z in
  let qId := (bqI r - bqI c)%Z in
  let pIbd := (bpIb r - bpIb c)%Z in
  let qIbd := (bqIb r - bqIb c)%Z in
  let diagI := (pId =? 0)%Z && (qId =? 0)%Z && (pIbd =? 0)%Z && (qIbd =? 0)%Z in
  let pd := (pSd + pId + pIbd)%Z in
  if Ld2 && (Z.abs Md <=? 2)%Z
     && (fneb (DirTilt S) 0 || (pd =? Md)%Z)
     && (Z.abs pSd <=? 1)%Z && (Z.abs pId <=? 1)%Z && (Z.abs pIbd <=? 1)%Z
     && (Z.abs pSd =? Z.abs qSd)%Z && (Z.abs pId =? Z.abs qId)%Z
     && (Z.abs pIbd =? Z.abs qIbd)%Z
  then
    let includeRank0 := diagLKM && (pd =? 0)%Z in
    let d2jjj := d2psi S ((pd + 2) + (Md + 2) * 5)%Z * Liou3j in
    (* Electronic Zeeman interaction *)
    let e1 :=
      if diagI then
        let '(C2, S_g) :=
          if (pSd =? 0)%Z then (sqrt23, of_Z (bpS r))
          else (sqrt12, of_Z (- qSd) / fsqrt 2) in
        let e := 0 + NormFactor * d2jjj * R_EZI2 rk * (C2 * S_g) in
        if includeRank0 then e + EZI0 S * (- sqrt13 * of_Z (bpS r)) else e
      else 0 in
    (* Hyperfine interaction, nucleus 1 *)
    let e2 :=
      if fltb 0 (SysI S) && (pSd * pId =? qSd * qId)%Z
         && (pIbd =? 0)%Z && (qIbd =? 0)%Z
      then
        let '(C0, C2, S_A) :=
          hyperfine_coeffs (SysI S) (bpS r) (bqS r) pSd qSd (bpI r) (bqI r) pId qId in
        let e := e1 + NormFactor * d2jjj * R_HFI2 rk * (C2 * S_A) in
        if includeRank0 then e + HFI0 S * (C0 * S_A) else e
      else e1 in
    (* Hyperfine interaction, nucleus b *)
    let e3 :=
      if fltb 0 (Ib S) && (pSd * pIbd =? qSd * qIbd)%Z
         && (pId =? 0)%Z && (qId =? 0)%Z
      then
        let '(C0, C2, S_A) :=
          hyperfine_coeffs (Ib S) (bpS r) (bqS r) pSd qSd (bpIb r) (bqIb r) pIbd qIbd in
        let e := e2 + NormFactor * d2jjj * R_HFI2b rk * (C2 * S_A) in
        if includeRank0 then e + HFI0b S * (C0 * S_A) else e
      else e2 in
    (* Nuclear Zeeman interaction *)
    if diagS && diagI && includeRank0 then
      e3 + NZI0 S * (- sqrt13) * of_Z (bpI r) + NZI0b S * (- sqrt13) * of_Z (bpIb r)
    else e3
  else 0.

(** The matrix element of the diffusion superoperator, with the exchange
    term. *)
Definition GammaElement (r c : BasisIndex) (iso : IsoTerms) (N_K PotDiff : F) : F :=
  let S := Sys g in
  let Ld := (bL r - bL c)%Z in
  let jKd := (bjK r - bjK c)%Z in
  let Kd := (bK r - bK c)%Z in
  let Md := (bM r - bM c)%Z in
  let diagLK := (bL r =? bL c)%Z && (bK r =? bK c)%Z in
  let diagLKM := diagLK && (jKd =? 0)%Z && (Md =? 0)%Z in
  let pSd := (bpS r - bpS c)%Z in
  let qSd := (bqS r - bqS c)%Z in
  let diagS := (bpS r =? bpS c)%Z && (bqS r =? bqS c)%Z in
  let pId := (bpI r - bpI c)%Z in
  let qId := (bqI r - bqI c)%Z in
  let pIbd := (bpIb r - bpIb c)%Z in
  let qIbd := (bqIb r - bqIb c)%Z in
  let diagI := (pId =? 0)%Z && (qId =? 0)%Z && (pIbd =? 0)%Z && (qIbd =? 0)%Z in
  let G1 :=
    if diagS && diagI then
      let G0 :=
        if (Ld =? 0)%Z && (Md =? 0)%Z && (jKd =? 0)%Z then
          if (Kd =? 0)%Z then 0 + IsoDiffKdiag iso
          else if (Kd =? 2)%Z then 0 + IsoDiffKm2 iso / N_K
          else if (Kd =? -2)%Z then 0 + IsoDiffKp2 iso / N_K
          else 0
        else 0 in
      if Potential then
        if (Md =? 0)%Z && (jKd =? 0)%Z then G0 + PotDiff else G0
      else G0
    else 0 in
  if ExchangePresent then
    if (pSd =? 0)%Z && (pId =? 0)%Z && (pIbd =? 0)%Z && diagLKM then
      let t0 := 0 in
      let t1 := if (qId =? 0)%Z && (qIbd =? 0)%Z && (qSd =? 0)%Z then t0 + 1 else t0 in
      let t2 := if (qId =? 0)%Z && (qIbd =? 0)%Z && (bpS r =? 0)%Z
                then t1 - 1 / 2 else t1 in
      let t3 := if (bpI r =? 0)%Z && (bpIb r =? 0)%Z && (qSd =? 0)%Z
                then t2 - 1 / (2 * SysI S + 1) / (2 * Ib S + 1) else t2 in
      G1 + t3 * Exchange (Diff g)
    else G1
  else G1.

End Elements.

(* ================================================================== *)
(** * [makematrix]: the column loops                                   *)
(* ================================================================== *)

Definition msg_elements : string :=
  "Number of non-zero elements too large. Increase Opt.Allocation(1).".
Definition msg_rows : string :=
  "Dimension too large. Increase Opt.Allocation(2).".

(** The four assignments at index [iElement], followed by [iElement++]. *)
Definition write_element (row col : Z) (re im : F) (st : MState) : MState :=
  {| iRow := iRow st;
     iCol := iCol st;
     iElement := (iElement st + 1)%Z;
     diagRC := diagRC st;
     stores := (iElement st,
                {| ridx := row; cidx := col; MatrixRe := re; MatrixIm := im |})
               :: stores st |}.

Section Columns.

Variable fuel : nat.
Variable g : Globals.

(** "Store element values and indices". *)
Definition store_element (Gamma Liouville : F) (st : MState) : outcome MState :=
  if nonzero Gamma || nonzero Liouville then
    let st1 := write_element (iRow st) (iCol st) Gamma (- Liouville) st in
    let st2 := if negb (diagRC st1)
               then write_element (iCol st1) (iRow st1) Gamma (- Liouville) st1
               else st1 in
    if (iElement st2 >=? maxElements g)%Z then Fatal msg_elements st2
    else Done st2
  else Done st.

(** [iCol++; diagRC = false;] and the test of [iCol]. *)
Definition next_column (st : MState) : outcome MState :=
  let st' := {| iRow := iRow st;
                iCol := (iCol st + 1)%Z;
                iElement := iElement st;
                diagRC := false;
                stores := stores st |} in
  if (iCol st' >=? maxRows g)%Z then Fatal msg_rows st' else Done st'.

(** [iCol = iRow; diagRC = true;] *)
Definition begin_row (st : MState) : MState :=
  {| iRow := iRow st;
     iCol := iRow st;
     iElement := iElement st;
     diagRC := true;
     stores := stores st |}.

(** [iRow++;] and the test of [iRow]. *)
Definition end_row (st : MState) : outcome MState :=
  let st' := {| iRow := (iRow st + 1)%Z;
                iCol := iCol st;
                iElement := iElement st;
                diagRC := diagRC st;
                stores := stores st |} in
  if (iRow st' >=? maxRows g)%Z then Fatal msg_rows st' else Done st'.

(** The values computed in the K2 loop before the M2 loop is entered. *)
Record PairTerms : Type := {
  pt_rank2 : Rank2;
  pt_N_K : F;
  pt_NormFactor : F;
  pt_PotDiff : F
}.

Definition pair_terms (r : BasisIndex) (L2 jK2 K2 : Z) : PairTerms :=
  let nf := NormFactor (bL r) (bK r) (bM r) L2 K2 in
  {| pt_rank2 := reduced g (bL r) (bjK r) (bK r) L2 jK2 K2;
     pt_N_K := N_K (bK r) K2;
     pt_NormFactor := nf;
     pt_PotDiff := PotDiff g (bL r) (bjK r) (bK r) (bM r) L2 jK2 K2 nf |}.

Section Row.

(** The row whose columns are enumerated, and its [IsoDiff] values. *)
Variable r : BasisIndex.
Variable iso : IsoTerms.

(** The body of the innermost loop, for the column [c]. *)
Definition column_body (pt : PairTerms) (Liou3j : F) (c : BasisIndex)
  (st : MState) : outcome MState :=
  let LiouvilleElement :=
    LiouvilleElement g r c (pt_NormFactor pt) (pt_rank2 pt) Liou3j in
  let GammaElement := GammaElement g r c iso (pt_N_K pt) (pt_PotDiff pt) in
  store_element GammaElement LiouvilleElement st ;; next_column.

Definition cols_qI2b (pt : PairTerms) (Liou3j : F)
  (L2 jK2 K2 M2 pS2 qS2 pI2 qI2 pI2b : Z) (st : MState) : outcome MState :=
  let qI2bmax := (twoIb g - Z.abs pI2b)%Z in
  let qI2bmin := if diagRC st then bqIb r else (- qI2bmax)%Z in
  for_up qI2bmin qI2bmax 2%Z (fun qI2b =>
    column_body pt Liou3j
      {| bL := L2; bjK := jK2; bK := K2; bM := M2; bpS := pS2; bqS := qS2;
         bpI := pI2; bqI := qI2; bpIb := pI2b; bqIb := qI2b |}) st.

Definition cols_pI2b (pt : PairTerms) (Liou3j : F)
  (L2 jK2 K2 M2 pS2 qS2 pI2 qI2 : Z) (st : MState) : outcome MState :=
  let pI2bmin := if diagRC st then bpIb r else (- pIbmax g)%Z in
  for_up pI2bmin (pIbmax g) 1%Z (fun pI2b st =>
    if symm_on g && negb (pI2 + pI2b + pS2 - 1 =? M2)%Z then Done st
    else cols_qI2b pt Liou3j L2 jK2 K2 M2 pS2 qS2 pI2 qI2 pI2b st) st.

Definition cols_qI2 (pt : PairTerms) (Liou3j : F)
  (L2 jK2 K2 M2 pS2 qS2 pI2 : Z) (st : MState) : outcome MState :=
  let qI2max := (twoI g - Z.abs pI2)%Z in
  let qI2min := if diagRC st then bqI r else (- qI2max)%Z in
  for_up qI2min qI2max 2%Z (fun qI2 =>
    cols_pI2b pt Liou3j L2 jK2 K2 M2 pS2 qS2 pI2 qI2) st.

Definition cols_pI2 (pt : PairTerms) (Liou3j : F)
  (L2 jK2 K2 M2 pS2 qS2 : Z) (st : MState) : outcome MState :=
  let pI2min := if diagRC st then bpI r else (- pImax g)%Z in
  for_up pI2min (pImax g) 1%Z (fun pI2 =>
    cols_qI2 pt Liou3j L2 jK2 K2 M2 pS2 qS2 pI2) st.

Definition cols_qS2 (pt : PairTerms) (Liou3j : F)
  (L2 jK2 K2 M2 pS2 : Z) (st : MState) : outcome MState :=
  let qS2max := (1 - Z.abs pS2)%Z in
  let qS2min := if diagRC st then bqS r else (- qS2max)%Z in
  for_up qS2min qS2max 2%Z (fun qS2 =>
    cols_pI2 pt Liou3j L2 jK2 K2 M2 pS2 qS2) st.

Definition cols_pS2 (pt : PairTerms) (Liou3j : F)
  (L2 jK2 K2 M2 : Z) (st : MState) : outcome MState :=
  let pS2min := if diagRC st then bpS r else pSmin g in
  for_up pS2min 1%Z 1%Z (fun pS2 =>
    cols_qS2 pt Liou3j L2 jK2 K2 M2 pS2) st.

(** [Liou3j], the 3j symbol of Eq. (A41) for l = 2, computed in the M2
    loop. *)
Definition Liou3j (L2 M2 : Z) : F :=
  let Ld2 := (Z.abs (bL r - L2) <=? 2)%Z in
  let Md := (bM r - M2)%Z in
  if Ld2 then jjj (bL r) 2 L2 (bM r) (- Md) (- M2) else 0.

Definition cols_M2 (pt : PairTerms) (L2 jK2 K2 : Z) (st : MState)
  : outcome MState :=
  let M2max := mini (Mmax g) L2 in
  let M2min := if diagRC st then bM r else (- M2max)%Z in
  for_up M2min M2max 1%Z (fun M2 =>
    cols_pS2 pt (Liou3j L2 M2) L2 jK2 K2 M2) st.

Definition cols_K2 (L2 jK2 : Z) (st : MState) : outcome MState :=
  let K2max := mini (Kmax g) L2 in
  let K2min := if diagRC st then bK r else 0%Z in
  for_loop fuel K2min K2max (deltaK g) (fun K2 st =>
    if (K2 =? 0)%Z && negb (parity L2 =? jK2)%Z then Done st
    else cols_M2 (pair_terms r L2 jK2 K2) L2 jK2 K2 st) st.

Definition cols_jK2 (L2 : Z) (st : MState) : outcome MState :=
  let jK2min := if diagRC st then bjK r else jKmin g in
  for_up jK2min 1%Z 2%Z (fun jK2 => cols_K2 L2 jK2) st.

Definition cols_L2 (st : MState) : outcome MState :=
  let L2max := mini (Lemax g) (bL r + Lband) in
  for_up (bL r) L2max 1%Z (fun L2 st =>
    if truth (isodd L2) && (L2 >? Lomax g)%Z then Done st
    else cols_jK2 L2 st) st.

(** The body of the innermost row loop, lines 169 to 528: the column
    loops between [begin_row] and [end_row]. *)
Definition row_body (st : MState) : outcome MState :=
  cols_L2 (begin_row st) ;; end_row.

End Row.

End Columns.

(* ================================================================== *)
(** * [makematrix]: the row loops                                      *)
(* ================================================================== *)

(** The ten row loops, for an arbitrary body of the innermost loop; the
    body receives the row and the [IsoDiff] values of the K1 loop. *)
Section Rows.

Variable fuel : nat.
Variable g : Globals.
Context {S : Type}.
Variable body : BasisIndex -> IsoTerms -> S -> outcome S.

Definition rows_qI1b (iso : IsoTerms)
  (L1 jK1 K1 M1 pS1 qS1 pI1 qI1 pI1b : Z) : S -> outcome S :=
  let qI1bmax := (twoIb g - Z.abs pI1b)%Z in
  for_up (- qI1bmax) qI1bmax 2%Z (fun qI1b =>
    body {| bL := L1; bjK := jK1; bK := K1; bM := M1; bpS := pS1; bqS := qS1;
            bpI := pI1; bqI := qI1; bpIb := pI1b; bqIb := qI1b |} iso).

Definition rows_pI1b (iso : IsoTerms)
  (L1 jK1 K1 M1 pS1 qS1 pI1 qI1 : Z) : S -> outcome S :=
  for_up (- pIbmax g) (pIbmax g) 1%Z (fun pI1b st =>
    if symm_on g && negb (pI1 + pI1b + pS1 - M1 =? 1)%Z then Done st
    else rows_qI1b iso L1 jK1 K1 M1 pS1 qS1 pI1 qI1 pI1b st).

Definition rows_qI1 (iso : IsoTerms)
  (L1 jK1 K1 M1 pS1 qS1 pI1 : Z) : S -> outcome S :=
  let qI1max := (twoI g - Z.abs pI1)%Z in
  for_up (- qI1max) qI1max 2%Z (fun qI1 =>
    rows_pI1b iso L1 jK1 K1 M1 pS1 qS1 pI1 qI1).

Definition rows_pI1 (iso : IsoTerms)
  (L1 jK1 K1 M1 pS1 qS1 : Z) : S -> outcome S :=
  for_up (- pImax g) (pImax g) 1%Z (fun pI1 =>
    rows_qI1 iso L1 jK1 K1 M1 pS1 qS1 pI1).

Definition rows_qS1 (iso : IsoTerms) (L1 jK1 K1 M1 pS1 : Z) : S -> outcome S :=
  let qS1max := (1 - Z.abs pS1)%Z in
  for_up (- qS1max) qS1max 2%Z (fun qS1 =>
    rows_pI1 iso L1 jK1 K1 M1 pS1 qS1).

Definition rows_pS1 (iso : IsoTerms) (L1 jK1 K1 M1 : Z) : S -> outcome S :=
  for_up (pSmin g) 1%Z 1%Z (fun pS1 => rows_qS1 iso L1 jK1 K1 M1 pS1).

Definition rows_M1 (iso : IsoTerms) (L1 jK1 K1 : Z) : S -> outcome S :=
  let M1max := mini (Mmax g) L1 in
  for_up (- M1max) M1max 1%Z (fun M1 => rows_pS1 iso L1 jK1 K1 M1).

Definition rows_K1 (L1 jK1 : Z) : S -> outcome S :=
  let K1max := mini (Kmax g) L1 in
  for_loop fuel 0%Z K1max (deltaK g) (fun K1 st =>
    if (K1 =? 0)%Z && negb (parity L1 =? jK1)%Z then Done st
    else rows_M1 (IsoDiff g L1 K1) L1 jK1 K1 st).

Definition rows_jK1 (L1 : Z) : S -> outcome S :=
  for_up (jKmin g) 1%Z 2%Z (fun jK1 => rows_K1 L1 jK1).

Definition rows_L1 : S -> outcome S :=
  for_up 0%Z (Lemax g) 1%Z (fun L1 st =>
    if truth (isodd L1) && (L1 >? Lomax g)%Z then Done st
    else rows_jK1 L1 st).

End Rows.

(** The state of the globals when [makematrix] has stopped in the local
    state [st]: the output arrays hold what was written. *)
Definition with_written (g : Globals) (st : MState) : Globals :=
  {| maxElements := maxElements g; maxRows := maxRows g;
     written := stores st;
     nRows := nRows g; nElements := nElements g;
     Lemax := Lemax g; Lomax := Lomax g; Kmax := Kmax g; Mmax := Mmax g;
     jKmin := jKmin g; pSmin := pSmin g; pImax := pImax g; pIbmax := pIbmax g;
     deltaK := deltaK g; MeirovitchSymm := MeirovitchSymm g;
     Sys := Sys g; Diff := Diff g |}.

(** [nRows = iRow; nElements = iElement;] *)
Definition with_counts (g : Globals) (st : MState) : Globals :=
  {| maxElements := maxElements g; maxRows := maxRows g;
     written := stores st;
     nRows := iRow st; nElements := iElement st;
     Lemax := Lemax g; Lomax := Lomax g; Kmax := Kmax g; Mmax := Mmax g;
     jKmin := jKmin g; pSmin := pSmin g; pImax := pImax g; pIbmax := pIbmax g;
     deltaK := deltaK g; MeirovitchSymm := MeirovitchSymm g;
     Sys := Sys g; Diff := Diff g |}.

(** The local state at the entry of [makematrix]:
    [int iRow = 0, iCol = 0, iElement = 0;] and the arrays as they are. *)
Definition makematrix_init (g : Globals) : MState :=
  {| iRow := 0; iCol := 0; iElement := 0; diagRC := false;
     stores := written g |}.

(** The loops of [makematrix], on its local state. *)
Definition makematrix_loops (fuel : nat) (g : Globals) : outcome MState :=
  rows_L1 fuel g (row_body fuel g) (makematrix_init g).

(** [void makematrix()]. *)
Definition makematrix (fuel : nat) (g : Globals) : outcome Globals :=
  match makematrix_loops fuel g with
  | Done st => Done (with_counts g st)
  | Fatal msg st => Fatal msg (with_written g st)
  | OutOfFuel => OutOfFuel
  end.

(* ================================================================== *)
(** * [mexFunction]                                                    *)
(* ================================================================== *)

(** What the MATLAB API hands over for the four right-hand arguments: the
    fields of the system structure, the array of basis options, the
    fields of the diffusion structure and the allocation options. *)
Record mxInputs : Type := {
  in_Sys : SystemStruct;
  in_basisopts : Z -> F;
  in_Exchange : F;
  in_xlk : Z -> F;
  in_maxL : F;
  in_Diff : Z -> F;
  in_allocationOptions : Z -> F
}.

(** The globals after the parsing part of [mexFunction], lines 623-698. *)
Definition parse_inputs (prhs : mxInputs) (g : Globals) : Globals :=
  let basisopts := in_basisopts prhs in
  let R := in_Diff prhs in
  let allocationOptions := in_allocationOptions prhs in
  {| maxElements := to_int (allocationOptions 0%Z);
     maxRows := to_int (allocationOptions 1%Z);
     written := written g;
     nRows := nRows g; nElements := nElements g;
     Lemax := to_int (basisopts 0%Z);
     Lomax := to_int (basisopts 1%Z);
     Kmax := to_int (basisopts 2%Z);
     Mmax := to_int (basisopts 3%Z);
     jKmin := to_int (basisopts 4%Z);
     pSmin := to_int (basisopts 5%Z);
     pImax := to_int (basisopts 8%Z);
     pIbmax := to_int (basisopts 9%Z);
     deltaK := to_int (basisopts 6%Z);
     MeirovitchSymm := to_int (basisopts 7%Z);
     Sys := in_Sys prhs;
     Diff := {| xlk := in_xlk prhs;
                Rxx := R 0%Z; Ryy := R 1%Z; Rzz := R 2%Z;
                Exchange := in_Exchange prhs;
                maxL := to_int (in_maxL prhs) |} |}.

(** [maxRows = N+1;] and the allocation of the three output arrays. *)
Definition allocate (N : Z) (g : Globals) : Globals :=
  {| maxElements := maxElements g; maxRows := (N + 1)%Z;
     written := [];
     nRows := nRows g; nElements := nElements g;
     Lemax := Lemax g; Lomax := Lomax g; Kmax := Kmax g; Mmax := Mmax g;
     jKmin := jKmin g; pSmin := pSmin g; pImax := pImax g; pIbmax := pIbmax g;
     deltaK := deltaK g; MeirovitchSymm := MeirovitchSymm g;
     Sys := Sys g; Diff := Diff g |}.

Definition msg_inputs : string := "4 input arguments expected!".
Definition msg_outputs : string := "3 output arguments expected!".

(** [void mexFunction(int nlhs, mxArray *plhs[], int nrhs, const mxArray *prhs[])].
    The outputs [plhs[0..2]] are the arrays of [written], [plhs[3]] and
    [plhs[4]] are [nRows] and [nElements]. *)
Definition mexFunction (fuel : nat) (nlhs nrhs : Z) (prhs : mxInputs)
  (g : Globals) : outcome Globals :=
  if (nrhs =? 1)%Z then Done g
  else if negb (nrhs =? 4)%Z then Fatal msg_inputs g
  else if negb (nlhs =? 5)%Z then Fatal msg_outputs g
  else
    let g1 := parse_inputs prhs g in
    match BasisSize fuel g1 with
    | Done N => makematrix fuel (allocate N g1)
    | Fatal msg _ => Fatal msg g1
    | OutOfFuel => OutOfFuel
    end.

End Model.

Arguments IsoTerms : clear implicits.
Arguments Rank2 : clear implicits.
Arguments PairTerms : clear implicits.
Arguments SystemStruct : clear implicits.
Arguments DiffusionStruct : clear implicits.
Arguments Entry : clear implicits.
Arguments Globals : clear implicits.
Arguments MState : clear implicits.
Arguments mxInputs : clear implicits.

(* ================================================================== *)
(** * [BasisSize] in two's complement                                  *)
(* ================================================================== *)

(** [BasisSize] once more, with every operation on an [int] taken modulo
    2^32: the increments of the loop variables, the negations and
    differences in the loop bounds, the sum in the symmetry filter and
    [iRow++]. *)
Module Int32.

Definition iadd (a b : Z) : Z := wrap32 (a + b).
Definition isub (a b : Z) : Z := wrap32 (a - b).
Definition ineg (a : Z) : Z := wrap32 (- a).
Definition iabs (a : Z) : Z := wrap32 (Z.abs a).

(** [for (i = lo; i <= hi; i += step) body] on an [int] variable. *)
Fixpoint for_loop {S : Type} (fuel : nat) (i hi step : Z)
  (body : Z -> S -> outcome S) (s : S) : outcome S :=
  if i <=? hi then
    match fuel with
    | O => OutOfFuel
    | Datatypes.S fuel' => body i s ;; for_loop fuel' (iadd i step) hi step body
    end
  else Done s.

(** The fuel of the [hi - lo + 1] passes that a loop with a positive step
    performs at most when its variable does not wrap; a loop whose
    variable wraps is reported as still running. *)
Definition for_up {S : Type} (lo hi step : Z)
  (body : Z -> S -> outcome S) (s : S) : outcome S :=
  for_loop (Z.to_nat (hi - lo + 1)) lo hi step body s.

Section BasisSize.

Context {F : Type} {ops : FloatOps F}.
Variable fuel : nat.
Variable g : Globals F.

Definition BasisSize_qI1b (pI1b : Z) : Z -> outcome Z :=
  let qI1bmax := isub (twoIb g) (iabs pI1b) in
  for_up (ineg qI1bmax) qI1bmax 2 (fun qI1b iRow => Done (iadd iRow 1)).

Definition BasisSize_pI1b (M1 pS1 pI1 : Z) : Z -> outcome Z :=
  for_up (ineg (pIbmax g)) (pIbmax g) 1 (fun pI1b iRow =>
    if symm_on g && negb (isub (iadd (iadd pI1 pI1b) pS1) 1 =? M1) then Done iRow
    else BasisSize_qI1b pI1b iRow).

Definition BasisSize_qI1 (M1 pS1 pI1 : Z) : Z -> outcome Z :=
  let qI1max := isub (twoI g) (iabs pI1) in
  for_up (ineg qI1max) qI1max 2 (fun qI1 => BasisSize_pI1b M1 pS1 pI1).

Definition BasisSize_pI1 (M1 pS1 : Z) : Z -> outcome Z :=
  for_up (ineg (pImax g)) (pImax g) 1 (fun pI1 => BasisSize_qI1 M1 pS1 pI1).

Definition BasisSize_qS1 (M1 pS1 : Z) : Z -> outcome Z :=
  let qS1max := isub 1 (iabs pS1) in
  for_up (ineg qS1max) qS1max 2 (fun qS1 => BasisSize_pI1 M1 pS1).

Definition BasisSize_pS1 (M1 : Z) : Z -> outcome Z :=
  for_up (pSmin g) 1 1 (fun pS1 => BasisSize_qS1 M1 pS1).

Definition BasisSize_M1 (L1 : Z) : Z -> outcome Z :=
  let M1max := mini (Mmax g) L1 in
  for_up (ineg M1max) M1max 1 (fun M1 => BasisSize_pS1 M1).

Definition BasisSize_K1 (L1 jK1 : Z) : Z -> outcome Z :=
  let K1max := mini (Kmax g) L1 in
  for_loop fuel 0 K1max (deltaK g) (fun K1 iRow =>
    if truth (Z.land (c_int (K1 =? 0)) (c_int (negb (parity L1 =? jK1))))
    then Done iRow
    else BasisSize_M1 L1 iRow).

Definition BasisSize_jK1 (L1 : Z) : Z -> outcome Z :=
  for_up (jKmin g) 1 2 (fun jK1 => BasisSize_K1 L1 jK1).

Definition BasisSize_L1 : Z -> outcome Z :=
  for_up 0 (Lemax g) 1 (fun L1 iRow =>
    if truth (isodd L1) && (L1 >? Lomax g) then Done iRow
    else BasisSize_jK1 L1 iRow).

(** [int BasisSize()]. *)
Definition BasisSize : outcome Z := BasisSize_L1 0.

End BasisSize.

(** [mexFunction] with that [BasisSize].  [makematrix] is the one of the
    model: it describes the call as long as none of its own counters
    leaves the range of [int]. *)
Definition mexFunction {F : Type} {ops : FloatOps F}
  (jjj : Z -> Z -> Z -> Z -> Z -> Z -> F) (fuel : nat) (nlhs nrhs : Z)
  (prhs : mxInputs F) (g : Globals F) : outcome (Globals F) :=
  if nrhs =? 1 then Done g
  else if negb (nrhs =? 4) then Fatal msg_inputs g
  else if negb (nlhs =? 5) then Fatal msg_outputs g
  else
    let g1 := parse_inputs prhs g in
    match BasisSize fuel g1 with
    | Done N => makematrix jjj fuel (allocate N g1)
    | Fatal msg _ => Fatal msg g1
    | OutOfFuel => OutOfFuel
    end.

End Int32.

(* ================================================================== *)
(** * Two interpretations of [double]                                  *)
(* ================================================================== *)

(** IEEE binary64, by the primitive floats of Rocq. *)
Module Float64.

Definition f64_of_Z (z : Z) : float :=
  match z with
  | Z0 => PrimFloat.of_uint63 (Uint63.of_Z 0)
  | Zpos _ => PrimFloat.of_uint63 (Uint63.of_Z z)
  | Zneg p => PrimFloat.opp (PrimFloat.of_uint63 (Uint63.of_Z (Zpos p)))
  end.

(** [(int) x] truncates toward zero; the cast of a NaN or an infinity is
    undefined in C and yields 0 here. *)
Definition f64_to_int (x : float) : Z :=
  match Prim2SF x with
  | S754_finite s m e =>
      let v := if (0 <=? e)%Z then (Zpos m * 2 ^ e)%Z
               else Z.shiftr (Zpos m) (- e) in
      if s then (- v)%Z else v
  | _ => 0%Z
  end.

(** The three constants are the doubles nearest to the decimal literals
    0.70710678118655, 0.57735026918963 and 0.81649658092773 of the file. *)
#[global] Instance ops : FloatOps float := {|
  of_Z := f64_of_Z;
  to_int := f64_to_int;
  fadd := PrimFloat.add;
  fsub := PrimFloat.sub;
  fmul := PrimFloat.mul;
  fdiv := PrimFloat.div;
  fopp := PrimFloat.opp;
  fsqrt := PrimFloat.sqrt;
  feqb := PrimFloat.eqb;
  fltb := PrimFloat.ltb;
  sqrt12 := 0x1.6a09e667f3be3p-1%float;
  sqrt13 := 0x1.279a745903342p-1%float;
  sqrt23 := 0x1.a20bd700c2c62p-1%float
|}.

End Float64.

(** Exact real arithmetic; the constants are the decimal literals of the
    file, the cast truncates toward zero. *)
Module RealOps.

Definition r_to_int (x : R) : Z :=
  if Rle_dec 0 x then Int_part x else (- Int_part (- x))%Z.

#[global] Instance ops : FloatOps R := {|
  of_Z := IZR;
  to_int := r_to_int;
  fadd := Rplus;
  fsub := Rminus;
  fmul := Rmult;
  fdiv := Rdiv;
  fopp := Ropp;
  fsqrt := R_sqrt.sqrt;
  feqb := fun x y => if Req_dec_T x y then true else false;
  fltb := fun x y => if Rlt_dec x y then true else false;
  sqrt12 := (70710678118655 / 100000000000000)%R;
  sqrt13 := (57735026918963 / 100000000000000)%R;
  sqrt23 := (81649658092773 / 100000000000000)%R
|}.

End RealOps.

(* ================================================================== *)
(** * Notions used in the statements                                   *)
(* ================================================================== *)

Section Notions.

Context {F : Type} {ops : FloatOps F}.

(** Two configurations with the same basis truncation, the same spins,
    the same director tilt and the same symmetry flag; everything else
    (interaction scalars and tensors, diffusion rates, exchange rate,
    potential coefficients, allocation limits) may differ. *)
Definition same_truncation (g1 g2 : Globals F) : Prop :=
  Lemax g1 = Lemax g2 /\ Lomax g1 = Lomax g2 /\ Kmax g1 = Kmax g2
  /\ Mmax g1 = Mmax g2 /\ jKmin g1 = jKmin g2 /\ pSmin g1 = pSmin g2
  /\ deltaK g1 = deltaK g2 /\ MeirovitchSymm g1 = MeirovitchSymm g2
  /\ pImax g1 = pImax g2 /\ pIbmax g1 = pIbmax g2
  /\ SysI (Sys g1) = SysI (Sys g2) /\ Ib (Sys g1) = Ib (Sys g2)
  /\ DirTilt (Sys g1) = DirTilt (Sys g2).

(** The elements the output arrays hold, in the order of the writes. *)
Definition elements (g : Globals F) : list (Entry F) :=
  rev (map snd (written g)).

(** The element with row and column exchanged and the same values. *)
Definition mirror (e : Entry F) : Entry F :=
  {| ridx := cidx e; cidx := ridx e;
     MatrixRe := MatrixRe e; MatrixIm := MatrixIm e |}.

(** The number of elements of a list stored at the position [(row, col)]. *)
Definition stored_at (row col : Z) (l : list (Entry F)) : nat :=
  length (filter (fun e => (ridx e =? row)%Z && (cidx e =? col)%Z) l).

End Notions.

(* ================================================================== *)
(** * Concrete inputs                                                  *)
(* ================================================================== *)

Module Inputs.

Import Float64.

Definition zeros : Z -> float := fun _ => 0%float.

(** A stand-in for [jjj] in concrete runs.  The statements made about
    these runs concern elements that do not depend on the values of [jjj]:
    where the rank-2 tensors are zero each value of [jjj] in the Liouville
    element is multiplied by zero, and the potential term of a pair outside
    the K band is not computed at all. *)
Definition jjj_any : Z -> Z -> Z -> Z -> Z -> Z -> float :=
  fun _ _ _ _ _ _ => 0.25%float.

(** The array [{x0, x1, ...}]. *)
Definition arr (l : list float) : Z -> float :=
  fun i => nth (Z.to_nat i) l 0%float.

(** A system without nuclei and without magnetic interactions. *)
Definition sys_free : SystemStruct float :=
  {| SysI := 0%float; NZI0 := 0%float; HFI0 := 0%float;
     ReHFI2 := zeros; ImHFI2 := None;
     Ib := 0%float; NZI0b := 0%float; HFI0b := 0%float;
     ReHFI2b := zeros; ImHFI2b := None;
     EZI0 := 0%float; ReEZI2 := zeros; ImEZI2 := None;
     d2psi := zeros; DirTilt := 0%float |}.

(** The same system with an isotropic electron Zeeman term. *)
Definition sys_zeeman : SystemStruct float :=
  {| SysI := 0%float; NZI0 := 0%float; HFI0 := 0%float;
     ReHFI2 := zeros; ImHFI2 := None;
     Ib := 0%float; NZI0b := 0%float; HFI0b := 0%float;
     ReHFI2b := zeros; ImHFI2b := None;
     EZI0 := 3%float; ReEZI2 := zeros; ImEZI2 := None;
     d2psi := zeros; DirTilt := 0%float |}.

(** The globals before the first call: the initialisers of the file. *)
Definition globals0 : Globals float :=
  {| maxElements := 5000000; maxRows := 100000; written := [];
     nRows := 0; nElements := 0;
     Lemax := 0; Lomax := 0; Kmax := 0; Mmax := 0; jKmin := 0; pSmin := 0;
     pImax := 0; pIbmax := 0; deltaK := 0; MeirovitchSymm := 0;
     Sys := sys_free;
     Diff := {| xlk := zeros; Rxx := 0%float; Ryy := 0%float; Rzz := 0%float;
                Exchange := 0%float; maxL := 0 |} |}.

(** Basis options [Lemax=2, Lomax=0, Kmax=2, Mmax=0, jKmin=1, pSmin=1,
    deltaK=2, MeirovitchSymm=0, pImax=0, pIbmax=0]; rhombic diffusion
    tensor (1, 2, 3); no potential, no exchange; room for two elements. *)
Definition prhs_rhombic : mxInputs float :=
  {| in_Sys := sys_free;
     in_basisopts := arr [2; 0; 2; 0; 1; 1; 2; 0; 0; 0]%float;
     in_Exchange := 0%float;
     in_xlk := zeros;
     in_maxL := (-1)%float;
     in_Diff := arr [1; 2; 3]%float;
     in_allocationOptions := arr [2; 100000]%float |}.

End Inputs.

Module Inputs2.

Import Float64 Inputs.

(** The configuration parsed from [prhs_rhombic]. *)
Definition g_rhombic : Globals float := parse_inputs prhs_rhombic globals0.

(** The same basis options with an electron Zeeman term, an isotropic
    diffusion tensor, an exchange rate and other allocation limits. *)
Definition prhs_zeeman : mxInputs float :=
  {| in_Sys := sys_zeeman;
     in_basisopts := arr [2; 0; 2; 0; 1; 1; 2; 0; 0; 0]%float;
     in_Exchange := 5%float;
     in_xlk := zeros;
     in_maxL := (-1)%float;
     in_Diff := arr [7; 7; 7]%float;
     in_allocationOptions := arr [1000; 50]%float |}.

Definition g_zeeman : Globals float := parse_inputs prhs_zeeman globals0.

End Inputs2.

Section Effects.

Context {F : Type} {ops : FloatOps F}.
Variable g : Globals F.

(** The element computed for the row [r] and the column [c] in the state
    [st]: position [(iRow, iCol)], real part the diffusion element,
    imaginary part the negated Liouville element. *)
Definition element_of (r : BasisIndex) (iso : IsoTerms F) (pt : PairTerms F)
  (l3j : F) (c : BasisIndex) (st : MState F) : Entry F :=
  {| ridx := iRow st; cidx := iCol st;
     MatrixRe := GammaElement g r c iso (pt_N_K pt) (pt_PotDiff pt);
     MatrixIm := fopp (LiouvilleElement g r c (pt_NormFactor pt) (pt_rank2 pt) l3j) |}.

(** The test that decides whether the element is stored. *)
Definition is_stored (r : BasisIndex) (iso : IsoTerms F) (pt : PairTerms F)
  (l3j : F) (c : BasisIndex) : bool :=
  nonzero (GammaElement g r c iso (pt_N_K pt) (pt_PotDiff pt))
  || nonzero (LiouvilleElement g r c (pt_NormFactor pt) (pt_rank2 pt) l3j).

(** The writes of one pass of the innermost column loop, the latest
    first. *)
Definition new_stores (r : BasisIndex) (iso : IsoTerms F) (pt : PairTerms F)
  (l3j : F) (c : BasisIndex) (st : MState F) : list (Z * Entry F) :=
  let e := element_of r iso pt l3j c st in
  if is_stored r iso pt l3j c then
    (if diagRC st then [] else [((iElement st + 1)%Z, mirror e)])
    ++ [(iElement st, e)]
  else [].

(** The state once the writes [new] are done. *)
Definition after_store (st : MState F) (new : list (Z * Entry F)) : MState F :=
  {| iRow := iRow st; iCol := iCol st;
     iElement := (iElement st + Z.of_nat (List.length new))%Z;
     diagRC := diagRC st;
     stores := new ++ stores st |}.

(** The state at the end of the pass. *)
Definition after_column (st : MState F) (new : list (Z * Entry F)) : MState F :=
  {| iRow := iRow st; iCol := (iCol st + 1)%Z;
     iElement := (iElement st + Z.of_nat (List.length new))%Z;
     diagRC := false;
     stores := new ++ stores st |}.

End Effects.

(* ================================================================== *)
(** * Nests of [for] loops                                             *)
(* ================================================================== *)

(** The row loops and the column loops have one shape: ten nested loops
    whose bounds depend on the outer variables, some passes being skipped
    by a [continue], with a body in the innermost loop.  [Nest.t] describes
    such a nest; it serves to enumerate, as a list, the tuples that the
    loops of the program reach, and to locate a tuple in that list. *)
Module Nest.

Inductive t (A : Type) : Type :=
| Leaf (a : A)
| Loop (fueled : bool) (lo hi step : Z) (skip : Z -> bool) (inner : Z -> t A).

Arguments Leaf {A} a.
Arguments Loop {A} fueled lo hi step skip inner.

(** A loop with a run-time step ([fueled]) or with a constant step. *)
Definition loop {S : Type} (fueled : bool) (fuel : nat) (lo hi step : Z)
  (body : Z -> S -> outcome S) (s : S) : outcome S :=
  if fueled then for_loop fuel lo hi step body s
  else for_up lo hi step body s.

(** Running the nest with [body] in the innermost loop. *)
Fixpoint run {A S : Type} (fuel : nat) (n : t A) (body : A -> S -> outcome S)
  (s : S) : outcome S :=
  match n with
  | Leaf a => body a s
  | Loop fueled lo hi step skip inner =>
      loop fueled fuel lo hi step
        (fun v s' => if skip v then Done s' else run fuel (inner v) body s') s
  end.

(** Running the nest as the column loops do: while the flag [diag] of the
    state is set, a loop starts from the value given in [start] instead of
    its lower bound. *)
Fixpoint run_from {A S : Type} (fuel : nat) (n : t A) (start : list Z)
  (diag : S -> bool) (body : A -> S -> outcome S) (s : S) : outcome S :=
  match n with
  | Leaf a => body a s
  | Loop fueled lo hi step skip inner =>
      match start with
      | [] => run fuel n body s
      | a :: start' =>
          loop fueled fuel (if diag s then a else lo) hi step
            (fun v s' => if skip v then Done s'
                         else run_from fuel (inner v) start' diag body s') s
      end
  end.

(** The values of the loop variable of [for_loop fuel i hi step]. *)
Fixpoint iter (fuel : nat) (i hi step : Z) : list Z :=
  if i <=? hi then
    match fuel with
    | O => []
    | S fuel' => i :: iter fuel' (i + step) hi step
    end
  else [].

(** Whether [for_loop fuel i hi step] is still running when the fuel ends. *)
Fixpoint exhausted (fuel : nat) (i hi step : Z) : bool :=
  if i <=? hi then
    match fuel with
    | O => true
    | S fuel' => exhausted fuel' (i + step) hi step
    end
  else false.

(** The values of the loop variable of a loop with a positive step. *)
Definition zrange (lo hi step : Z) : list Z :=
  iter (Z.to_nat (hi - lo + 1)) lo hi step.

Definition fuel_for (fueled : bool) (fuel : nat) (lo hi : Z) : nat :=
  if fueled then fuel else Z.to_nat (hi - lo + 1).

(** Running a body over a list of values. *)
Fixpoint foldM {A S : Type} (body : A -> S -> outcome S) (l : list A) (s : S)
  : outcome S :=
  match l with
  | [] => Done s
  | a :: l' => body a s ;; foldM body l'
  end.

(** The tuples the nest reaches, in order. *)
Fixpoint enum {A : Type} (n : t A) : list A :=
  match n with
  | Leaf a => [a]
  | Loop _ lo hi step skip inner =>
      flat_map (fun v => if skip v then [] else enum (inner v))
        (zrange lo hi step)
  end.

(** No loop that the nest reaches runs out of fuel. *)
Fixpoint complete {A : Type} (fuel : nat) (n : t A) : Prop :=
  match n with
  | Leaf _ => True
  | Loop fueled lo hi step skip inner =>
      exhausted (fuel_for fueled fuel lo hi) lo hi step = false
      /\ forall v, In v (zrange lo hi step) -> skip v = false ->
                   complete fuel (inner v)
  end.

(** The tuples reached from the tuple with the loop variables [start]
    onward. *)
Fixpoint enum_from {A : Type} (n : t A) (start : list Z) : list A :=
  match n with
  | Leaf a => [a]
  | Loop _ lo hi step skip inner =>
      match start with
      | [] => enum n
      | a :: start' =>
          (if skip a then [] else enum_from (inner a) start')
          ++ flat_map (fun v => if skip v then [] else enum (inner v))
               (zrange (a + step) hi step)
      end
  end.

(** [start] holds the loop variables of a tuple that the nest reaches. *)
Fixpoint reaches {A : Type} (n : t A) (start : list Z) : Prop :=
  match n with
  | Leaf _ => start = []
  | Loop _ lo hi step skip inner =>
      match start with
      | [] => False
      | a :: start' =>
          In a (zrange lo hi step) /\ skip a = false
          /\ reaches (inner a) start'
      end
  end.

(** No loop reached from [start] onward runs out of fuel. *)
Fixpoint complete_from {A : Type} (fuel : nat) (n : t A) (start : list Z)
  : Prop :=
  match n with
  | Leaf _ => True
  | Loop fueled lo hi step skip inner =>
      match start with
      | [] => complete fuel n
      | a :: start' =>
          exhausted (fuel_for fueled fuel a hi) a hi step = false
          /\ complete_from fuel (inner a) start'
          /\ forall v, In v (zrange (a + step) hi step) -> skip v = false ->
                       complete fuel (inner v)
      end
  end.

(** The tuple whose loop variables are [start]. *)
Fixpoint leaf_at {A : Type} (n : t A) (start : list Z) : option A :=
  match n with
  | Leaf a => Some a
  | Loop _ _ _ _ _ inner =>
      match start with
      | [] => None
      | a :: start' => leaf_at (inner a) start'
      end
  end.

(** A property of every tuple of a nest. *)
Fixpoint all_leaves {A : Type} (P : A -> Prop) (n : t A) : Prop :=
  match n with
  | Leaf a => P a
  | Loop _ _ _ _ _ inner => forall v, all_leaves P (inner v)
  end.

End Nest.

(* ================================================================== *)
(** * The nest of the basis loops                                      *)
(* ================================================================== *)

Section BasisNest.

Context {F : Type} {ops : FloatOps F}.
Variable g : Globals F.

Definition never (_ : Z) : bool := false.

(** The [continue] of the L loops. *)
Definition skip_L (L : Z) : bool := truth (isodd L) && (L >? Lomax g)%Z.

(** The nine loops inside an L loop. *)
Definition basis_nest_L (L : Z) : Nest.t BasisIndex :=
  Nest.Loop false (jKmin g) 1 2 never (fun jK =>
  Nest.Loop true 0 (mini (Kmax g) L) (deltaK g)
    (fun K => (K =? 0)%Z && negb (parity L =? jK)%Z) (fun K =>
  Nest.Loop false (- mini (Mmax g) L) (mini (Mmax g) L) 1 never (fun M =>
  Nest.Loop false (pSmin g) 1 1 never (fun pS =>
  Nest.Loop false (- (1 - Z.abs pS)) (1 - Z.abs pS) 2 never (fun qS =>
  Nest.Loop false (- pImax g) (pImax g) 1 never (fun pI =>
  Nest.Loop false (- (twoI g - Z.abs pI)) (twoI g - Z.abs pI) 2 never (fun qI =>
  Nest.Loop false (- pIbmax g) (pIbmax g) 1
    (fun pIb => symm_on g && negb (pI + pIb + pS - 1 =? M)%Z) (fun pIb =>
  Nest.Loop false (- (twoIb g - Z.abs pIb)) (twoIb g - Z.abs pIb) 2 never
    (fun qIb =>
  Nest.Leaf {| bL := L; bjK := jK; bK := K; bM := M; bpS := pS; bqS := qS;
               bpI := pI; bqI := qI; bpIb := pIb; bqIb := qIb |}))))))))).

(** The ten row loops. *)
Definition basis_nest : Nest.t BasisIndex :=
  Nest.Loop false 0 (Lemax g) 1 skip_L basis_nest_L.

(** The ten column loops of the row [r]. *)
Definition cols_nest (r : BasisIndex) : Nest.t BasisIndex :=
  Nest.Loop false (bL r) (mini (Lemax g) (bL r + Lband)) 1 skip_L basis_nest_L.

(** The basis functions, in the order of the row loops: the k-th element
    (from 0) is the basis function of the row and of the column k. *)
Definition basis : list BasisIndex := Nest.enum basis_nest.

(** The columns of the row [r], in the order of the column loops. *)
Definition columns (r : BasisIndex) : list BasisIndex :=
  Nest.enum_from (cols_nest r)
    [bL r; bjK r; bK r; bM r; bpS r; bqS r; bpI r; bqI r; bpIb r; bqIb r].

End BasisNest.

(** The loop variables of a basis function. *)
Definition vars (r : BasisIndex) : list Z :=
  [bL r; bjK r; bK r; bM r; bpS r; bqS r; bpI r; bqI r; bpIb r; bqIb r].

Module Assembly.

Section Pass.

Context {F : Type} {ops : FloatOps F}.
Variable jjj : Z -> Z -> Z -> Z -> Z -> Z -> F.
Variable g : Globals F.

(** The pass of the innermost column loop for the row [r] and the column
    [c], with the values that the loops have computed for them. *)
Definition pass (r c : BasisIndex) : MState F -> outcome (MState F) :=
  column_body g r (IsoDiff g (bL r) (bK r))
    (pair_terms jjj g r (bL c) (bjK c) (bK c))
    (Liou3j jjj r (bL c) (bM c)) c.

(** The writes of that pass. *)
Definition pass_stores (r c : BasisIndex) (s : MState F)
  : list (Z * Entry F) :=
  new_stores g r (IsoDiff g (bL r) (bK r))
    (pair_terms jjj g r (bL c) (bjK c) (bK c))
    (Liou3j jjj r (bL c) (bM c)) c s.

End Pass.

End Assembly.

Section MoreNotions.

Context {F : Type} {ops : FloatOps F}.

(** The host arguments with the second allocation option (the maximum
    row count) replaced by [x]. *)
Definition set_max_rows (prhs : mxInputs F) (x : F) : mxInputs F :=
  {| in_Sys := in_Sys prhs;
     in_basisopts := in_basisopts prhs;
     in_Exchange := in_Exchange prhs;
     in_xlk := in_xlk prhs;
     in_maxL := in_maxL prhs;
     in_Diff := in_Diff prhs;
     in_allocationOptions :=
       fun i => if (i =? 1)%Z then x else in_allocationOptions prhs i |}.

(** The stored element [e] connects the basis functions [r] (its row) and
    [c] (its column). *)
Definition connects (g : Globals F) (e : Entry F) (r c : BasisIndex) : Prop :=
  nth_error (basis g) (Z.to_nat (ridx e)) = Some r
  /\ nth_error (basis g) (Z.to_nat (cidx e)) = Some c.

End MoreNotions.

Module Inputs3.

Import Float64 Inputs.

(** Basis options [Lemax=5, Lomax=5, Kmax=5, Mmax=0, jKmin=1, pSmin=1,
    deltaK=5, MeirovitchSymm=0, pImax=0, pIbmax=0]: the basis functions are
    (L,K) = (0,0), (2,0), (4,0), (5,5).  An orientational potential is
    present ([maxL = 2], all coefficients of the table 1.0); isotropic
    diffusion tensor (1 1 1); no magnetic interaction. *)
Definition prhs_potential : mxInputs float :=
  {| in_Sys := sys_free;
     in_basisopts := arr [5; 5; 5; 0; 1; 1; 5; 0; 0; 0]%float;
     in_Exchange := 0%float;
     in_xlk := fun _ => 1%float;
     in_maxL := 2%float;
     in_Diff := arr [1; 1; 1]%float;
     in_allocationOptions := arr [1000; 100000]%float |}.

Definition g_potential : Globals float := parse_inputs prhs_potential globals0.

End Inputs3.

Section Symmetry.

Context {F : Type} {ops : FloatOps F}.

Definition is_diag (e : Entry F) : bool := (ridx e =? cidx e)%Z.

(** The rows of the diagonal elements of a list. *)
Definition diag_rows (l : list (Entry F)) : list Z :=
  map (@ridx F) (filter is_diag l).

(** Every off-diagonal element of the list has its mirror image in the
    list. *)
Definition mirrored (l : list (Entry F)) : Prop :=
  forall e, In e l -> ridx e <> cidx e -> In (mirror e) l.

(** Every diagonal element of the list is the only element stored at its
    position. *)
Definition diag_once (l : list (Entry F)) : Prop :=
  forall e, In e l -> ridx e = cidx e ->
            stored_at (ridx e) (cidx e) l = 1%nat.

(** The invariant of the writes between two rows: below the row [iRow]. *)
Definition sym_between (st : MState F) : Prop :=
  mirrored (map snd (stores st))
  /\ NoDup (diag_rows (map snd (stores st)))
  /\ forall r, In r (diag_rows (map snd (stores st))) -> r < iRow st.

(** The invariant of the writes within a row. *)
Definition sym_within (st : MState F) : Prop :=
  mirrored (map snd (stores st))
  /\ NoDup (diag_rows (map snd (stores st)))
  /\ (if diagRC st
      then iCol st = iRow st
           /\ forall r, In r (diag_rows (map snd (stores st))) -> r < iRow st
      else iRow st < iCol st
           /\ forall r, In r (diag_rows (map snd (stores st))) -> r <= iRow st).

End Symmetry.

Section ZeroInteraction.

Context {F : Type} {ops : FloatOps F}.

(** A rank-2 tensor, given by the array of its five real components and,
    when there is one, the array of its five imaginary components, is
    zero. *)
Definition zero_tensor (Re : Z -> F) (Im : option (Z -> F)) : Prop :=
  (forall q, 0 <= q <= 4 -> Re q = of_Z 0)
  /\ (forall im, Im = Some im -> forall q, 0 <= q <= 4 -> im q = of_Z 0).

(** No magnetic interaction (Zeeman and hyperfine scalars and tensors
    zero), no exchange, no orientational potential, no director tilt, and
    the isotropic diffusion tensor [Rxx = Ryy = Rzz = R0]. *)
Definition zero_interaction (g : Globals F) (R0 : F) : Prop :=
  EZI0 (Sys g) = of_Z 0
  /\ NZI0 (Sys g) = of_Z 0 /\ HFI0 (Sys g) = of_Z 0
  /\ NZI0b (Sys g) = of_Z 0 /\ HFI0b (Sys g) = of_Z 0
  /\ zero_tensor (ReEZI2 (Sys g)) (ImEZI2 (Sys g))
  /\ zero_tensor (ReHFI2 (Sys g)) (ImHFI2 (Sys g))
  /\ zero_tensor (ReHFI2b (Sys g)) (ImHFI2b (Sys g))
  /\ Exchange (Diff g) = of_Z 0
  /\ maxL (Diff g) < 0
  /\ DirTilt (Sys g) = of_Z 0
  /\ Rxx (Diff g) = R0 /\ Ryy (Diff g) = R0 /\ Rzz (Diff g) = R0.

End ZeroInteraction.

Module Inputs4.

Import Float64 Inputs.

(** The basis options of [prhs_rhombic] (basis functions
    (L,K) = (0,0), (2,0), (2,2)), no magnetic interaction, no exchange, no
    potential, and the isotropic diffusion tensor (7 7 7). *)
Definition prhs_isotropic : mxInputs float :=
  {| in_Sys := sys_free;
     in_basisopts := arr [2; 0; 2; 0; 1; 1; 2; 0; 0; 0]%float;
     in_Exchange := 0%float;
     in_xlk := zeros;
     in_maxL := (-1)%float;
     in_Diff := arr [7; 7; 7]%float;
     in_allocationOptions := arr [1000; 100000]%float |}.

End Inputs4.

Section MatrixElements.

Context {F : Type} {ops : FloatOps F}.
Variable jjj : Z -> Z -> Z -> Z -> Z -> Z -> F.
Variable g : Globals F.

(** The diffusion element that the loops compute for the row [r] and the
    column [c]. *)
Definition Gamma_of (r c : BasisIndex) : F :=
  let pt := pair_terms jjj g r (bL c) (bjK c) (bK c) in
  GammaElement g r c (IsoDiff g (bL r) (bK r)) (pt_N_K pt) (pt_PotDiff pt).

(** The Liouville element that the loops compute for the row [r] and the
    column [c]. *)
Definition Liouville_of (r c : BasisIndex) : F :=
  let pt := pair_terms jjj g r (bL c) (bjK c) (bK c) in
  LiouvilleElement g r c (pt_NormFactor pt) (pt_rank2 pt)
    (Liou3j jjj r (bL c) (bM c)).

(** The test [(GammaElement!=0) || (LiouvilleElement!=0)] for the pair. *)
Definition nonzero_pair (r c : BasisIndex) : bool :=
  nonzero (Gamma_of r c) || nonzero (Liouville_of r c).

(** The element written at the position [(i, j)] for the pair. *)
Definition entry_at (i j : Z) (r c : BasisIndex) : Entry F :=
  {| ridx := i; cidx := j;
     MatrixRe := Gamma_of r c; MatrixIm := fopp (Liouville_of r c) |}.

(** The element [e] is the one computed for the basis functions number
    [i] and [j], [i <= j], or its mirror image. *)
Definition computed_for (e : Entry F) (i j : nat) : Prop :=
  (i <= j)%nat
  /\ exists r c,
       nth_error (basis g) i = Some r /\ nth_error (basis g) j = Some c
       /\ nonzero_pair r c = true
       /\ (e = entry_at (Z.of_nat i) (Z.of_nat j) r c
           \/ ((i < j)%nat
               /\ e = mirror (entry_at (Z.of_nat i) (Z.of_nat j) r c))).

End MatrixElements.

Module Inputs5.

Import Float64 Inputs.

(** The basis options of [prhs_rhombic] with [deltaK = 0]. *)
Definition prhs_deltaK0 : mxInputs float :=
  {| in_Sys := sys_free;
     in_basisopts := arr [2; 0; 2; 0; 1; 1; 0; 0; 0; 0]%float;
     in_Exchange := 0%float;
     in_xlk := zeros;
     in_maxL := (-1)%float;
     in_Diff := arr [1; 2; 3]%float;
     in_allocationOptions := arr [1000; 100000]%float |}.

End Inputs5.

Section Truncation.

Context {F : Type} {ops : FloatOps F}.
Variable g : Globals F.

(** The conditions that the headers of the ten row loops and their three
    [continue] statements put on a tuple of loop variables. *)
Definition in_truncation (r : BasisIndex) : Prop :=
  (0 <= bL r <= Lemax g /\ (Z.odd (bL r) = true -> bL r <= Lomax g))
  /\ (jKmin g <= bjK r <= 1 /\ (bjK r - jKmin g) mod 2 = 0)
  /\ (0 <= bK r <= Kmax g /\ bK r <= bL r /\ bK r mod deltaK g = 0
      /\ (bK r = 0 -> bjK r = if Z.odd (bL r) then -1 else 1))
  /\ (Z.abs (bM r) <= Mmax g /\ Z.abs (bM r) <= bL r)
  /\ (pSmin g <= bpS r <= 1)
  /\ (Z.abs (bqS r) <= 1 - Z.abs (bpS r)
      /\ (bqS r + (1 - Z.abs (bpS r))) mod 2 = 0)
  /\ (Z.abs (bpI r) <= pImax g)
  /\ (Z.abs (bqI r) <= twoI g - Z.abs (bpI r)
      /\ (bqI r + (twoI g - Z.abs (bpI r))) mod 2 = 0)
  /\ (Z.abs (bpIb r) <= pIbmax g
      /\ (symm_on g = true -> bpI r + bpIb r + bpS r - 1 = bM r))
  /\ (Z.abs (bqIb r) <= twoIb g - Z.abs (bpIb r)
      /\ (bqIb r + (twoIb g - Z.abs (bpIb r))) mod 2 = 0).

End Truncation.

Section Calls.

Context {F : Type} {ops : FloatOps F}.

(** Two outcomes of a call agree: the same globals after a normal end;
    the same message, the same writes and the same capacities after an
    abort. *)
Definition same_outcome (o1 o2 : outcome (Globals F)) : Prop :=
  match o1, o2 with
  | Done a, Done b => a = b
  | Fatal m a, Fatal m' b =>
      m = m' /\ written a = written b
      /\ maxElements a = maxElements b /\ maxRows a = maxRows b
  | OutOfFuel, OutOfFuel => True
  | _, _ => False
  end.

End Calls.

Section Order.

Context {F : Type} {ops : FloatOps F}.

(** Row-major order of positions. *)
Definition lex_lt (p q : Z * Z) : Prop :=
  fst p < fst q \/ (fst p = fst q /\ snd p < snd q).

(** The positions of the elements of a list that lie on or above the
    diagonal, in the order of the list. *)
Definition upper (l : list (Entry F)) : list (Z * Z) :=
  map (fun e => (ridx e, cidx e)) (filter (fun e => (ridx e <=? cidx e)%Z) l).

End Order.

Section Extents.

Context {F : Type} {ops : FloatOps F}.

(** Two host arrays agree on their first [n] entries. *)
Definition agree_on (n : Z) (a b : Z -> F) : Prop :=
  forall k, 0 <= k < n -> a k = b k.

(** The same for an array that may be absent. *)
Definition agree_opt (n : Z) (a b : option (Z -> F)) : Prop :=
  match a, b with
  | Some x, Some y => agree_on n x y
  | None, None => True
  | _, _ => False
  end.

(** Two system structures with the same scalars, whose rank-2 tensors
    agree on five entries and whose [d2psi] arrays agree on twenty-five. *)
Definition same_within_extents (S1 S2 : SystemStruct F) : Prop :=
  SysI S1 = SysI S2 /\ NZI0 S1 = NZI0 S2 /\ HFI0 S1 = HFI0 S2
  /\ Ib S1 = Ib S2 /\ NZI0b S1 = NZI0b S2 /\ HFI0b S1 = HFI0b S2
  /\ EZI0 S1 = EZI0 S2 /\ DirTilt S1 = DirTilt S2
  /\ agree_on 5 (ReEZI2 S1) (ReEZI2 S2) /\ agree_opt 5 (ImEZI2 S1) (ImEZI2 S2)
  /\ agree_on 5 (ReHFI2 S1) (ReHFI2 S2) /\ agree_opt 5 (ImHFI2 S1) (ImHFI2 S2)
  /\ agree_on 5 (ReHFI2b S1) (ReHFI2b S2)
  /\ agree_opt 5 (ImHFI2b S1) (ImHFI2b S2)
  /\ agree_on 25 (d2psi S1) (d2psi S2).

End Extents.

Module Inputs6.

Import Float64 Inputs.

(** [g_potential] with other values beyond the extents of the arrays:
    entry 30 of [d2psi] and entry 7 of the Zeeman tensor. *)
Definition g_beyond : Globals float :=
  let g := Inputs3.g_potential in
  {| maxElements := maxElements g; maxRows := maxRows g;
     written := written g; nRows := nRows g; nElements := nElements g;
     Lemax := Lemax g; Lomax := Lomax g; Kmax := Kmax g; Mmax := Mmax g;
     jKmin := jKmin g; pSmin := pSmin g; pImax := pImax g;
     pIbmax := pIbmax g; deltaK := deltaK g;
     MeirovitchSymm := MeirovitchSymm g;
     Sys := {| SysI := 0%float; NZI0 := 0%float; HFI0 := 0%float;
               ReHFI2 := zeros; ImHFI2 := None;
               Ib := 0%float; NZI0b := 0%float; HFI0b := 0%float;
               ReHFI2b := zeros; ImHFI2b := None;
               EZI0 := 0%float;
               ReEZI2 := fun k => if (k =? 7)%Z then 1%float else 0%float;
               ImEZI2 := None;
               d2psi := fun k => if (k =? 30)%Z then 1%float else 0%float;
               DirTilt := 0%float |};
     Diff := Diff g |}.

End Inputs6.

Section PotentialExtent.

Context {F : Type} {ops : FloatOps F}.

(** Two diffusion structures with the same rates, exchange rate and
    [maxL], whose tables of potential coefficients agree on their first
    [16 * (maxL + 1) + 9] entries. *)
Definition same_diffusion (D1 D2 : DiffusionStruct F) : Prop :=
  Rxx D1 = Rxx D2 /\ Ryy D1 = Ryy D2 /\ Rzz D1 = Rzz D2
  /\ Exchange D1 = Exchange D2 /\ maxL D1 = maxL D2
  /\ agree_on (16 * (maxL D1 + 1) + 9) (xlk D1) (xlk D2).

End PotentialExtent.

Module Inputs7.

Import Float64 Inputs.

(** [g_potential] ([maxL = 2]) with another potential coefficient at the
    offset 57 = 16 * 3 + 9. *)
Definition g_table : Globals float :=
  let g := Inputs3.g_potential in
  {| maxElements := maxElements g; maxRows := maxRows g;
     written := written g; nRows := nRows g; nElements := nElements g;
     Lemax := Lemax g; Lomax := Lomax g; Kmax := Kmax g; Mmax := Mmax g;
     jKmin := jKmin g; pSmin := pSmin g; pImax := pImax g;
     pIbmax := pIbmax g; deltaK := deltaK g;
     MeirovitchSymm := MeirovitchSymm g;
     Sys := Sys g;
     Diff := {| xlk := fun k => if (k =? 57)%Z then 5%float else 1%float;
                Rxx := 1%float; Ryy := 1%float; Rzz := 1%float;
                Exchange := 0%float; maxL := 2 |} |}.

End Inputs7.

Section Finiteness.

Context {F : Type} {ops : FloatOps F}.

Local Open Scope F_scope.

(** Which values count as finite: every value but the infinities and NaN
    in binary64 ([f64_finite] below), every value in exact arithmetic. *)
Variable finite : F -> bool.

(** What the statements on vanishing terms use of the arithmetic: a zero
    times a finite value and a zero plus a zero are zeros; adding a zero
    to a value gives that value or a zero; a finite value equals itself
    and its difference with itself is a zero; and zero divided by [N_K] is
    a zero.  "Zero" is a value that compares equal to zero ([x == 0]): in
    binary64 +0 or -0. *)
Record zero_laws : Prop := {
  zl_zero : nonzero (of_Z 0) = false;
  zl_mul_l : forall x y : F,
      nonzero x = false -> finite y = true -> nonzero (x * y) = false;
  zl_mul_r : forall x y : F,
      finite x = true -> nonzero y = false -> nonzero (x * y) = false;
  zl_add : forall x y : F,
      nonzero x = false -> nonzero y = false -> nonzero (x + y) = false;
  zl_opp : forall x : F, nonzero x = false -> nonzero (- x) = false;
  zl_add_r : forall x z : F,
      nonzero z = false -> nonzero (x + z) = true -> x + z = x;
  zl_add_l : forall x z : F,
      nonzero z = false -> nonzero (z + x) = true -> z + x = x;
  zl_sub : forall x : F, finite x = true -> nonzero (x - x) = false;
  zl_eq : forall x : F, finite x = true -> feqb x x = true;
  zl_div : forall K1 K2 : Z, nonzero (of_Z 0 / N_K K1 K2) = false
}.

Variable jjj : Z -> Z -> Z -> Z -> Z -> Z -> F.
Variable g : Globals F.

(** The 3j symbols and the signs that multiply the tensor components in
    the reduced couplings of the row [r] and the column [c]. *)
Definition finite_reduced (r c : BasisIndex) : bool :=
  finite (jjj (bL r) 2 (bL c) (bK r) (- (bK r - bK c)) (- bK c))
  && finite (jjj (bL r) 2 (bL c) (bK r) (- (bK r + bK c)) (bK c))
  && finite (of_Z (bjK c * parity (bL c + bK c)))
  && finite (of_Z (bjK r)).

(** The products [C2 * S_A] and [C0 * S_A] of a hyperfine term. *)
Definition finite_hyperfine (I : F) (pS1 qS1 pSd qSd pI1 qI1 pId qId : Z)
  : bool :=
  let '(C0, C2, S_A) := hyperfine_coeffs I pS1 qS1 pSd qSd pI1 qI1 pId qId in
  finite (C2 * S_A) && finite (C0 * S_A).

(** The spin factors of the Liouville element of the pair. *)
Definition finite_spin (r c : BasisIndex) : bool :=
  let pSd := (bpS r - bpS c)%Z in
  let qSd := (bqS r - bqS c)%Z in
  let pId := (bpI r - bpI c)%Z in
  let qId := (bqI r - bqI c)%Z in
  let pIbd := (bpIb r - bpIb c)%Z in
  let qIbd := (bqIb r - bqIb c)%Z in
  (let '(C2, S_g) :=
     if (pSd =? 0)%Z then (sqrt23, of_Z (bpS r))
     else (sqrt12, of_Z (- qSd) / fsqrt (of_Z 2)) in
   finite (C2 * S_g))
  && finite (- sqrt13 * of_Z (bpS r))
  && finite_hyperfine (SysI (Sys g)) (bpS r) (bqS r) pSd qSd
       (bpI r) (bqI r) pId qId
  && finite_hyperfine (Ib (Sys g)) (bpS r) (bqS r) pSd qSd
       (bpIb r) (bqIb r) pIbd qIbd
  && finite (- sqrt13) && finite (of_Z (bpI r)) && finite (of_Z (bpIb r)).

(** The factor [NormFactor * d2jjj] of the rank-2 terms of the pair. *)
Definition finite_prefactor (r c : BasisIndex) : bool :=
  let pd := ((bpS r - bpS c) + (bpI r - bpI c) + (bpIb r - bpIb c))%Z in
  let Md := (bM r - bM c)%Z in
  finite (NormFactor (bL r) (bK r) (bM r) (bL c) (bK c)
          * (d2psi (Sys g) ((pd + 2) + (Md + 2) * 5)%Z
             * Liou3j jjj r (bL c) (bM c))).

(** The coefficients that multiply the couplings and the rates in the
    elements of the pair are finite. *)
Definition finite_coefficients (r c : BasisIndex) : bool :=
  finite_reduced r c && finite_spin r c && finite_prefactor r c
  && finite (of_Z (imul (bK r) (bK r))).

(** The same for every pair of basis functions. *)
Definition all_finite : Prop :=
  forall r c : BasisIndex,
    In r (basis g) -> In c (basis g) -> finite_coefficients r c = true.

End Finiteness.

(** The finite values of binary64. *)
Definition f64_finite (x : float) : bool :=
  match Prim2SF x with
  | S754_zero _ | S754_finite _ _ _ => true
  | _ => false
  end.

Module Inputs8.

Import Float64 Inputs.

(** The configuration of [Inputs4.prhs_isotropic] with the isotropic
    diffusion tensor [R0 = 2^1023], a finite value whose double is not. *)
Definition prhs_fast : mxInputs float :=
  {| in_Sys := sys_free;
     in_basisopts := arr [2; 0; 2; 0; 1; 1; 2; 0; 0; 0]%float;
     in_Exchange := 0%float;
     in_xlk := zeros;
     in_maxL := (-1)%float;
     in_Diff := arr [0x1p1023; 0x1p1023; 0x1p1023]%float;
     in_allocationOptions := arr [1000; 100000]%float |}.

(** Basis options [Lemax=0, Lomax=0, Kmax=0, Mmax=0, jKmin=1, pSmin=1,
    deltaK=-1, MeirovitchSymm=0, pImax=0, pIbmax=0]. *)
Definition prhs_backward : mxInputs float :=
  {| in_Sys := sys_free;
     in_basisopts := arr [0; 0; 0; 0; 1; 1; -1; 0; 0; 0]%float;
     in_Exchange := 0%float;
     in_xlk := zeros;
     in_maxL := (-1)%float;
     in_Diff := arr [1; 2; 3]%float;
     in_allocationOptions := arr [1000; 100000]%float |}.

(** The globals parsed from [prhs_backward]. *)
Definition g_backward : Globals float :=
  {| maxElements := 1000; maxRows := 100000; written := [];
     nRows := 0; nElements := 0;
     Lemax := 0; Lomax := 0; Kmax := 0; Mmax := 0; jKmin := 1; pSmin := 1;
     pImax := 0; pIbmax := 0; deltaK := -1; MeirovitchSymm := 0;
     Sys := sys_free;
     Diff := {| xlk := zeros; Rxx := 1%float; Ryy := 2%float; Rzz := 3%float;
                Exchange := 0%float; maxL := -1 |} |}.

End Inputs8.

Module Inputs9.

Import Float64 Inputs.

(** Basis options [Lemax=10, Lomax=0, Kmax=10, Mmax=0, jKmin=1, pSmin=1,
    deltaK=10, MeirovitchSymm=0, pImax=0, pIbmax=0]: the basis functions
    are (L,K) = (0,0), (2,0), (4,0), (6,0), (8,0), (10,0), (10,10).  No
    magnetic interaction, no potential, isotropic diffusion tensor
    (1 1 1); every entry of [d2psi] is NaN. *)
Definition prhs_nan : mxInputs float :=
  {| in_Sys :=
       {| SysI := 0%float; NZI0 := 0%float; HFI0 := 0%float;
          ReHFI2 := zeros; ImHFI2 := None;
          Ib := 0%float; NZI0b := 0%float; HFI0b := 0%float;
          ReHFI2b := zeros; ImHFI2b := None;
          EZI0 := 0%float; ReEZI2 := zeros; ImEZI2 := None;
          d2psi := fun _ => nan; DirTilt := 0%float |};
     in_basisopts := arr [10; 0; 10; 0; 1; 1; 10; 0; 0; 0]%float;
     in_Exchange := 0%float;
     in_xlk := zeros;
     in_maxL := (-1)%float;
     in_Diff := arr [1; 1; 1]%float;
     in_allocationOptions := arr [1000; 100000]%float |}.

End Inputs9.

Section IntRange.

Context {F : Type} {ops : FloatOps F}.

(** The basis options and the two spins are far inside the range of
    [int]: below 2^29 in absolute value. *)
Definition int_sized (g : Globals F) : Prop :=
  Lemax g < 536870912
  /\ deltaK g < 536870912
  /\ -536870912 < Mmax g
  /\ -536870912 < jKmin g
  /\ -536870912 < pSmin g
  /\ -536870912 < pImax g < 536870912
  /\ -536870912 < pIbmax g < 536870912
  /\ -536870912 < twoI g < 536870912
  /\ -536870912 < twoIb g < 536870912.

(** A run that counts, with unbounded integers ([o]) and in two's
    complement ([o32]), from the count [c]: when the first ends with the
    count [c'], the count has not decreased, and if [c'] is in the range
    of [int] the second ends with [c'] too. *)
Definition counts_alike (c : Z) (o o32 : outcome Z) : Prop :=
  match o with
  | Done c' => c <= c' /\ (c' < 2147483648 -> o32 = Done c')
  | _ => True
  end.

End IntRange.

(* ================================================================== *)
(** * Properties of the loops                                          *)
(* ================================================================== *)

Unset Implicit Arguments.

Section LoopFacts.

Context {S : Type}.

Lemma stops_weaken (P P' : S -> Prop) (Q Q' : string -> S -> Prop)
  (o : outcome S) :
  stops P Q o ->
  (forall s, P s -> P' s) ->
  (forall msg s, Q msg s -> Q' msg s) ->
  stops P' Q' o.
Proof.
  destruct o as [s | msg s |]; simpl; auto.
Qed.

Lemma andthen_stops (P P' : S -> Prop) (Q : string -> S -> Prop)
  (o : outcome S) (k : S -> outcome S) :
  stops P Q o ->
  (forall s, P s -> stops P' Q (k s)) ->
  stops P' Q (o ;; k).
Proof.
  destruct o as [s | msg s |]; simpl; auto.
Qed.

Lemma andthen_holds (P Q : S -> Prop) (o : outcome S) (k : S -> outcome S) :
  holds P o ->
  (forall s, P s -> Q s) ->
  (forall s, P s -> holds Q (k s)) ->
  holds Q (o ;; k).
Proof.
  destruct o as [s | msg s |]; unfold holds; simpl; auto.
Qed.

(** The invariant rule: a property kept by every pass of the body is kept
    by the loop; what is known of an aborted pass is known of the aborted
    loop. *)
Lemma for_loop_stops (P : S -> Prop) (Q : string -> S -> Prop)
  (body : Z -> S -> outcome S) (hi step : Z) :
  (forall i s, P s -> stops P Q (body i s)) ->
  forall fuel i s, P s -> stops P Q (for_loop fuel i hi step body s).
Proof.
  intros Hbody fuel. induction fuel as [| fuel IH]; intros i s Hs; simpl.
  - destruct (i <=? hi); simpl; auto.
  - destruct (i <=? hi); simpl; auto.
    specialize (Hbody i s Hs).
    destruct (body i s) as [s1 | msg s1 |]; simpl in *; auto.
Qed.

(** The same rule when the body needs to know that the loop variable lies
    between the bounds (the step is not negative). *)
Lemma for_loop_stops_range (P : S -> Prop) (Q : string -> S -> Prop)
  (body : Z -> S -> outcome S) (lo hi step : Z) :
  0 <= step ->
  (forall i s, lo <= i <= hi -> P s -> stops P Q (body i s)) ->
  forall fuel i s, lo <= i -> P s -> stops P Q (for_loop fuel i hi step body s).
Proof.
  intros Hstep Hbody fuel. induction fuel as [| fuel IH]; intros i s Hi Hs; simpl.
  - destruct (i <=? hi); simpl; auto.
  - destruct (Z.leb_spec i hi); simpl; auto.
    assert (Hb : stops P Q (body i s)) by (apply Hbody; auto; lia).
    destruct (body i s) as [s1 | msg s1 |]; simpl in *; auto.
    apply IH; auto; lia.
Qed.

Lemma for_up_stops (P : S -> Prop) (Q : string -> S -> Prop)
  (body : Z -> S -> outcome S) (lo hi step : Z) :
  (forall i s, P s -> stops P Q (body i s)) ->
  forall s, P s -> stops P Q (for_up lo hi step body s).
Proof.
  intros Hbody s Hs. unfold for_up. apply for_loop_stops; auto.
Qed.

Lemma for_up_stops_range (P : S -> Prop) (Q : string -> S -> Prop)
  (body : Z -> S -> outcome S) (lo hi step : Z) :
  0 <= step ->
  (forall i s, lo <= i <= hi -> P s -> stops P Q (body i s)) ->
  forall s, P s -> stops P Q (for_up lo hi step body s).
Proof.
  intros Hstep Hbody s Hs. unfold for_up.
  apply for_loop_stops_range with (lo := lo); auto; lia.
Qed.

(** Loops with bodies that agree are equal. *)
Lemma for_loop_ext (body1 body2 : Z -> S -> outcome S) (hi step : Z) :
  (forall i s, body1 i s = body2 i s) ->
  forall fuel i s,
    for_loop fuel i hi step body1 s = for_loop fuel i hi step body2 s.
Proof.
  intros Hbody fuel. induction fuel as [| fuel IH]; intros i s; simpl; auto.
  destruct (i <=? hi); auto.
  rewrite Hbody. destruct (body2 i s); simpl; auto.
Qed.

Lemma for_up_ext (body1 body2 : Z -> S -> outcome S) (lo hi step : Z) :
  (forall i s, body1 i s = body2 i s) ->
  forall s, for_up lo hi step body1 s = for_up lo hi step body2 s.
Proof.
  intros Hbody s. unfold for_up. apply for_loop_ext; auto.
Qed.

End LoopFacts.

Lemma for_loop_sim {S1 S2 : Type} (R : S1 -> S2 -> Prop)
  (body1 : Z -> S1 -> outcome S1) (body2 : Z -> S2 -> outcome S2)
  (hi step : Z) :
  (forall i s1 s2, R s1 s2 -> sim R (body1 i s1) (body2 i s2)) ->
  forall fuel i s1 s2, R s1 s2 ->
    sim R (for_loop fuel i hi step body1 s1) (for_loop fuel i hi step body2 s2).
Proof.
  intros Hbody fuel. induction fuel as [| fuel IH]; intros i s1 s2 HR; simpl.
  - destruct (i <=? hi); simpl; eauto.
  - destruct (i <=? hi); simpl; eauto.
    specialize (Hbody i s1 s2 HR).
    destruct (body1 i s1) as [t1 | msg t1 |]; simpl in *; auto.
    destruct Hbody as (t2 & -> & HR'). simpl. apply IH; auto.
Qed.

Lemma for_up_sim {S1 S2 : Type} (R : S1 -> S2 -> Prop)
  (body1 : Z -> S1 -> outcome S1) (body2 : Z -> S2 -> outcome S2)
  (lo hi step : Z) :
  (forall i s1 s2, R s1 s2 -> sim R (body1 i s1) (body2 i s2)) ->
  forall s1 s2, R s1 s2 ->
    sim R (for_up lo hi step body1 s1) (for_up lo hi step body2 s2).
Proof.
  intros Hbody s1 s2 HR. unfold for_up. apply for_loop_sim; auto.
Qed.

Lemma sim_Done {S1 S2 : Type} (R : S1 -> S2 -> Prop) (s1 : S1) (s2 : S2) :
  R s1 s2 -> sim R (Done s1) (Done s2).
Proof. intros HR. simpl. eauto. Qed.

(* ================================================================== *)
(** * The row loops, for any body                                      *)
(* ================================================================== *)

Section RowNest.

Context {F : Type} {ops : FloatOps F}.
Variable fuel : nat.
Variable g : Globals F.

Ltac row_levels :=
  unfold rows_L1, rows_jK1, rows_K1, rows_M1, rows_pS1, rows_qS1,
    rows_pI1, rows_qI1, rows_pI1b, rows_qI1b.

(** A property kept by the body is kept by the ten loops. *)
Lemma rows_L1_stops {S : Type} (P : S -> Prop) (Q : string -> S -> Prop)
  (body : BasisIndex -> IsoTerms F -> S -> outcome S) :
  (forall r s, P s -> stops P Q (body r (IsoDiff g (bL r) (bK r)) s)) ->
  forall s, P s -> stops P Q (rows_L1 fuel g body s).
Proof.
  intros Hbody. row_levels.
  repeat first
    [ assumption
    | apply for_up_stops; intros
    | apply for_loop_stops; intros
    | match goal with
      | |- stops _ _ (if ?b then _ else _) => destruct b; [ simpl; assumption | ]
      end
    | match goal with
      | |- stops _ _ (body ?r _ _) => apply (Hbody r); assumption
      end ].
Qed.

(** Two bodies that run in step make the loops run in step. *)
Lemma rows_L1_sim {S1 S2 : Type} (R : S1 -> S2 -> Prop)
  (body1 : BasisIndex -> IsoTerms F -> S1 -> outcome S1)
  (body2 : BasisIndex -> IsoTerms F -> S2 -> outcome S2) :
  (forall r iso s1 s2, R s1 s2 -> sim R (body1 r iso s1) (body2 r iso s2)) ->
  forall s1 s2, R s1 s2 ->
    sim R (rows_L1 fuel g body1 s1) (rows_L1 fuel g body2 s2).
Proof.
  intros Hbody. row_levels.
  repeat first
    [ assumption
    | apply for_up_sim; intros
    | apply for_loop_sim; intros
    | match goal with
      | |- sim _ (if ?b then _ else _) (if ?b then _ else _) =>
          destruct b; [ apply sim_Done; assumption | ]
      end
    | apply Hbody; assumption ].
Qed.

End RowNest.

(* ================================================================== *)
(** * The column loops                                                 *)
(* ================================================================== *)

Section ColumnNest.

Context {F : Type} {ops : FloatOps F}.
Variable jjj : Z -> Z -> Z -> Z -> Z -> Z -> F.
Variable fuel : nat.
Variable g : Globals F.
Variable r : BasisIndex.
Variable iso : IsoTerms F.

Ltac col_levels :=
  unfold cols_L2, cols_jK2, cols_K2, cols_M2, cols_pS2, cols_qS2,
    cols_pI2, cols_qI2, cols_pI2b, cols_qI2b.

(** A property kept by the body of the innermost column loop, for every
    column within the band of [L2], is kept by the ten column loops. *)
Lemma cols_L2_stops (P : MState F -> Prop) (Q : string -> MState F -> Prop) :
  (forall c st,
      bL r <= bL c <= mini (Lemax g) (bL r + Lband) ->
      P st ->
      stops P Q (column_body g r iso (pair_terms jjj g r (bL c) (bjK c) (bK c))
                   (Liou3j jjj r (bL c) (bM c)) c st)) ->
  forall st, P st -> stops P Q (cols_L2 jjj fuel g r iso st).
Proof.
  intros Hbody. col_levels. intros st Hst.
  apply for_up_stops_range; [lia | | assumption].
  intros L2 st2 HL2 Hst2.
  destruct (truth (isodd L2) && (L2 >? Lomax g)); [ simpl; assumption | ].
  repeat first
    [ assumption
    | apply for_up_stops; intros
    | apply for_loop_stops; intros
    | match goal with
      | |- stops _ _ (if ?b then _ else _) => destruct b; [ simpl; assumption | ]
      end ].
  match goal with
  | |- stops _ _ (column_body _ _ _ _ _ ?c _) => apply (Hbody c)
  end; simpl; assumption.
Qed.

Lemma cols_L2_holds (P : MState F -> Prop) :
  (forall c st,
      bL r <= bL c <= mini (Lemax g) (bL r + Lband) ->
      P st ->
      holds P (column_body g r iso (pair_terms jjj g r (bL c) (bjK c) (bK c))
                 (Liou3j jjj r (bL c) (bM c)) c st)) ->
  forall st, P st -> holds P (cols_L2 jjj fuel g r iso st).
Proof.
  unfold holds. apply cols_L2_stops.
Qed.

End ColumnNest.

(* ================================================================== *)
(** * The body of the innermost column loop                            *)
(* ================================================================== *)

Section ColumnBody.

Context {F : Type} {ops : FloatOps F}.
Variable g : Globals F.

Lemma store_element_iRow (G L : F) (st : MState F) :
  holds (fun st' => iRow st' = iRow st /\ iCol st' = iCol st
                    /\ diagRC st' = diagRC st)
        (store_element g G L st).
Proof.
  unfold store_element.
  destruct (nonzero G || nonzero L); simpl; auto.
  destruct (diagRC st) eqn:Hd; simpl;
    match goal with |- holds _ (if ?b then _ else _) => destruct b end;
    simpl; auto.
Qed.

Lemma column_body_iRow (r : BasisIndex) (iso : IsoTerms F) (pt : PairTerms F)
  (l3j : F) (c : BasisIndex) (st : MState F) :
  holds (fun st' => iRow st' = iRow st) (column_body g r iso pt l3j c st).
Proof.
  unfold column_body.
  eapply andthen_holds.
  - apply store_element_iRow.
  - intros s (H & _). exact H.
  - intros s (H & _). unfold next_column.
    match goal with |- holds _ (if ?b then _ else _) => destruct b end;
      simpl; auto.
Qed.

End ColumnBody.

(* ================================================================== *)
(** * The row counter                                                  *)
(* ================================================================== *)

Section RowCounter.

Context {F : Type} {ops : FloatOps F}.
Variable jjj : Z -> Z -> Z -> Z -> Z -> Z -> F.
Variable fuel : nat.
Variable g : Globals F.

Lemma cols_L2_iRow (r : BasisIndex) (iso : IsoTerms F) (st : MState F) :
  holds (fun st' => iRow st' = iRow st) (cols_L2 jjj fuel g r iso st).
Proof.
  apply cols_L2_holds; auto.
  intros c st1 _ H1.
  generalize (column_body_iRow g r iso
                (pair_terms jjj g r (bL c) (bjK c) (bK c))
                (Liou3j jjj r (bL c) (bM c)) c st1).
  destruct (column_body _ _ _ _ _ _ _); simpl; congruence.
Qed.

(** A row that is processed to its end adds one to [iRow]. *)
Lemma row_body_iRow (r : BasisIndex) (iso : IsoTerms F) (st : MState F) :
  ended (fun st' => iRow st' = iRow st + 1) (row_body jjj fuel g r iso st).
Proof.
  unfold row_body.
  generalize (cols_L2_iRow r iso (begin_row st)).
  destruct (cols_L2 jjj fuel g r iso (begin_row st)) as [s1 | msg s1 |];
    simpl; auto.
  intros H1. unfold end_row.
  match goal with |- ended _ (if ?b then _ else _) => destruct b end;
    simpl; auto. lia.
Qed.

(** The row loops of [makematrix], with a body that only counts, are the
    loops of [BasisSize]. *)
Lemma rows_count_BasisSize (n : Z) :
  rows_L1 fuel g (fun _ _ k => Done (k + 1)) n = BasisSize_L1 fuel g n.
Proof.
  unfold rows_L1, rows_jK1, rows_K1, rows_M1, rows_pS1, rows_qS1,
    rows_pI1, rows_qI1, rows_pI1b, rows_qI1b.
  unfold BasisSize_L1, BasisSize_jK1, BasisSize_K1, BasisSize_M1,
    BasisSize_pS1, BasisSize_qS1, BasisSize_pI1, BasisSize_qI1,
    BasisSize_pI1b, BasisSize_qI1b.
  cbv zeta.
  apply for_up_ext. intros L1 s1.
  destruct (truth (isodd L1) && (L1 >? Lomax g)); auto.
  apply for_up_ext. intros jK1 s2.
  apply for_loop_ext. intros K1 s3.
  replace (truth (Z.land (c_int (K1 =? 0)) (c_int (negb (parity L1 =? jK1)))))
    with ((K1 =? 0) && negb (parity L1 =? jK1))
    by (destruct (K1 =? 0), (parity L1 =? jK1); reflexivity).
  destruct ((K1 =? 0) && negb (parity L1 =? jK1)); auto.
  apply for_up_ext. intros M1 s4.
  apply for_up_ext. intros pS1 s5.
  apply for_up_ext. intros qS1 s6.
  apply for_up_ext. intros pI1 s7.
  apply for_up_ext. intros qI1 s8.
  apply for_up_ext. intros pI1b s9.
  replace (pI1 + pI1b + pS1 - M1 =? 1) with (pI1 + pI1b + pS1 - 1 =? M1)
    by (destruct (Z.eqb_spec (pI1 + pI1b + pS1 - 1) M1),
                 (Z.eqb_spec (pI1 + pI1b + pS1 - M1) 1); auto; lia).
  reflexivity.
Qed.

(** When [makematrix] runs to its end, [nRows] is the count of the row
    loops. *)
Lemma makematrix_nRows :
  ended (fun g' => rows_L1 fuel g (fun _ _ k => Done (k + 1)) 0 = Done (nRows g'))
        (makematrix jjj fuel g).
Proof.
  unfold makematrix, makematrix_loops.
  assert (Hsim : sim (fun (st : MState F) (n : Z) => iRow st = n)
                   (rows_L1 fuel g (row_body jjj fuel g) (makematrix_init g))
                   (rows_L1 fuel g (fun _ _ k => Done (k + 1)) 0)).
  { apply rows_L1_sim; [ | reflexivity ].
    intros r iso s1 s2 HR.
    generalize (row_body_iRow r iso s1).
    destruct (row_body jjj fuel g r iso s1) as [t1 | msg t1 |]; simpl; auto.
    intros H. exists (s2 + 1). split; auto. lia. }
  destruct (rows_L1 fuel g (row_body jjj fuel g) (makematrix_init g))
    as [st | msg st |]; simpl in *; auto.
  destruct Hsim as (n & Hn & HR). rewrite Hn. simpl. congruence.
Qed.

End RowCounter.

(* ================================================================== *)
(** * Termination of the loops                                         *)
(* ================================================================== *)

Section Termination.

Context {S : Type}.

(** A loop with a positive step whose body always ends normally ends
    normally, given fuel for [hi - i + 1] passes. *)
Lemma for_loop_total (body : Z -> S -> outcome S) (hi step : Z) :
  1 <= step ->
  (forall i s, exists s', body i s = Done s') ->
  forall fuel i s, hi - i < Z.of_nat fuel ->
    exists s', for_loop fuel i hi step body s = Done s'.
Proof.
  intros Hstep Hbody fuel. induction fuel as [| fuel IH]; intros i s Hf; simpl.
  - destruct (Z.leb_spec i hi); [ lia | eauto ].
  - destruct (Z.leb_spec i hi); [ | eauto ].
    destruct (Hbody i s) as (s1 & ->). simpl. apply IH. lia.
Qed.

Lemma for_up_total (body : Z -> S -> outcome S) (lo hi step : Z) :
  1 <= step ->
  (forall i s, exists s', body i s = Done s') ->
  forall s, exists s', for_up lo hi step body s = Done s'.
Proof.
  intros Hstep Hbody s. unfold for_up.
  destruct (Z.leb_spec lo hi).
  - apply for_loop_total; auto. lia.
  - destruct (Z.to_nat (hi - lo + 1)); simpl;
      destruct (Z.leb_spec lo hi); eauto; lia.
Qed.

End Termination.

Lemma mini_le_l (a b : Z) : mini a b <= a.
Proof. unfold mini. destruct (Z.ltb_spec a b); lia. Qed.

Lemma mini_le_r (a b : Z) : mini a b <= b.
Proof. unfold mini. destruct (Z.ltb_spec a b); lia. Qed.

Lemma mini_glb (a b c : Z) : c <= a -> c <= b -> c <= mini a b.
Proof. unfold mini. destruct (Z.ltb_spec a b); lia. Qed.

(** [BasisSize] returns whenever [deltaK] is positive: fuel for [Kmax + 1]
    passes of a K loop is enough. *)
Lemma BasisSize_total {F : Type} {ops : FloatOps F} (g : Globals F) (fuel : nat) :
  1 <= deltaK g ->
  Kmax g < Z.of_nat fuel ->
  exists N, BasisSize fuel g = Done N.
Proof.
  intros Hd Hf.
  unfold BasisSize, BasisSize_L1, BasisSize_jK1, BasisSize_K1, BasisSize_M1,
    BasisSize_pS1, BasisSize_qS1, BasisSize_pI1, BasisSize_qI1,
    BasisSize_pI1b, BasisSize_qI1b.
  cbv zeta.
  apply for_up_total; [ lia | ]. intros L1 s1.
  destruct (truth (isodd L1) && (L1 >? Lomax g)); eauto.
  apply for_up_total; [ lia | ]. intros jK1 s2.
  apply for_loop_total; [ lia | | pose proof (mini_le_l (Kmax g) L1); lia ].
  intros K1 s3.
  match goal with |- exists _, (if ?b then _ else _) = _ => destruct b end; eauto.
  repeat (apply for_up_total; [ lia | ]; intros);
    try match goal with
        | |- exists _, (if ?b then _ else _) = _ => destruct b
        end; eauto.
  repeat (apply for_up_total; [ lia | ]; intros). eauto.
Qed.

(* ================================================================== *)
(** * Counting and enumerating agree (C1)                              *)
(* ================================================================== *)

(** C1: for every configuration and every amount of fuel, the row loops of
    [makematrix], run with a body that only counts the rows they reach, give
    exactly the outcome of [BasisSize]; when [makematrix] runs to its end,
    the value it leaves in [nRows] is the value [BasisSize] returns; and
    the two forms of the symmetry filter, [(pI1+pI1b+pS1-1)!=M1] in
    [BasisSize] and [(pI1+pI1b+pS1-M1)!=1] in [makematrix], reject the same
    tuples. *)
Theorem C1_BasisSize_counts_rows {F : Type} {ops : FloatOps F}
  (jjj : Z -> Z -> Z -> Z -> Z -> Z -> F) (fuel : nat) (g : Globals F) :
  rows_L1 fuel g (fun _ _ k => Done (k + 1)) 0 = BasisSize fuel g
  /\ ended (fun g' => BasisSize fuel g = Done (nRows g')) (makematrix jjj fuel g)
  /\ (forall pI1 pI1b pS1 M1 : Z,
         symm_on g && negb (pI1 + pI1b + pS1 - 1 =? M1)
         = symm_on g && negb (pI1 + pI1b + pS1 - M1 =? 1)).
Proof.
  split; [ | split ].
  - apply rows_count_BasisSize.
  - generalize (makematrix_nRows jjj fuel g).
    unfold BasisSize. rewrite <- rows_count_BasisSize.
    destruct (makematrix jjj fuel g); simpl; auto.
  - intros pI1 pI1b pS1 M1. f_equal. f_equal.
    destruct (Z.eqb_spec (pI1 + pI1b + pS1 - 1) M1),
             (Z.eqb_spec (pI1 + pI1b + pS1 - M1) 1); auto; lia.
Qed.

(* ================================================================== *)
(** * What [BasisSize] reads (C10)                                     *)
(* ================================================================== *)

(** [BasisSize] reads the basis truncation, the two spins, the director
    tilt and the symmetry flag, and nothing else. *)
Lemma BasisSize_same_truncation {F : Type} {ops : FloatOps F}
  (fuel : nat) (g1 g2 : Globals F) :
  same_truncation g1 g2 ->
  BasisSize fuel g1 = BasisSize fuel g2.
Proof.
  intros (H1 & H2 & H3 & H4 & H5 & H6 & H7 & H8 & H9 & H10 & H11 & H12 & H13).
  unfold BasisSize, BasisSize_L1, BasisSize_jK1, BasisSize_K1, BasisSize_M1,
    BasisSize_pS1, BasisSize_qS1, BasisSize_pI1, BasisSize_qI1,
    BasisSize_pI1b, BasisSize_qI1b, twoI, twoIb, symm_on.
  rewrite H1, H2, H3, H4, H5, H6, H7, H8, H9, H10, H11, H12, H13.
  reflexivity.
Qed.

(** C10: two configurations that agree on the basis truncation, on the
    spins I and Ib, on the director tilt and on the symmetry flag give the
    same outcome of [BasisSize], whatever their interaction scalars and
    tensors, diffusion rates, exchange rate and potential coefficients. *)
Theorem C10_BasisSize_independent {F : Type} {ops : FloatOps F}
  (fuel : nat) (g1 g2 : Globals F) :
  same_truncation g1 g2 ->
  BasisSize fuel g1 = BasisSize fuel g2.
Proof.
  intros H. apply BasisSize_same_truncation. exact H.
Qed.

Lemma C10_BasisSize_independent_witness :
  same_truncation Inputs2.g_rhombic Inputs2.g_zeeman
  /\ BasisSize 3 Inputs2.g_rhombic = BasisSize 3 Inputs2.g_zeeman.
Proof.
  assert (H : same_truncation Inputs2.g_rhombic Inputs2.g_zeeman)
    by (repeat split; reflexivity).
  split; [ exact H | ].
  exact (C10_BasisSize_independent 3 Inputs2.g_rhombic Inputs2.g_zeeman H).
Defined.

(* ================================================================== *)
(** * The arity checks of [mexFunction] (C8)                           *)
(* ================================================================== *)

(** C8, as stated, fails: a call with one input argument is not rejected;
    it returns without an error (and without any computation). *)
Lemma C8_one_input_not_rejected :
  1 <> 4
  /\ is_fatal (mexFunction Inputs.jjj_any 0 5 1 Inputs.prhs_rhombic Inputs.globals0)
     = false.
Proof. split; [ discriminate | reflexivity ]. Qed.

(** C8, amended: a call with a wrong number of arguments stops before
    anything is parsed, counted or assembled, the globals being left as
    they were: with one input argument it returns at once without error;
    with any other number of inputs than four it is rejected with "4 input
    arguments expected!"; with four inputs and a number of outputs other
    than five it is rejected with "3 output arguments expected!". *)
Theorem C8_wrong_arity {F : Type} {ops : FloatOps F}
  (jjj : Z -> Z -> Z -> Z -> Z -> Z -> F) (fuel : nat) (nlhs nrhs : Z)
  (prhs : mxInputs F) (g : Globals F) :
  nrhs <> 4 \/ nlhs <> 5 ->
  mexFunction jjj fuel nlhs nrhs prhs g
  = if nrhs =? 1 then Done g
    else Fatal (if nrhs =? 4 then msg_outputs else msg_inputs) g.
Proof.
  intros H. unfold mexFunction.
  destruct (Z.eqb_spec nrhs 1); auto.
  destruct (Z.eqb_spec nrhs 4); simpl; auto.
  destruct (Z.eqb_spec nlhs 5); simpl; auto.
  lia.
Qed.

Lemma C8_wrong_arity_witness :
  (3 <> 4 \/ 5 <> 5)
  /\ mexFunction Inputs.jjj_any 0 5 3 Inputs.prhs_rhombic Inputs.globals0
     = Fatal msg_inputs Inputs.globals0.
Proof.
  assert (H : 3 <> 4 \/ 5 <> 5) by (left; discriminate).
  split; [ exact H | ].
  exact (C8_wrong_arity Inputs.jjj_any 0 5 3 Inputs.prhs_rhombic Inputs.globals0 H).
Defined.

(* ================================================================== *)
(** * What one pass of the innermost column loop does                  *)
(* ================================================================== *)

Section ColumnEffect.

Context {F : Type} {ops : FloatOps F}.
Variable g : Globals F.

(** The pass writes [new_stores]; it is aborted after the writes when the
    element counter has reached [maxElements], and after the increment of
    [iCol] when [iCol] has reached [maxRows]. *)
Lemma column_body_effect (r : BasisIndex) (iso : IsoTerms F) (pt : PairTerms F)
  (l3j : F) (c : BasisIndex) (st : MState F) :
  let new := new_stores g r iso pt l3j c st in
  stops
    (fun st' => st' = after_column st new
                /\ (new <> [] -> iElement st' < maxElements g)
                /\ iCol st' < maxRows g)
    (fun msg st' =>
       (msg = msg_elements /\ st' = after_store st new /\ new <> []
        /\ maxElements g <= iElement st')
       \/ (msg = msg_rows /\ st' = after_column st new
           /\ (new <> [] -> iElement st' < maxElements g)
           /\ maxRows g <= iCol st'))
    (column_body g r iso pt l3j c st).
Proof.
  unfold column_body, store_element, new_stores, is_stored, element_of.
  destruct (nonzero _ || nonzero _); simpl;
    [ destruct (diagRC st) eqn:Hd; simpl | ];
    unfold next_column, write_element; simpl;
    repeat match goal with
           | |- context [ (?a >=? ?b)%Z ] => destruct (Z.geb_spec a b); simpl
           end;
    unfold after_store, after_column; simpl; try rewrite Hd;
    first
      [ solve [ left; repeat split; try discriminate; try lia;
                f_equal; lia ]
      | solve [ right; repeat split; try discriminate; try congruence; try lia;
                f_equal; lia ]
      | solve [ repeat split; try discriminate; try congruence; try lia;
                f_equal; lia ] ].
Qed.

End ColumnEffect.

(* ================================================================== *)
(** * Invariants of the whole assembly                                 *)
(* ================================================================== *)

Section Assembly.

Context {F : Type} {ops : FloatOps F}.
Variable jjj : Z -> Z -> Z -> Z -> Z -> Z -> F.
Variable fuel : nat.
Variable g : Globals F.

(** The rule for one row: [Pin] is kept by the passes of the column loops,
    it holds when the row begins, and it gives [Pout] when the row ends. *)
Lemma row_body_stops (Pin Pout : MState F -> Prop)
  (Q : string -> MState F -> Prop) (r : BasisIndex) (iso : IsoTerms F)
  (st : MState F) :
  (forall c s,
      bL r <= bL c <= mini (Lemax g) (bL r + Lband) ->
      Pin s ->
      stops Pin Q (column_body g r iso (pair_terms jjj g r (bL c) (bjK c) (bK c))
                     (Liou3j jjj r (bL c) (bM c)) c s)) ->
  Pin (begin_row st) ->
  (forall s, Pin s -> stops Pout Q (end_row g s)) ->
  stops Pout Q (row_body jjj fuel g r iso st).
Proof.
  intros Hcol Hbegin Hend. unfold row_body.
  apply andthen_stops with (P := Pin); auto.
  apply cols_L2_stops; auto.
Qed.

(** The rule for the assembly: [Pout] holds between the rows, [Pin r]
    within the row [r]. *)
Lemma makematrix_loops_stops (Pin : BasisIndex -> MState F -> Prop)
  (Pout : MState F -> Prop) (Q : string -> MState F -> Prop) :
  (forall r c s,
      bL r <= bL c <= mini (Lemax g) (bL r + Lband) ->
      Pin r s ->
      stops (Pin r) Q
        (column_body g r (IsoDiff g (bL r) (bK r))
           (pair_terms jjj g r (bL c) (bjK c) (bK c))
           (Liou3j jjj r (bL c) (bM c)) c s)) ->
  (forall r s, Pout s -> Pin r (begin_row s)) ->
  (forall r s, Pin r s -> stops Pout Q (end_row g s)) ->
  Pout (makematrix_init g) ->
  stops Pout Q (makematrix_loops jjj fuel g).
Proof.
  intros Hcol Hbegin Hend Hinit. unfold makematrix_loops.
  apply rows_L1_stops; [ | exact Hinit ].
  intros r s Hs.
  apply row_body_stops with (Pin := Pin r).
  - intros c s' Hband Hs'. apply Hcol; assumption.
  - apply Hbegin; assumption.
  - intros s' Hs'. apply Hend with (r := r); assumption.
Qed.

(** The same for a property of the writes alone. *)
Lemma makematrix_loops_stores (P : list (Z * Entry F) -> Prop) :
  (forall r c s,
      bL r <= bL c <= mini (Lemax g) (bL r + Lband) ->
      P (stores s) ->
      P (new_stores g r (IsoDiff g (bL r) (bK r))
           (pair_terms jjj g r (bL c) (bjK c) (bK c))
           (Liou3j jjj r (bL c) (bM c)) c s ++ stores s)) ->
  P (written g) ->
  holds (fun s => P (stores s)) (makematrix_loops jjj fuel g).
Proof.
  intros Hcol Hinit. unfold holds.
  apply makematrix_loops_stops with (Pin := fun _ s => P (stores s)); auto.
  - intros r c s Hband Hs.
    generalize (column_body_effect g r (IsoDiff g (bL r) (bK r))
                  (pair_terms jjj g r (bL c) (bjK c) (bK c))
                  (Liou3j jjj r (bL c) (bM c)) c s).
    cbv zeta. intros Heff. eapply stops_weaken; [ exact Heff | | ].
    + intros s' (-> & _). simpl. apply Hcol; auto.
    + intros msg s' [(_ & -> & _) | (_ & -> & _)]; simpl; apply Hcol; auto.
  - intros r s Hs. unfold end_row.
    match goal with |- stops _ _ (if ?b then _ else _) => destruct b end;
      simpl; auto.
Qed.

Lemma makematrix_written (P : list (Z * Entry F) -> Prop) :
  holds (fun s => P (stores s)) (makematrix_loops jjj fuel g) ->
  holds (fun g' => P (written g')) (makematrix jjj fuel g).
Proof.
  unfold makematrix.
  destruct (makematrix_loops jjj fuel g); simpl; auto.
Qed.

End Assembly.

(* ================================================================== *)
(** * Which elements are stored, and with which values (C4)            *)
(* ================================================================== *)

(** C4: one pass of the innermost column loop, for the row [r] and the
    column [c], stores an element exactly when the diffusion element or
    the Liouville element compares different from zero ([x != 0], no
    tolerance); the element stored at [(iRow, iCol)] has the diffusion
    element as real part and the negated Liouville element as imaginary
    part (the same values go to the mirrored position when the pair is off
    the diagonal); nothing else is written.  In a whole assembly every
    element of the output arrays is such an element with one of the two
    parts different from zero. *)
Theorem C4_stored_iff_nonzero {F : Type} {ops : FloatOps F}
  (jjj : Z -> Z -> Z -> Z -> Z -> Z -> F) (fuel : nat) (g : Globals F) (N : Z)
  (r : BasisIndex) (iso : IsoTerms F) (pt : PairTerms F) (l3j : F)
  (c : BasisIndex) (st : MState F) :
  let Gamma := GammaElement g r c iso (pt_N_K pt) (pt_PotDiff pt) in
  let Liouville :=
    LiouvilleElement g r c (pt_NormFactor pt) (pt_rank2 pt) l3j in
  let e := {| ridx := iRow st; cidx := iCol st;
              MatrixRe := Gamma; MatrixIm := fopp Liouville |} in
  holds (fun st' =>
           stores st' =
           if negb (feqb Gamma (of_Z 0)) || negb (feqb Liouville (of_Z 0))
           then (if diagRC st then [] else [(iElement st + 1, mirror e)])
                ++ (iElement st, e) :: stores st
           else stores st)
        (column_body g r iso pt l3j c st)
  /\ holds (fun g' =>
              Forall (fun ke =>
                        exists r' c' iso' pt' l3j',
                          let G' := GammaElement g r' c' iso' (pt_N_K pt')
                                      (pt_PotDiff pt') in
                          let L' := LiouvilleElement g r' c' (pt_NormFactor pt')
                                      (pt_rank2 pt') l3j' in
                          MatrixRe (snd ke) = G'
                          /\ MatrixIm (snd ke) = fopp L'
                          /\ negb (feqb G' (of_Z 0)) || negb (feqb L' (of_Z 0))
                             = true)
                     (written g'))
           (makematrix jjj fuel (allocate N g)).
Proof.
  cbv zeta. split.
  - generalize (column_body_effect g r iso pt l3j c st). cbv zeta.
    unfold holds. intros Heff. eapply stops_weaken; [ exact Heff | | ].
    + intros s' (-> & _). simpl.
      unfold new_stores, is_stored, element_of, nonzero, fneb.
      destruct (negb _ || negb _); simpl; auto.
      destruct (diagRC st); reflexivity.
    + intros msg s' [(_ & -> & _) | (_ & -> & _)]; simpl;
        unfold new_stores, is_stored, element_of, nonzero, fneb;
        (destruct (negb _ || negb _); simpl; auto;
         destruct (diagRC st); reflexivity).
  - apply makematrix_written.
    apply makematrix_loops_stores; [ | constructor ].
    intros r' c' s _ Hs.
    apply Forall_app. split; auto.
    unfold new_stores.
    destruct (is_stored _ _ _ _ _ _) eqn:His; [ | constructor ].
    assert (He : forall (k : Z) (e' : Entry F),
               MatrixRe e' = MatrixRe (element_of (allocate N g) r'
                 (IsoDiff (allocate N g) (bL r') (bK r'))
                 (pair_terms jjj (allocate N g) r' (bL c') (bjK c') (bK c'))
                 (Liou3j jjj r' (bL c') (bM c')) c' s) ->
               MatrixIm e' = MatrixIm (element_of (allocate N g) r'
                 (IsoDiff (allocate N g) (bL r') (bK r'))
                 (pair_terms jjj (allocate N g) r' (bL c') (bjK c') (bK c'))
                 (Liou3j jjj r' (bL c') (bM c')) c' s) ->
               exists r0 c0 iso0 pt0 l3j0,
                 MatrixRe (snd (k, e')) =
                   GammaElement g r0 c0 iso0 (pt_N_K pt0) (pt_PotDiff pt0)
                 /\ MatrixIm (snd (k, e')) =
                   fopp (LiouvilleElement g r0 c0 (pt_NormFactor pt0)
                           (pt_rank2 pt0) l3j0)
                 /\ negb (feqb (GammaElement g r0 c0 iso0 (pt_N_K pt0)
                                  (pt_PotDiff pt0)) (of_Z 0))
                    || negb (feqb (LiouvilleElement g r0 c0 (pt_NormFactor pt0)
                                     (pt_rank2 pt0) l3j0) (of_Z 0)) = true).
    { intros k e' Hre Him.
      exists r', c', (IsoDiff (allocate N g) (bL r') (bK r')),
        (pair_terms jjj (allocate N g) r' (bL c') (bjK c') (bK c')),
        (Liou3j jjj r' (bL c') (bM c')).
      simpl. rewrite Hre, Him. repeat split. exact His. }
    destruct (diagRC s); simpl; repeat constructor; apply He; reflexivity.
Qed.

(* ================================================================== *)
(** * The element capacity (C2)                                        *)
(* ================================================================== *)

Section Capacity.

Context {F : Type} {ops : FloatOps F}.
Variable jjj : Z -> Z -> Z -> Z -> Z -> Z -> F.
Variable fuel : nat.
Variable g : Globals F.

(** The counters of one pass of the innermost column loop do not
    decrease. *)
Lemma column_body_monotone (r : BasisIndex) (iso : IsoTerms F)
  (pt : PairTerms F) (l3j : F) (c : BasisIndex) (st : MState F) :
  holds (fun st' => iRow st <= iRow st' /\ iCol st <= iCol st'
                    /\ iElement st <= iElement st')
        (column_body g r iso pt l3j c st).
Proof.
  generalize (column_body_effect g r iso pt l3j c st). cbv zeta.
  unfold holds. intros Heff. eapply stops_weaken; [ exact Heff | | ].
  - intros s' (-> & _). simpl. lia.
  - intros msg s' [(_ & -> & _) | (_ & -> & _)]; simpl; lia.
Qed.

(** During the whole assembly the row counter and the element counter do
    not decrease: whenever the run stops they are at least what they were
    at any earlier pass, in particular at the start. *)
Lemma makematrix_loops_monotone :
  holds (fun st => 0 <= iRow st /\ 0 <= iElement st)
        (makematrix_loops jjj fuel g).
Proof.
  unfold holds.
  apply makematrix_loops_stops
    with (Pin := fun _ st => 0 <= iRow st /\ 0 <= iElement st).
  - intros r c s _ Hs.
    generalize (column_body_monotone r (IsoDiff g (bL r) (bK r))
                  (pair_terms jjj g r (bL c) (bjK c) (bK c))
                  (Liou3j jjj r (bL c) (bM c)) c s).
    unfold holds. intros Hm. eapply stops_weaken; [ exact Hm | | ];
      simpl; intros; lia.
  - intros r s Hs. simpl. exact Hs.
  - intros r s Hs. unfold end_row.
    match goal with |- stops _ _ (if ?b then _ else _) => destruct b end;
      simpl; lia.
  - simpl. lia.
Qed.

(** With room for at least one element, a run that ends normally has
    written below [maxElements] only; a run that is aborted has written at
    [maxElements] at most, that is, at most one place past the end of the
    arrays. *)
Lemma makematrix_loops_write_bound :
  1 <= maxElements g ->
  written g = [] ->
  stops (fun st => Forall (fun ke => 0 <= fst ke < maxElements g) (stores st))
        (fun _ st => Forall (fun ke => 0 <= fst ke <= maxElements g) (stores st))
        (makematrix_loops jjj fuel g).
Proof.
  intros Hcap Hw.
  assert (Hgen :
    stops (fun st => 0 <= iElement st < maxElements g
                     /\ Forall (fun ke => 0 <= fst ke < maxElements g) (stores st))
          (fun _ st => Forall (fun ke => 0 <= fst ke <= maxElements g) (stores st))
          (makematrix_loops jjj fuel g)).
  { apply makematrix_loops_stops
      with (Pin := fun _ st =>
                     0 <= iElement st < maxElements g
                     /\ Forall (fun ke => 0 <= fst ke < maxElements g) (stores st)).
    - intros r c s _ (Hi & Hs).
      generalize (column_body_effect g r (IsoDiff g (bL r) (bK r))
                    (pair_terms jjj g r (bL c) (bjK c) (bK c))
                    (Liou3j jjj r (bL c) (bM c)) c s).
      cbv zeta. intros Heff. eapply stops_weaken; [ exact Heff | | ].
      + intros s' (-> & Hlt & _). simpl in *. unfold new_stores in *.
        destruct (is_stored _ _ _ _ _ _).
        * assert (Hne : forall (A : Type) (l : list A) (x : A), l ++ [x] <> [])
            by (intros A l x; destruct l; discriminate).
          specialize (Hlt (Hne _ _ _)).
          destruct (diagRC s); simpl in *; split; try lia;
            repeat constructor; simpl; auto; lia.
        * simpl. split; auto. lia.
      + assert (Hweak : Forall (fun ke : Z * Entry F => 0 <= fst ke <= maxElements g)
                          (stores s)).
        { eapply Forall_impl; [ | exact Hs ]. simpl. intros; lia. }
        intros msg s' [(_ & -> & _) | (_ & -> & _)]; simpl;
          unfold new_stores; destruct (is_stored _ _ _ _ _ _); simpl; auto;
          destruct (diagRC s); simpl; repeat constructor; simpl; auto; lia.
    - intros r s Hs. simpl. exact Hs.
    - intros r s (Hi & Hs). unfold end_row.
      match goal with |- stops _ _ (if ?b then _ else _) => destruct b end;
        simpl; auto.
      eapply Forall_impl; [ | exact Hs ]. simpl. intros; lia.
    - simpl. rewrite Hw. split; [ lia | constructor ]. }
  eapply stops_weaken; [ exact Hgen | | ]; simpl; auto.
  intros s (_ & H). exact H.
Qed.

End Capacity.

(** C2 fails on the code.  The call below has four inputs, five outputs,
    the basis options [2 0 2 0 1 1 2 0 0 0], the diffusion tensor (1 2 3),
    no magnetic interaction, and the allocation options [2 100000]: the
    output arrays have room for the indices 0 and 1.  The diagonal element
    of row 1 is written at index 0; the off-diagonal element (1,2) is
    written at index 1 and its mirror image at index 2, past the end of the
    arrays; only then the test [iElement>=maxElements] aborts the call. *)
Theorem C2_write_past_capacity :
  match mexFunction Inputs.jjj_any 3 5 4 Inputs.prhs_rhombic Inputs.globals0 with
  | Fatal msg g' =>
      msg = msg_elements
      /\ maxElements g' = 2
      /\ map fst (written g') = [2; 1; 0]
      /\ map (fun ke => (ridx (snd ke), cidx (snd ke))) (written g')
         = [(2, 1); (1, 2); (1, 1)]
  | _ => False
  end.
Proof. vm_compute. repeat split. Qed.

(* ================================================================== *)
(** * The normalisation prefactor (C7)                                 *)
(* ================================================================== *)

Section Prefactor.

Local Open Scope R_scope.

Lemma sqrt2_neq_0 : sqrt 2 <> 0.
Proof.
  intros H. assert (H2 : sqrt 2 * sqrt 2 = 2) by (apply sqrt_sqrt; lra).
  rewrite H in H2. lra.
Qed.

(** C7, as stated, fails: with [K1 = 0] and [K2 = 2] the factor [N_K] is
    [1/sqrt(2)], not one half, in exact real arithmetic and in binary64
    (0.7071067811865475). *)
Lemma C7_N_K_not_half :
  (0 = 0 \/ 2 = 0)%Z /\ N_K (ops := RealOps.ops) 0 2 <> 1 / 2
  /\ N_K (ops := Float64.ops) 0 2 = 0x1.6a09e667f3bccp-1%float
  /\ feqb (N_K (ops := Float64.ops) 0 2) (fdiv (of_Z 1) (of_Z 2)) = false.
Proof.
  split; [ left; reflexivity | ].
  split; [ | split; reflexivity ].
  unfold N_K. simpl. intros H.
  assert (H2 : sqrt 2 * sqrt 2 = 2) by (apply sqrt_sqrt; lra).
  pose proof sqrt2_neq_0 as Hn.
  assert (H3 : sqrt 2 = 2).
  { apply (f_equal (fun x => x * (2 * sqrt 2))) in H.
    field_simplify in H; [ lra | exact Hn ]. }
  rewrite H3 in H2. lra.
Qed.

(** In exact arithmetic the Liouville element is its value without
    rank-2 couplings plus [NormFactor * Liou3j] times a combination of the
    three reduced couplings whose coefficients depend on neither. *)
Lemma LiouvilleElement_multilinear (g : Globals R) (r c : BasisIndex) (nf : R)
  (rk : Rank2 R) (l3j : R) :
  let rank0 :=
    LiouvilleElement g r c 0 {| R_EZI2 := 0; R_HFI2 := 0; R_HFI2b := 0 |} 0 in
  LiouvilleElement g r c nf rk l3j
  = rank0
    + nf * l3j
      * (R_EZI2 rk
         * (LiouvilleElement g r c 1
              {| R_EZI2 := 1; R_HFI2 := 0; R_HFI2b := 0 |} 1 - rank0)
         + R_HFI2 rk
           * (LiouvilleElement g r c 1
                {| R_EZI2 := 0; R_HFI2 := 1; R_HFI2b := 0 |} 1 - rank0)
         + R_HFI2b rk
           * (LiouvilleElement g r c 1
                {| R_EZI2 := 0; R_HFI2 := 0; R_HFI2b := 1 |} 1 - rank0)).
Proof.
  unfold LiouvilleElement. cbv zeta.
  destruct (hyperfine_coeffs (SysI (Sys g)) (bpS r) (bqS r) (bpS r - bpS c)
              (bqS r - bqS c) (bpI r) (bqI r) (bpI r - bpI c) (bqI r - bqI c))
    as [[C0 C2] SA].
  destruct (hyperfine_coeffs (Ib (Sys g)) (bpS r) (bqS r) (bpS r - bpS c)
              (bqS r - bqS c) (bpIb r) (bqIb r) (bpIb r - bpIb c)
              (bqIb r - bqIb c))
    as [[C0b C2b] SAb].
  repeat match goal with
         | |- context [ if ?b then _ else _ ] =>
             lazymatch b with
             | context [ if _ then _ else _ ] => fail
             | _ => destruct b
             end
         end;
    simpl; ring.
Qed.

End Prefactor.

Section PrefactorAnyArithmetic.

Context {F : Type} {ops : FloatOps F}.
Variable jjj : Z -> Z -> Z -> Z -> Z -> Z -> F.
Variable g : Globals F.

Local Open Scope F_scope.

(** The potential-dependent term is a sum that does not depend on the
    prefactor, times the prefactor, or zero. *)
Lemma PotDiff_scaled (L1 jK1 K1 M1 L2 jK2 K2 : Z) :
  exists (active : bool) (sum : F),
    forall nf : F,
      PotDiff jjj g L1 jK1 K1 M1 L2 jK2 K2 nf
      = if active then sum * nf else of_Z 0.
Proof.
  unfold PotDiff.
  destruct (Potential g); [ | exists false, (of_Z 0); reflexivity ].
  match goal with
  | |- context [if ?b then ?s * _ else _] => exists b, s
  end.
  reflexivity.
Qed.

(** The prefactor, the reduced couplings and [Liou3j] enter the Liouville
    element through the three products [NormFactor * d2jjj * R_EZI2],
    [NormFactor * d2jjj * R_HFI2] and [NormFactor * d2jjj * R_HFI2b] alone,
    where [d2jjj = d2psi[...] * Liou3j]. *)
Lemma LiouvilleElement_products (r c : BasisIndex) :
  exists Phi : F -> F -> F -> F,
    forall (nf : F) (rk : Rank2 F) (l3j : F),
      let d2jjj :=
        d2psi (Sys g)
          ((bpS r - bpS c + (bpI r - bpI c) + (bpIb r - bpIb c) + 2)
           + (bM r - bM c + 2) * 5)%Z * l3j in
      LiouvilleElement g r c nf rk l3j
      = Phi (nf * d2jjj * R_EZI2 rk) (nf * d2jjj * R_HFI2 rk)
          (nf * d2jjj * R_HFI2b rk).
Proof.
  unfold LiouvilleElement. cbv zeta.
  destruct (hyperfine_coeffs (SysI (Sys g)) (bpS r) (bqS r) (bpS r - bpS c)
              (bqS r - bqS c) (bpI r) (bqI r) (bpI r - bpI c) (bqI r - bqI c))
    as [[C0 C2] SA].
  destruct (hyperfine_coeffs (Ib (Sys g)) (bpS r) (bqS r) (bpS r - bpS c)
              (bqS r - bqS c) (bpIb r) (bqIb r) (bpIb r - bpIb c)
              (bqIb r - bqIb c))
    as [[C0b C2b] SAb].
  repeat match goal with
         | |- context [ if ?b then _ else _ ] =>
             lazymatch b with
             | context [ if _ then _ else _ ] => fail
             | _ => destruct b
             end
         end;
    eexists; intros nf rk l3j;
    match goal with
    | |- ?lhs = ?phi ?a ?b ?c =>
        let t := eval pattern a, b, c in lhs in
        match t with
        | ?f _ _ _ => unify phi f
        end
    end;
    reflexivity.
Qed.

End PrefactorAnyArithmetic.

(** C7, amended: the prefactor is [NormFactor = N_L * N_K * parity(M1+K1)]
    with [N_L = sqrt((2 L1 + 1)(2 L2 + 1))]; [N_K] is 1, divided by
    [sqrt(2)] once for each of [K1], [K2] that is zero: [1/sqrt(2)] when
    exactly one of them is zero and [(1/sqrt(2))/sqrt(2)] when both are,
    which is one half in exact arithmetic and 0.49999999999999994 in
    binary64.  The potential-dependent diffusion term is a sum that does
    not depend on the prefactor, times the prefactor (or zero); the
    prefactor and the reduced rank-2 couplings enter the Liouville element
    only through the products [NormFactor * d2jjj * R]; in exact
    arithmetic the Liouville element is its rank-0 part plus
    [NormFactor * Liou3j] times a combination of the reduced couplings;
    and the K2 loop passes [NormFactor] to both terms. *)
Theorem C7_prefactor {F : Type} {ops : FloatOps F}
  (jjj : Z -> Z -> Z -> Z -> Z -> Z -> F) (g : Globals F) (gR : Globals R) :
  (forall L1 K1 M1 L2 K2 : Z,
      NormFactor L1 K1 M1 L2 K2
      = (fsqrt ((of_Z 2 * of_Z L1 + of_Z 1) * (of_Z 2 * of_Z L2 + of_Z 1))
         * N_K K1 K2 * of_Z (parity (M1 + K1)))%fl)
  /\ (forall K1 K2 : Z,
         N_K K1 K2
         = if (K1 =? 0)%Z
           then if (K2 =? 0)%Z
                then (of_Z 1 / fsqrt (of_Z 2) / fsqrt (of_Z 2))%fl
                else (of_Z 1 / fsqrt (of_Z 2))%fl
           else if (K2 =? 0)%Z
                then (of_Z 1 / fsqrt (of_Z 2))%fl
                else of_Z 1)
  /\ N_K (ops := RealOps.ops) 0 0 = (1 / 2)%R
  /\ N_K (ops := Float64.ops) 0 0 = 0x1.fffffffffffffp-2%float
  /\ (forall L1 jK1 K1 M1 L2 jK2 K2 : Z,
         exists (active : bool) (sum : F),
           forall nf : F,
             PotDiff jjj g L1 jK1 K1 M1 L2 jK2 K2 nf
             = if active then (sum * nf)%fl else of_Z 0)
  /\ (forall r c : BasisIndex,
         exists Phi : F -> F -> F -> F,
           forall (nf : F) (rk : Rank2 F) (l3j : F),
             let d2jjj :=
               (d2psi (Sys g)
                  ((bpS r - bpS c + (bpI r - bpI c) + (bpIb r - bpIb c) + 2)
                   + (bM r - bM c + 2) * 5) * l3j)%fl in
             LiouvilleElement g r c nf rk l3j
             = Phi (nf * d2jjj * R_EZI2 rk)%fl (nf * d2jjj * R_HFI2 rk)%fl
                 (nf * d2jjj * R_HFI2b rk)%fl)
  /\ (forall (r c : BasisIndex) (nf : R) (rk : Rank2 R) (l3j : R),
         let rank0 :=
           LiouvilleElement gR r c 0%R
             {| R_EZI2 := 0%R; R_HFI2 := 0%R; R_HFI2b := 0%R |} 0%R in
         LiouvilleElement gR r c nf rk l3j
         = (rank0
            + nf * l3j
              * (R_EZI2 rk
                 * (LiouvilleElement gR r c 1
                      {| R_EZI2 := 1; R_HFI2 := 0; R_HFI2b := 0 |} 1 - rank0)
                 + R_HFI2 rk
                   * (LiouvilleElement gR r c 1
                        {| R_EZI2 := 0; R_HFI2 := 1; R_HFI2b := 0 |} 1 - rank0)
                 + R_HFI2b rk
                   * (LiouvilleElement gR r c 1
                        {| R_EZI2 := 0; R_HFI2 := 0; R_HFI2b := 1 |} 1
                      - rank0)))%R)
  /\ (forall r c : BasisIndex,
         let nf := NormFactor (bL r) (bK r) (bM r) (bL c) (bK c) in
         Liouville_of jjj g r c
         = LiouvilleElement g r c nf
             (reduced jjj g (bL r) (bjK r) (bK r) (bL c) (bjK c) (bK c))
             (Liou3j jjj r (bL c) (bM c))
         /\ pt_PotDiff (pair_terms jjj g r (bL c) (bjK c) (bK c))
            = PotDiff jjj g (bL r) (bjK r) (bK r) (bM r) (bL c) (bjK c) (bK c) nf).
Proof.
  split; [ reflexivity | ].
  split; [ intros K1 K2; unfold N_K; destruct (K1 =? 0)%Z, (K2 =? 0)%Z;
           reflexivity | ].
  split.
  { unfold N_K. simpl.
    pose proof sqrt2_neq_0 as Hn.
    assert (H2 : (sqrt 2 * sqrt 2 = 2)%R) by (apply sqrt_sqrt; lra).
    replace (1 / sqrt 2 / sqrt 2)%R with (1 / (sqrt 2 * sqrt 2))%R
      by (field; exact Hn).
    rewrite H2. reflexivity. }
  split; [ reflexivity | ].
  split; [ apply PotDiff_scaled | ].
  split; [ apply LiouvilleElement_products | ].
  split; [ apply LiouvilleElement_multilinear | ].
  intros r c. split; reflexivity.
Qed.

(* ================================================================== *)
(** * Loop nests: runs and enumerations                                *)
(* ================================================================== *)

Module NestFacts.

Import Nest.

Lemma exhausted_O (i hi step : Z) :
  exhausted O i hi step = (i <=? hi).
Proof. simpl. destruct (i <=? hi); reflexivity. Qed.

Lemma exhausted_succ (f : nat) (i hi step : Z) :
  exhausted (S f) i hi step
  = if i <=? hi then exhausted f (i + step) hi step else false.
Proof. reflexivity. Qed.

Lemma iter_O (i hi step : Z) : iter O i hi step = [].
Proof. simpl. destruct (i <=? hi); reflexivity. Qed.

Lemma iter_succ (f : nat) (i hi step : Z) :
  iter (S f) i hi step
  = if i <=? hi then i :: iter f (i + step) hi step else [].
Proof. reflexivity. Qed.

Lemma for_loop_O {S : Type} (i hi step : Z) (body : Z -> S -> outcome S) (s : S) :
  for_loop O i hi step body s = if i <=? hi then OutOfFuel else Done s.
Proof. reflexivity. Qed.

Lemma for_loop_succ {S : Type} (f : nat) (i hi step : Z)
  (body : Z -> S -> outcome S) (s : S) :
  for_loop (Datatypes.S f) i hi step body s
  = if i <=? hi then (body i s ;; for_loop f (i + step) hi step body)
    else Done s.
Proof. reflexivity. Qed.

Opaque exhausted iter.

Lemma exhausted_S (f : nat) (hi step : Z) :
  forall i, exhausted f i hi step = false -> exhausted (S f) i hi step = false.
Proof.
  induction f as [| f IH]; intros i H.
  - rewrite exhausted_O in H. rewrite exhausted_succ, H. reflexivity.
  - rewrite exhausted_succ in H. rewrite exhausted_succ.
    destruct (i <=? hi); auto.
Qed.

Lemma exhausted_le (f f' : nat) (i hi step : Z) :
  (f <= f')%nat -> exhausted f i hi step = false ->
  exhausted f' i hi step = false.
Proof.
  intros Hle H. induction Hle; auto. apply exhausted_S; auto.
Qed.

Lemma iter_S (f : nat) (hi step : Z) :
  forall i, exhausted f i hi step = false ->
            iter (S f) i hi step = iter f i hi step.
Proof.
  induction f as [| f IH]; intros i H.
  - rewrite exhausted_O in H. rewrite iter_succ, !iter_O, H. reflexivity.
  - rewrite exhausted_succ in H. rewrite (iter_succ (S f) i), (iter_succ f i).
    destruct (i <=? hi); auto. f_equal. apply IH; auto.
Qed.

Lemma iter_le (f f' : nat) (i hi step : Z) :
  (f <= f')%nat -> exhausted f i hi step = false ->
  iter f' i hi step = iter f i hi step.
Proof.
  intros Hle H. induction Hle; auto.
  rewrite iter_S; auto. apply exhausted_le with (f := f); auto.
Qed.

Lemma exhausted_stuck (f : nat) (hi step : Z) :
  step <= 0 -> forall i, i <= hi -> exhausted f i hi step = true.
Proof.
  intros Hstep. induction f as [| f IH]; intros i Hi.
  - rewrite exhausted_O. apply Z.leb_le; auto.
  - rewrite exhausted_succ.
    destruct (Z.leb_spec i hi); [ apply IH; lia | lia ].
Qed.

Lemma exhausted_step (f : nat) (i hi step : Z) :
  exhausted f i hi step = false -> i <= hi -> 1 <= step.
Proof.
  intros H Hi. destruct (Z_le_gt_dec step 0) as [Hs | Hs]; [ | lia ].
  rewrite exhausted_stuck in H; auto. discriminate.
Qed.

Lemma exhausted_enough (hi step : Z) :
  1 <= step ->
  forall f i, hi - i < Z.of_nat f -> exhausted f i hi step = false.
Proof.
  intros Hstep. induction f as [| f IH]; intros i Hf.
  - rewrite exhausted_O. apply Z.leb_gt. lia.
  - rewrite exhausted_succ.
    destruct (Z.leb_spec i hi); [ apply IH; lia | reflexivity ].
Qed.

Lemma iter_empty (f : nat) (i hi step : Z) :
  hi < i -> iter f i hi step = [].
Proof.
  intros H. destruct f; [ apply iter_O | ].
  rewrite iter_succ. destruct (Z.leb_spec i hi); auto; lia.
Qed.

Lemma exhausted_empty (f : nat) (i hi step : Z) :
  hi < i -> exhausted f i hi step = false.
Proof.
  intros H. destruct f.
  - rewrite exhausted_O. apply Z.leb_gt; auto.
  - rewrite exhausted_succ. destruct (Z.leb_spec i hi); auto; lia.
Qed.

(** A loop that does not run out of fuel visits the values of [zrange]. *)
Lemma iter_zrange (f : nat) (i hi step : Z) :
  exhausted f i hi step = false -> iter f i hi step = zrange i hi step.
Proof.
  intros H. unfold zrange.
  destruct (Z_le_gt_dec i hi) as [Hi | Hi].
  - pose proof (exhausted_step _ _ _ _ H Hi) as Hstep.
    assert (H' : exhausted (Z.to_nat (hi - i + 1)) i hi step = false)
      by (apply exhausted_enough; auto; lia).
    destruct (Nat.le_ge_cases f (Z.to_nat (hi - i + 1))) as [Hle | Hle].
    + symmetry. apply iter_le; auto.
    + apply iter_le; auto.
  - rewrite !iter_empty; auto; lia.
Qed.

Lemma zrange_exhausted (lo hi step : Z) :
  1 <= step -> exhausted (Z.to_nat (hi - lo + 1)) lo hi step = false.
Proof.
  intros Hstep. destruct (Z_le_gt_dec lo hi).
  - apply exhausted_enough; auto; lia.
  - apply exhausted_empty; lia.
Qed.

Lemma zrange_cons (lo hi step : Z) :
  1 <= step -> lo <= hi ->
  zrange lo hi step = lo :: zrange (lo + step) hi step.
Proof.
  intros Hstep Hlo.
  rewrite <- (iter_zrange (Z.to_nat (hi - lo + 1)) (lo + step) hi step).
  - unfold zrange.
    destruct (Z.to_nat (hi - lo + 1)) as [| f] eqn:Hf; [ lia | ].
    rewrite iter_succ. destruct (Z.leb_spec lo hi); [ | lia ].
    f_equal. symmetry. apply iter_S.
    apply exhausted_enough; auto; lia.
  - apply exhausted_enough; auto; lia.
Qed.

Lemma zrange_nil (lo hi step : Z) : hi < lo -> zrange lo hi step = [].
Proof. intros H. unfold zrange. apply iter_empty; auto. Qed.

Section Runs.

Context {A S : Type}.

Lemma foldM_app (body : A -> S -> outcome S) (l1 l2 : list A) (s : S) :
  foldM body (l1 ++ l2) s = (foldM body l1 s ;; foldM body l2).
Proof.
  revert s. induction l1 as [| a l1 IH]; intros s; simpl; auto.
  destruct (body a s); simpl; auto.
Qed.

Lemma foldM_ext_in {B : Type} (body1 body2 : B -> S -> outcome S) (l : list B) :
  (forall a s, In a l -> body1 a s = body2 a s) ->
  forall s, foldM body1 l s = foldM body2 l s.
Proof.
  induction l as [| a l IH]; intros H s; simpl; auto.
  rewrite H by (left; reflexivity).
  destruct (body2 a s); simpl; auto.
  apply IH. intros; apply H; right; auto.
Qed.

Lemma foldM_flat_map {B : Type} (body : A -> S -> outcome S) (f : B -> list A)
  (l : list B) (s : S) :
  foldM body (flat_map f l) s = foldM (fun v => foldM body (f v)) l s.
Proof.
  revert s. induction l as [| v l IH]; intros s; simpl; auto.
  rewrite foldM_app.
  destruct (foldM body (f v) s); simpl; auto.
Qed.

Lemma for_loop_foldM (body : Z -> S -> outcome S) (hi step : Z) :
  forall f i s,
    exhausted f i hi step = false ->
    for_loop f i hi step body s = foldM body (iter f i hi step) s.
Proof.
  induction f as [| f IH]; intros i s H.
  - rewrite exhausted_O in H. rewrite for_loop_O, iter_O, H. reflexivity.
  - rewrite exhausted_succ in H. rewrite for_loop_succ, iter_succ.
    destruct (i <=? hi); auto. simpl.
    destruct (body i s); simpl; auto.
Qed.

Lemma loop_foldM (fueled : bool) (fuel : nat) (lo hi step : Z)
  (body : Z -> S -> outcome S) (s : S) :
  exhausted (fuel_for fueled fuel lo hi) lo hi step = false ->
  loop fueled fuel lo hi step body s = foldM body (zrange lo hi step) s.
Proof.
  intros H. rewrite <- (iter_zrange _ _ _ _ H).
  unfold loop, for_up, fuel_for in *.
  destruct fueled; apply for_loop_foldM; auto.
Qed.

(** A nest in which no loop runs out of fuel runs its body over the
    enumeration. *)
Theorem run_enum (fuel : nat) (body : A -> S -> outcome S) (n : t A) :
  complete fuel n ->
  forall s, run fuel n body s = foldM body (enum n) s.
Proof.
  induction n as [a | fueled lo hi step skip inner IH]; intros Hc s; simpl.
  - destruct (body a s); reflexivity.
  - destruct Hc as (Hex & Hin).
    rewrite loop_foldM by exact Hex.
    rewrite foldM_flat_map.
    apply foldM_ext_in. intros v s' Hv.
    destruct (skip v) eqn:Hskip; [ reflexivity | ].
    apply IH. apply Hin; auto.
Qed.

Lemma for_loop_Done (body : Z -> S -> outcome S) (hi step : Z) :
  forall f i s s',
    for_loop f i hi step body s = Done s' ->
    exhausted f i hi step = false
    /\ forall v, In v (iter f i hi step) -> exists s1 s2, body v s1 = Done s2.
Proof.
  induction f as [| f IH]; intros i s s' H.
  - rewrite for_loop_O in H. rewrite exhausted_O, iter_O.
    destruct (i <=? hi); [ discriminate | ]. split; auto. intros v [].
  - rewrite for_loop_succ in H. rewrite exhausted_succ, iter_succ.
    destruct (i <=? hi).
    + destruct (body i s) as [s1 | |] eqn:Hb; simpl in H; try discriminate.
      destruct (IH _ _ _ H) as (Hex & Hin). split; auto.
      intros v [<- | Hv]; eauto.
    + split; auto. intros v [].
Qed.

(** A nest that runs to its end did not run out of fuel anywhere. *)
Theorem run_Done_complete (fuel : nat) (body : A -> S -> outcome S) (n : t A) :
  forall s s', run fuel n body s = Done s' -> complete fuel n.
Proof.
  induction n as [a | fueled lo hi step skip inner IH]; intros s s' H; simpl.
  - exact I.
  - simpl in H.
    assert (Hloop : exhausted (fuel_for fueled fuel lo hi) lo hi step = false
                    /\ forall v, In v (iter (fuel_for fueled fuel lo hi) lo hi step) ->
                         exists s1 s2,
                           (if skip v then Done s1
                            else run fuel (inner v) body s1) = Done s2).
    { unfold loop, for_up, fuel_for in *.
      destruct fueled; eapply for_loop_Done; exact H. }
    destruct Hloop as (Hex & Hin). split; auto.
    intros v Hv Hskip. rewrite <- (iter_zrange _ _ _ _ Hex) in Hv.
    destruct (Hin v Hv) as (s1 & s2 & Hrun). rewrite Hskip in Hrun.
    eapply IH; eauto.
Qed.

Lemma foldM_stops {B : Type} (P : S -> Prop) (Q : string -> S -> Prop)
  (body : B -> S -> outcome S) (l : list B) :
  (forall a s, In a l -> P s -> stops P Q (body a s)) ->
  forall s, P s -> stops P Q (foldM body l s).
Proof.
  induction l as [| a l IH]; intros H s Hs; simpl; auto.
  assert (Ha : stops P Q (body a s)) by (apply H; auto; left; reflexivity).
  destruct (body a s) as [s1 | msg s1 |]; simpl in *; auto;
    try (apply IH; auto; intros; apply H; auto; right; auto).
Qed.

Lemma foldM_ext_inv {B : Type} (P : S -> Prop)
  (body1 body2 : B -> S -> outcome S) (l : list B) :
  (forall a s, In a l -> P s -> body1 a s = body2 a s) ->
  (forall a s, In a l -> P s -> stops P (fun _ _ => True) (body2 a s)) ->
  forall s, P s -> foldM body1 l s = foldM body2 l s.
Proof.
  induction l as [| a l IH]; intros H1 H2 s Hs; simpl; auto.
  rewrite H1 by (auto; left; reflexivity).
  assert (Ha : stops P (fun _ _ => True) (body2 a s))
    by (apply H2; auto; left; reflexivity).
  destruct (body2 a s) as [s1 | msg s1 |]; simpl in *; auto;
    try (apply IH; auto; intros; [ apply H1 | apply H2 ]; auto; right; auto).
Qed.

(** After a run over a non-empty list that ends normally, what every pass
    establishes holds. *)
Lemma foldM_last {B : Type} (R : S -> Prop) (body : B -> S -> outcome S)
  (l : list B) :
  l <> [] ->
  (forall a s, stops R (fun _ _ => True) (body a s)) ->
  forall s, stops R (fun _ _ => True) (foldM body l s).
Proof.
  induction l as [| a l IH]; intros Hne H s; [ congruence | ]. simpl.
  specialize (H a s) as Ha.
  destruct (body a s) as [s1 | msg s1 |]; simpl in *; auto.
  destruct l as [| b l]; [ simpl; auto | ].
  apply IH; auto. discriminate.
Qed.

Lemma run_stops (fuel : nat) (P : S -> Prop) (Q : string -> S -> Prop)
  (body : A -> S -> outcome S) (n : t A) :
  (forall a s, P s -> stops P Q (body a s)) ->
  forall s, P s -> stops P Q (run fuel n body s).
Proof.
  intros Hbody.
  induction n as [a | fueled lo hi step skip inner IH]; intros s Hs; simpl.
  - apply Hbody; auto.
  - unfold loop, for_up. destruct fueled; apply for_loop_stops; auto;
      intros v s' Hs'; destruct (skip v); simpl; auto.
Qed.

Lemma for_loop_ext_inv (P : S -> Prop) (body1 body2 : Z -> S -> outcome S)
  (hi step : Z) :
  (forall i s, P s -> body1 i s = body2 i s) ->
  (forall i s, P s -> stops P (fun _ _ => True) (body2 i s)) ->
  forall f i s, P s ->
    for_loop f i hi step body1 s = for_loop f i hi step body2 s.
Proof.
  intros H1 H2. induction f as [| f IH]; intros i s Hs.
  - reflexivity.
  - rewrite !for_loop_succ. destruct (i <=? hi); auto.
    rewrite H1 by auto. specialize (H2 i s Hs).
    destruct (body2 i s) as [s1 | msg s1 |]; simpl in *; auto.
Qed.

(** Once the flag is cleared, the column loops are the row loops. *)
Lemma run_from_run (fuel : nat) (diag : S -> bool)
  (body : A -> S -> outcome S) :
  (forall a s, stops (fun s' => diag s' = false) (fun _ _ => True) (body a s)) ->
  forall (n : t A) (start : list Z) (s : S),
    diag s = false ->
    run_from fuel n start diag body s = run fuel n body s.
Proof.
  intros Hbody.
  induction n as [a | fueled lo hi step skip inner IH]; intros start s Hs; simpl.
  - reflexivity.
  - destruct start as [| a start']; [ reflexivity | ].
    rewrite Hs. unfold loop, for_up.
    destruct fueled;
      (apply for_loop_ext_inv with (P := fun s' => diag s' = false); auto;
       [ intros v s' Hs'; destruct (skip v); auto
       | intros v s' Hs'; destruct (skip v); simpl; auto;
         apply run_stops; auto; intros a0 s0 _; apply Hbody ]).
Qed.

End Runs.

Lemma iter_In_le (hi step : Z) :
  forall f i v, In v (iter f i hi step) -> v <= hi.
Proof.
  induction f as [| f IH]; intros i v Hv.
  - rewrite iter_O in Hv. destruct Hv.
  - rewrite iter_succ in Hv. destruct (Z.leb_spec i hi); [ | destruct Hv ].
    destruct Hv as [<- | Hv]; eauto.
Qed.

Lemma iter_In_ge (hi step : Z) :
  0 <= step -> forall f i v, In v (iter f i hi step) -> i <= v.
Proof.
  intros Hstep. induction f as [| f IH]; intros i v Hv.
  - rewrite iter_O in Hv. destruct Hv.
  - rewrite iter_succ in Hv. destruct (Z.leb_spec i hi); [ | destruct Hv ].
    destruct Hv as [<- | Hv]; [ lia | ]. apply IH in Hv. lia.
Qed.

Lemma zrange_In_le (lo hi step v : Z) : In v (zrange lo hi step) -> v <= hi.
Proof. apply iter_In_le. Qed.

Lemma zrange_In_ge (lo hi step v : Z) :
  0 <= step -> In v (zrange lo hi step) -> lo <= v.
Proof. intros H. apply iter_In_ge; auto. Qed.

(** With step 1 the range is the interval. *)
Lemma zrange_1_In (lo hi v : Z) : lo <= v <= hi -> In v (zrange lo hi 1).
Proof.
  intros (Hlo & Hhi).
  assert (H : forall n lo, Z.of_nat n = v - lo -> In v (zrange lo hi 1)).
  { induction n as [| n IH]; intros lo' Hn.
    - rewrite zrange_cons by lia. left. lia.
    - rewrite zrange_cons by lia. right. apply IH. lia. }
  apply (H (Z.to_nat (v - lo))). lia.
Qed.

(** The part of a range from one of its values onward. *)
Lemma zrange_split (lo hi step a : Z) :
  1 <= step -> In a (zrange lo hi step) ->
  exists before, zrange lo hi step = before ++ zrange a hi step.
Proof.
  intros Hstep.
  assert (H : forall k lo, a - lo < Z.of_nat k -> In a (zrange lo hi step) ->
                exists before, zrange lo hi step = before ++ zrange a hi step).
  { induction k as [| k IH]; intros lo' Hk Ha.
    - apply zrange_In_ge in Ha; lia.
    - destruct (Z_le_gt_dec lo' hi) as [Hle | Hgt];
        [ | rewrite zrange_nil in Ha by lia; destruct Ha ].
      rewrite zrange_cons in Ha by auto.
      destruct Ha as [<- | Ha]; [ exists []; reflexivity | ].
      destruct (IH (lo' + step)) as (before & Hb); auto; [ lia | ].
      exists (lo' :: before). rewrite zrange_cons by auto.
      simpl. f_equal. exact Hb. }
  intros Ha. apply (H (Z.to_nat (a - lo + 1))); auto.
  apply zrange_In_ge in Ha; lia.
Qed.

Section From.

Context {A S : Type}.

Lemma enum_from_head (n : t A) :
  forall start, reaches n start ->
    exists a rest, leaf_at n start = Some a /\ enum_from n start = a :: rest.
Proof.
  induction n as [a | fueled lo hi step skip inner IH]; intros start Hr; simpl in *.
  - eauto.
  - destruct start as [| v start']; [ destruct Hr | ].
    destruct Hr as (Hv & Hskip & Hr). rewrite Hskip.
    destruct (IH v start' Hr) as (a & rest & Hl & He).
    rewrite He. simpl. eauto.
Qed.

Lemma complete_reaches (fuel : nat) (n : t A) :
  forall start, complete fuel n -> reaches n start -> complete_from fuel n start.
Proof.
  induction n as [a | fueled lo hi step skip inner IH]; intros start Hc Hr;
    simpl in *; auto.
  destruct start as [| v start']; [ destruct Hr | ].
  destruct Hc as (Hex & Hin). destruct Hr as (Hv & Hskip & Hr).
  pose proof (zrange_In_le _ _ _ _ Hv) as Hvhi.
  assert (Hstep : 1 <= step).
  { destruct (Z_le_gt_dec lo hi) as [Hle | Hgt].
    - eapply exhausted_step; eauto.
    - rewrite zrange_nil in Hv by lia. destruct Hv. }
  destruct (zrange_split _ _ _ _ Hstep Hv) as (before & Hsplit).
  rewrite (zrange_cons v hi step) in Hsplit by auto.
  split; [ | split ].
  - unfold fuel_for in *. destruct fueled.
    + clear - Hex Hv Hstep.
      assert (Hgen : forall f i, exhausted f i hi step = false ->
                       In v (zrange i hi step) -> exhausted f v hi step = false).
      { induction f as [| f IHf]; intros i He Hi.
        - rewrite exhausted_O in He.
          rewrite zrange_nil in Hi by (apply Z.leb_gt; auto). destruct Hi.
        - destruct (Z_le_gt_dec i hi) as [Hle | Hgt];
            [ | rewrite zrange_nil in Hi by lia; destruct Hi ].
          rewrite zrange_cons in Hi by auto.
          destruct Hi as [<- | Hi]; auto.
          rewrite exhausted_succ in He.
          destruct (Z.leb_spec i hi); [ | lia ].
          apply exhausted_S. eapply IHf; eauto. }
      eapply Hgen; eauto.
    + apply zrange_exhausted; auto.
  - apply IH; auto.
  - intros w Hw Hsk. apply Hin; auto.
    rewrite Hsplit. apply in_or_app. right. right. exact Hw.
Qed.

(** The column loops, started from a tuple that the nest reaches with the
    flag set, run the body over the enumeration from that tuple onward;
    the body clears the flag. *)
Theorem run_from_enum (fuel : nat) (diag : S -> bool)
  (body : A -> S -> outcome S) :
  (forall a s, stops (fun s' => diag s' = false) (fun _ _ => True) (body a s)) ->
  forall (n : t A) (start : list Z) (s : S),
    complete_from fuel n start ->
    reaches n start ->
    diag s = true ->
    run_from fuel n start diag body s = foldM body (enum_from n start) s.
Proof.
  intros Hbody.
  induction n as [a | fueled lo hi step skip inner IH];
    intros start s Hc Hr Hs; simpl in *.
  - destruct (body a s); reflexivity.
  - destruct start as [| v start']; [ destruct Hr | ].
    destruct Hc as (Hex & Hc1 & Hc2). destruct Hr as (Hv & Hskip & Hr).
    rewrite Hs, Hskip.
    pose proof (zrange_In_le _ _ _ _ Hv) as Hvhi.
    pose proof (exhausted_step _ _ _ _ Hex Hvhi) as Hstep.
    rewrite loop_foldM by exact Hex.
    rewrite zrange_cons by auto. simpl. rewrite Hskip.
    rewrite IH by auto. rewrite foldM_app.
    destruct (enum_from_head _ _ Hr) as (a0 & rest & _ & Hhead).
    assert (Hlast : stops (fun s' => diag s' = false) (fun _ _ => True)
                      (foldM body (enum_from (inner v) start') s)).
    { apply foldM_last; auto. rewrite Hhead. discriminate. }
    destruct (foldM body (enum_from (inner v) start') s) as [s1 | msg s1 |];
      simpl in *; auto.
    rewrite foldM_flat_map.
    apply foldM_ext_inv with (P := fun s' => diag s' = false); auto.
    + intros w s' Hw Hs'. destruct (skip w) eqn:Hsw; [ reflexivity | ].
      rewrite run_from_run by auto.
      apply run_enum. apply Hc2; auto.
    + intros w s' Hw Hs'. apply foldM_stops; auto;
        intros a1 s2 _ _; apply Hbody.
Qed.

End From.

Section Positions.

Context {A : Type}.

Lemma skipn_app_lt (l1 l2 : list A) (k : nat) :
  (k < List.length l1)%nat -> skipn k (l1 ++ l2) = skipn k l1 ++ l2.
Proof.
  revert k. induction l1 as [| x l1 IH]; intros k Hk; simpl in *; [ lia | ].
  destruct k as [| k]; simpl; auto. apply IH. lia.
Qed.

Lemma skipn_app_ge (l1 l2 : list A) (k : nat) :
  (List.length l1 <= k)%nat ->
  skipn k (l1 ++ l2) = skipn (k - List.length l1) l2.
Proof.
  revert k. induction l1 as [| x l1 IH]; intros k Hk; simpl in *.
  - rewrite Nat.sub_0_r. reflexivity.
  - destruct k as [| k]; [ lia | ]. simpl. apply IH. lia.
Qed.

(** Where the k-th element of a flattened range comes from. *)
Lemma flat_map_zrange_nth (f : Z -> list A) (hi step : Z) :
  1 <= step ->
  forall lo k a,
    nth_error (flat_map f (zrange lo hi step)) k = Some a ->
    exists v k',
      In v (zrange lo hi step)
      /\ nth_error (f v) k' = Some a
      /\ skipn k (flat_map f (zrange lo hi step))
         = skipn k' (f v) ++ flat_map f (zrange (v + step) hi step).
Proof.
  intros Hstep.
  assert (H : forall n lo k a, hi - lo < Z.of_nat n ->
    nth_error (flat_map f (zrange lo hi step)) k = Some a ->
    exists v k',
      In v (zrange lo hi step)
      /\ nth_error (f v) k' = Some a
      /\ skipn k (flat_map f (zrange lo hi step))
         = skipn k' (f v) ++ flat_map f (zrange (v + step) hi step)).
  { induction n as [| n IH]; intros lo k a Hn Hk.
    - rewrite zrange_nil in Hk by lia. destruct k; discriminate.
    - destruct (Z_le_gt_dec lo hi) as [Hle | Hgt];
        [ | rewrite zrange_nil in Hk by lia; destruct k; discriminate ].
      rewrite zrange_cons in * by auto. simpl in *.
      destruct (Nat.lt_ge_cases k (List.length (f lo))) as [Hlt | Hge].
      + exists lo, k. split; [ left; reflexivity | ]. split.
        * rewrite nth_error_app1 in Hk; auto.
        * apply skipn_app_lt; auto.
      + rewrite nth_error_app2 in Hk by auto.
        destruct (IH (lo + step) _ _ ltac:(lia) Hk) as (v & k' & Hv & Ha & Hs).
        exists v, k'. split; [ right; exact Hv | ]. split; auto.
        rewrite skipn_app_ge by auto. exact Hs. }
  intros lo k a. apply (H (Z.to_nat (hi - lo + 1))). lia.
Qed.

(** Every position of the enumeration is the start of an enumeration
    "from a tuple onward". *)
Theorem enum_position (fuel : nat) (n : t A) :
  complete fuel n ->
  forall k a, nth_error (enum n) k = Some a ->
    exists start,
      reaches n start /\ leaf_at n start = Some a
      /\ skipn k (enum n) = enum_from n start.
Proof.
  induction n as [a0 | fueled lo hi step skip inner IH]; intros Hc k a Hk;
    simpl in *.
  - exists []. destruct k as [| k]; simpl in *.
    + inversion Hk; subst. auto.
    + destruct k; discriminate.
  - destruct Hc as (Hex & Hin).
    destruct (Z_le_gt_dec lo hi) as [Hle | Hgt];
      [ | rewrite zrange_nil in Hk by lia; destruct k; discriminate ].
    pose proof (exhausted_step _ _ _ _ Hex Hle) as Hstep.
    destruct (flat_map_zrange_nth _ hi step Hstep lo k a Hk)
      as (v & k' & Hv & Ha & Hs).
    destruct (skip v) eqn:Hskip; [ destruct k'; discriminate | ].
    destruct (IH v (Hin v Hv Hskip) k' a Ha) as (start' & Hr & Hl & He).
    exists (v :: start'). simpl. rewrite Hskip.
    repeat split; auto.
    rewrite Hs, He. reflexivity.
Qed.

End Positions.

End NestFacts.

(* ================================================================== *)
(** * The loops of the program as nests                                *)
(* ================================================================== *)

Section Bridges.

Context {F : Type} {ops : FloatOps F}.
Variable jjj : Z -> Z -> Z -> Z -> Z -> Z -> F.
Variable fuel : nat.
Variable g : Globals F.

Lemma symm_filter_forms (pI pIb pS M : Z) :
  (pI + pIb + pS - M =? 1) = (pI + pIb + pS - 1 =? M).
Proof.
  destruct (Z.eqb_spec (pI + pIb + pS - 1) M),
           (Z.eqb_spec (pI + pIb + pS - M) 1); auto; lia.
Qed.

(** The row loops are the nest [basis_nest]. *)
Lemma rows_L1_nest {S : Type} (body : BasisIndex -> IsoTerms F -> S -> outcome S)
  (s : S) :
  rows_L1 fuel g body s
  = Nest.run fuel (basis_nest g)
      (fun r => body r (IsoDiff g (bL r) (bK r))) s.
Proof.
  unfold rows_L1, rows_jK1, rows_K1, rows_M1, rows_pS1, rows_qS1,
    rows_pI1, rows_qI1, rows_pI1b, rows_qI1b.
  unfold basis_nest, basis_nest_L, skip_L, never.
  cbn [Nest.run]. unfold Nest.loop.
  apply for_up_ext. intros L1 s1.
  destruct (truth (isodd L1) && (L1 >? Lomax g)); auto.
  apply for_up_ext. intros jK1 s2.
  apply for_loop_ext. intros K1 s3.
  destruct ((K1 =? 0) && negb (parity L1 =? jK1)); auto.
  do 6 (apply for_up_ext; intro; intro).
  rewrite symm_filter_forms.
  match goal with |- (if ?b then _ else _) = _ => destruct b end; auto.
Qed.

(** The column loops of a row are the nest [cols_nest], started from the
    variables of the row. *)
Lemma cols_L2_nest (r : BasisIndex) (iso : IsoTerms F) (st : MState F) :
  cols_L2 jjj fuel g r iso st
  = Nest.run_from fuel (cols_nest g r) (vars r) (@diagRC F)
      (fun c => column_body g r iso
                  (pair_terms jjj g r (bL c) (bjK c) (bK c))
                  (Liou3j jjj r (bL c) (bM c)) c) st.
Proof.
  unfold cols_L2, cols_jK2, cols_K2, cols_M2, cols_pS2, cols_qS2,
    cols_pI2, cols_qI2, cols_pI2b, cols_qI2b.
  unfold cols_nest, basis_nest_L, skip_L, never, vars.
  cbn [Nest.run_from]. unfold Nest.loop.
  replace (if diagRC st then bL r else bL r) with (bL r)
    by (destruct (diagRC st); reflexivity).
  reflexivity.
Qed.

End Bridges.

Module Indexed.

Import Nest NestFacts.

Lemma stops_and {S : Type} (P1 P2 : S -> Prop) (Q : string -> S -> Prop)
  (o : outcome S) :
  stops P1 (fun _ _ => True) o -> stops P2 Q o ->
  stops (fun s => P1 s /\ P2 s) Q o.
Proof. destruct o; simpl; auto. Qed.

(** The invariant rule for a run over a list, with the position in the
    list. *)
Lemma foldM_indexed {A S : Type} (P : nat -> S -> Prop)
  (Q : string -> S -> Prop) (body : A -> S -> outcome S) :
  forall (l : list A) (k0 : nat),
    (forall k a s, nth_error l k = Some a -> P (k0 + k)%nat s ->
                   stops (P (k0 + Datatypes.S k)%nat) Q (body a s)) ->
    forall s, P k0 s -> stops (P (k0 + List.length l)%nat) Q (foldM body l s).
Proof.
  induction l as [| a l IH]; intros k0 H s Hs; simpl.
  - rewrite Nat.add_0_r. exact Hs.
  - assert (Ha : stops (P (k0 + 1)%nat) Q (body a s)).
    { apply (H 0%nat); simpl; auto. rewrite Nat.add_0_r. exact Hs. }
    destruct (body a s) as [s1 | msg s1 |]; simpl in *; auto.
    replace (k0 + Datatypes.S (List.length l))%nat
      with (Datatypes.S k0 + List.length l)%nat by lia.
    apply IH.
    + intros k b s2 Hk Hs2.
      replace (Datatypes.S k0 + Datatypes.S k)%nat
        with (k0 + Datatypes.S (Datatypes.S k))%nat by lia.
      apply H; auto.
      replace (k0 + Datatypes.S k)%nat with (Datatypes.S k0 + k)%nat by lia.
      exact Hs2.
    + replace (Datatypes.S k0) with (k0 + 1)%nat by lia. exact Ha.
Qed.

Lemma foldM_count {A : Type} (l : list A) :
  forall n : Z,
    foldM (fun (_ : A) (k : Z) => Done (k + 1)) l n
    = Done (n + Z.of_nat (List.length l)).
Proof.
  induction l as [| a l IH]; intros n; simpl.
  - f_equal. lia.
  - rewrite IH. f_equal. lia.
Qed.

Lemma zrange_1_app (lo mid hi : Z) :
  lo <= mid + 1 -> mid <= hi ->
  zrange lo hi 1 = zrange lo mid 1 ++ zrange (mid + 1) hi 1.
Proof.
  intros Hlo Hhi.
  assert (H : forall n lo, Z.of_nat n = mid + 1 - lo ->
                zrange lo hi 1 = zrange lo mid 1 ++ zrange (mid + 1) hi 1).
  { induction n as [| n IH]; intros lo' Hn.
    - replace lo' with (mid + 1) by lia.
      rewrite (zrange_nil (mid + 1) mid) by lia. reflexivity.
    - rewrite (zrange_cons lo' hi) by lia.
      rewrite (zrange_cons lo' mid) by lia.
      simpl. f_equal. apply IH. lia. }
  apply (H (Z.to_nat (mid + 1 - lo))). lia.
Qed.

Lemma all_leaves_enum {A : Type} (P : A -> Prop) (n : t A) :
  all_leaves P n -> Forall P (enum n).
Proof.
  induction n as [a | fueled lo hi step skip inner IH]; intros H; simpl in *.
  - repeat constructor; auto.
  - apply Forall_flat_map. apply Forall_forall. intros v _.
    destruct (skip v); auto.
Qed.

Lemma all_leaves_enum_from {A : Type} (P : A -> Prop) (n : t A) :
  all_leaves P n -> forall start, Forall P (enum_from n start).
Proof.
  induction n as [a | fueled lo hi step skip inner IH]; intros H start;
    simpl in *.
  - repeat constructor; auto.
  - destruct start as [| v start'].
    + apply (all_leaves_enum P (Loop fueled lo hi step skip inner)). exact H.
    + apply Forall_app. split.
      * destruct (skip v); auto.
      * apply Forall_flat_map. apply Forall_forall. intros w _.
        destruct (skip w); auto. apply all_leaves_enum; auto.
Qed.

End Indexed.

(* ================================================================== *)
(** * The basis and the columns of a row                               *)
(* ================================================================== *)

Section BasisFacts.

Import Nest NestFacts Indexed.

Context {F : Type} {ops : FloatOps F}.
Variable fuel : nat.
Variable g : Globals F.

(** When [BasisSize] returns, no loop of the nest ran out of fuel and the
    value returned is the length of the basis. *)
Lemma BasisSize_basis (N : Z) :
  BasisSize fuel g = Done N ->
  complete fuel (basis_nest g) /\ N = Z.of_nat (List.length (basis g)).
Proof.
  unfold BasisSize. rewrite <- rows_count_BasisSize, rows_L1_nest. intros H.
  assert (Hc : complete fuel (basis_nest g))
    by (eapply run_Done_complete; exact H).
  split; auto.
  rewrite run_enum in H by exact Hc.
  rewrite foldM_count in H. unfold basis.
  remember (enum (basis_nest g)) as l. injection H as <-. lia.
Qed.

Lemma basis_complete_BasisSize :
  complete fuel (basis_nest g) ->
  BasisSize fuel g = Done (Z.of_nat (List.length (basis g))).
Proof.
  intros Hc. unfold BasisSize.
  rewrite <- rows_count_BasisSize, rows_L1_nest.
  rewrite run_enum by exact Hc. rewrite foldM_count. reflexivity.
Qed.

Lemma basis_reaches_vars (start : list Z) (r : BasisIndex) :
  reaches (basis_nest g) start ->
  leaf_at (basis_nest g) start = Some r ->
  start = vars r.
Proof.
  unfold basis_nest, basis_nest_L. cbn [reaches leaf_at].
  intros Hr Hl.
  do 10 (destruct start as [| ? start]; [ destruct Hr | ];
         destruct Hr as (_ & _ & Hr)).
  subst start. inversion Hl. reflexivity.
Qed.

Lemma cols_reaches (r : BasisIndex) :
  reaches (basis_nest g) (vars r) -> reaches (cols_nest g r) (vars r).
Proof.
  unfold basis_nest, cols_nest, vars. cbn [reaches].
  intros (HL & Hskip & Hr). split; [ | split ]; auto.
  apply zrange_1_In. split; [ lia | ].
  apply zrange_In_le in HL. apply mini_glb; unfold Lband; lia.
Qed.

Lemma cols_complete (r : BasisIndex) :
  complete fuel (basis_nest g) ->
  reaches (basis_nest g) (vars r) ->
  complete fuel (cols_nest g r).
Proof.
  unfold basis_nest, cols_nest, vars. cbn [complete reaches].
  intros (_ & Hin) (HL & _). split.
  - apply zrange_exhausted. lia.
  - intros v Hv Hskip. apply Hin; auto.
    apply zrange_1_In.
    assert (H01 : 0 <= 1) by lia.
    pose proof (zrange_In_ge _ _ _ _ H01 HL).
    pose proof (zrange_In_ge _ _ _ _ H01 Hv).
    pose proof (zrange_In_le _ _ _ _ Hv).
    pose proof (mini_le_l (Lemax g) (bL r + Lband)). lia.
Qed.

(** The columns of a row are the first basis functions from the row
    onward. *)
Lemma columns_prefix (r : BasisIndex) :
  reaches (basis_nest g) (vars r) ->
  exists rest, enum_from (basis_nest g) (vars r) = columns g r ++ rest.
Proof.
  unfold columns, basis_nest, cols_nest, vars. cbn [reaches enum_from].
  intros (HL & _).
  apply zrange_In_le in HL.
  rewrite (zrange_1_app (bL r + 1) (mini (Lemax g) (bL r + Lband)) (Lemax g)).
  - rewrite flat_map_app, app_assoc. eauto.
  - assert (bL r <= mini (Lemax g) (bL r + Lband))
      by (apply mini_glb; unfold Lband; lia).
    lia.
  - apply mini_le_l.
Qed.

(** Every column of a row is within the band of [L]. *)
Lemma columns_band (r c : BasisIndex) :
  In c (columns g r) -> bL r <= bL c <= bL r + Lband.
Proof.
  unfold columns, cols_nest. cbn [enum_from].
  intros Hc. apply in_app_or in Hc. destruct Hc as [Hc | Hc].
  - destruct (skip_L g (bL r)); [ destruct Hc | ].
    assert (HF : Forall (fun c => bL c = bL r)
                   (enum_from (basis_nest_L g (bL r))
                      [bjK r; bK r; bM r; bpS r; bqS r; bpI r; bqI r;
                       bpIb r; bqIb r])).
    { apply all_leaves_enum_from. simpl. intros. reflexivity. }
    rewrite Forall_forall in HF. rewrite (HF c Hc). unfold Lband. lia.
  - apply in_flat_map in Hc. destruct Hc as (v & Hv & Hc).
    destruct (skip_L g v); [ destruct Hc | ].
    assert (HF : Forall (fun c => bL c = v) (enum (basis_nest_L g v))).
    { apply all_leaves_enum. simpl. intros. reflexivity. }
    rewrite Forall_forall in HF. rewrite (HF c Hc).
    assert (H01 : 0 <= 1) by lia.
    pose proof (zrange_In_ge _ _ _ _ H01 Hv).
    pose proof (zrange_In_le _ _ _ _ Hv).
    pose proof (mini_le_r (Lemax g) (bL r + Lband)). lia.
Qed.

(** The k-th basis function: its columns are the basis functions k,
    k+1, ... *)
Lemma basis_columns (k : nat) (r : BasisIndex) :
  complete fuel (basis_nest g) ->
  nth_error (basis g) k = Some r ->
  reaches (basis_nest g) (vars r)
  /\ forall j c, nth_error (columns g r) j = Some c ->
                 nth_error (basis g) (k + j) = Some c.
Proof.
  intros Hc Hk.
  destruct (enum_position fuel (basis_nest g) Hc k r Hk)
    as (start & Hr & Hl & Hs).
  pose proof (basis_reaches_vars start r Hr Hl) as E. subst start.
  split; auto.
  destruct (columns_prefix r Hr) as (rest & Hp).
  intros j c Hj.
  rewrite <- nth_error_skipn. unfold basis. rewrite Hs, Hp.
  rewrite nth_error_app1; auto.
  apply nth_error_Some. congruence.
Qed.

End BasisFacts.

(* ================================================================== *)
(** * The assembly as a run over the basis                             *)
(* ================================================================== *)

Section Master.

Import Nest NestFacts Indexed.

Context {F : Type} {ops : FloatOps F}.
Variable jjj : Z -> Z -> Z -> Z -> Z -> Z -> F.
Variable fuel : nat.
Variable g : Globals F.

Local Abbreviation pass := (Assembly.pass jjj g).

Lemma pass_counters (r c : BasisIndex) (s : MState F) :
  stops (fun s' => iRow s' = iRow s /\ iCol s' = iCol s + 1
                   /\ diagRC s' = false)
        (fun _ _ => True) (pass r c s).
Proof.
  unfold Assembly.pass.
  generalize (column_body_effect g r (IsoDiff g (bL r) (bK r))
                (pair_terms jjj g r (bL c) (bjK c) (bK c))
                (Liou3j jjj r (bL c) (bM c)) c s).
  cbv zeta. intros Heff. eapply stops_weaken; [ exact Heff | | ]; simpl; auto.
  intros s' (-> & _). simpl. auto.
Qed.

Lemma pass_clears_diag (r c : BasisIndex) (s : MState F) :
  stops (fun s' => diagRC s' = false) (fun _ _ => True) (pass r c s).
Proof.
  eapply stops_weaken; [ apply (pass_counters r c s) | | ]; simpl; auto.
  intros s' (_ & _ & H). exact H.
Qed.

(** When no loop runs out of fuel, [makematrix] processes the basis
    functions in order and, for each of them, its columns in order. *)
Theorem makematrix_loops_fold :
  complete fuel (basis_nest g) ->
  makematrix_loops jjj fuel g
  = foldM (fun r st => foldM (pass r) (columns g r) (begin_row st) ;; end_row g)
      (basis g) (makematrix_init g).
Proof.
  intros Hc. unfold makematrix_loops.
  rewrite rows_L1_nest. rewrite run_enum by exact Hc.
  apply foldM_ext_in. intros r st Hr.
  destruct (In_nth_error _ _ Hr) as (k & Hk).
  destruct (basis_columns fuel g k r Hc Hk) as (Hreach & _).
  unfold row_body. rewrite cols_L2_nest.
  rewrite run_from_enum; auto.
  - intros c s. apply pass_clears_diag.
  - apply complete_reaches.
    + apply cols_complete; auto.
    + apply cols_reaches; auto.
  - apply cols_reaches; auto.
Qed.

(** The invariant rule of the assembly with the basis functions in hand:
    in every pass the row counter is the position of the row [r] in the
    basis, the column counter is the position of the column [c], the
    column lies in the band of the row, and [diagRC] tells whether the
    pass is the diagonal one. *)
Theorem makematrix_loops_indexed (Pin : BasisIndex -> MState F -> Prop)
  (Pout : MState F -> Prop) (Q : string -> MState F -> Prop) :
  complete fuel (basis_nest g) ->
  (forall r c s,
      nth_error (basis g) (Z.to_nat (iRow s)) = Some r ->
      nth_error (basis g) (Z.to_nat (iCol s)) = Some c ->
      0 <= iRow s <= iCol s ->
      diagRC s = (iCol s =? iRow s) ->
      bL r <= bL c <= bL r + Lband ->
      Pin r s ->
      stops (Pin r) Q (pass r c s)) ->
  (forall r s,
      nth_error (basis g) (Z.to_nat (iRow s)) = Some r -> 0 <= iRow s ->
      Pout s -> Pin r (begin_row s)) ->
  (forall r s,
      nth_error (basis g) (Z.to_nat (iRow s)) = Some r -> 0 <= iRow s ->
      Pin r s -> stops Pout Q (end_row g s)) ->
  Pout (makematrix_init g) ->
  stops Pout Q (makematrix_loops jjj fuel g).
Proof.
  intros Hc Hpass Hbegin Hend Hinit.
  rewrite makematrix_loops_fold by exact Hc.
  assert (Hrows :
    stops (fun s => iRow s = Z.of_nat (0 + List.length (basis g)) /\ Pout s) Q
      (foldM (fun r st => foldM (pass r) (columns g r) (begin_row st) ;; end_row g)
         (basis g) (makematrix_init g))).
  { apply foldM_indexed
      with (P := fun k s => iRow s = Z.of_nat k /\ Pout s);
      [ | split; auto ].
    intros k r s Hk (Hrow & Hs). simpl in Hrow.
    destruct (basis_columns fuel g k r Hc Hk) as (_ & Hcols).
    assert (Hnth : nth_error (basis g) (Z.to_nat (iRow s)) = Some r)
      by (rewrite Hrow, Nat2Z.id; exact Hk).
    apply andthen_stops
      with (P := fun s' => iRow s' = Z.of_nat k /\ Pin r s').
    - assert (Hfold :
        stops (fun s' => (iRow s' = Z.of_nat k
                          /\ iCol s' = Z.of_nat k
                                       + Z.of_nat (0 + List.length (columns g r))
                          /\ diagRC s'
                             = (Z.of_nat (0 + List.length (columns g r)) =? 0))
                         /\ Pin r s') Q
          (foldM (pass r) (columns g r) (begin_row s))).
      { apply foldM_indexed
          with (P := fun j s' => (iRow s' = Z.of_nat k
                                  /\ iCol s' = Z.of_nat k + Z.of_nat j
                                  /\ diagRC s' = (Z.of_nat j =? 0))
                                 /\ Pin r s').
        - intros j c s' Hj ((Hr' & Hc' & Hd') & Hin').
          simpl in Hr', Hc', Hd'.
          apply stops_and.
          + eapply stops_weaken; [ apply (pass_counters r c s') | | ];
              simpl; auto.
            intros s2 (E1 & E2 & E3). rewrite E1, E2, E3.
            repeat split; auto; lia.
          + apply (Hpass r c s'); auto.
            * rewrite Hr', Nat2Z.id. exact Hk.
            * rewrite Hc'. rewrite <- Nat2Z.inj_add, Nat2Z.id.
              apply Hcols. exact Hj.
            * lia.
            * rewrite Hd', Hr', Hc'.
              destruct (Z.eqb_spec (Z.of_nat j) 0),
                       (Z.eqb_spec (Z.of_nat k + Z.of_nat j) (Z.of_nat k));
                auto; lia.
            * apply (columns_band g). eapply nth_error_In; eauto.
        - simpl. repeat split; auto; try lia.
          apply Hbegin; auto. lia. }
      eapply stops_weaken; [ exact Hfold | | ]; simpl; auto.
      intros s' ((Hr' & _) & Hin'). auto.
    - intros s' (Hr' & Hin').
      assert (He : stops Pout Q (end_row g s')).
      { apply (Hend r); auto; [ | lia ].
        rewrite Hr', Nat2Z.id. exact Hk. }
      unfold end_row in *. simpl in *.
      destruct (iRow s' + 1 >=? maxRows g); simpl in *; auto.
      split; auto. lia. }
  eapply stops_weaken; [ exact Hrows | | ]; simpl; auto.
  intros s (_ & H). exact H.
Qed.

End Master.

(* ================================================================== *)
(** * The row counters                                                 *)
(* ================================================================== *)

Section RowCapacity.

Import Nest NestFacts Indexed.

Context {F : Type} {ops : FloatOps F}.
Variable jjj : Z -> Z -> Z -> Z -> Z -> Z -> F.
Variable fuel : nat.

Lemma BasisSize_not_fatal (g : Globals F) :
  stops (fun _ => True) (fun _ _ => False) (BasisSize fuel g).
Proof.
  unfold BasisSize. rewrite <- rows_count_BasisSize.
  apply rows_L1_stops; simpl; auto.
Qed.

Lemma nth_error_lt {A : Type} (l : list A) (i : Z) (a : A) :
  0 <= i -> nth_error l (Z.to_nat i) = Some a -> i < Z.of_nat (List.length l).
Proof.
  intros Hi H.
  assert (Hlt : (Z.to_nat i < List.length l)%nat)
    by (apply nth_error_Some; congruence).
  lia.
Qed.

(** With [maxRows = N + 1], where [N] is the value of [BasisSize], the
    counters [iRow] and [iCol] stay at most [N] and neither test of the
    row capacity fires. *)
Lemma makematrix_loops_rows (g : Globals F) (N : Z) :
  BasisSize fuel g = Done N ->
  stops (fun st => 0 <= iRow st <= N /\ iCol st <= N)
        (fun msg st => msg <> msg_rows /\ 0 <= iRow st <= N /\ iCol st <= N)
        (makematrix_loops jjj fuel (allocate N g)).
Proof.
  intros HN. destruct (BasisSize_basis fuel g N HN) as (Hc & HNl).
  assert (HN0 : 0 <= N) by lia.
  change (basis g) with (basis (allocate N g)) in HNl.
  apply makematrix_loops_indexed
    with (Pin := fun _ st => 0 <= iRow st <= N /\ iCol st <= N).
  - exact Hc.
  - intros r c s Hr Hci Hrc Hd Hband Hs.
    assert (Hc0 : 0 <= iCol s) by lia.
    pose proof (nth_error_lt _ _ _ Hc0 Hci) as Hlt.
    unfold Assembly.pass.
    generalize (column_body_effect (allocate N g) r
                  (IsoDiff (allocate N g) (bL r) (bK r))
                  (pair_terms jjj (allocate N g) r (bL c) (bjK c) (bK c))
                  (Liou3j jjj r (bL c) (bM c)) c s).
    cbv zeta. intros Heff. eapply stops_weaken; [ exact Heff | | ].
    + intros s' (-> & _). simpl. lia.
    + intros msg s' [(-> & -> & _) | (-> & -> & _ & Hmax)]; simpl in *.
      * split; [ discriminate | lia ].
      * lia.
  - intros r s Hr Hrow Hs. simpl. lia.
  - intros r s Hr Hrow Hs.
    pose proof (nth_error_lt _ _ _ Hrow Hr) as Hlt.
    unfold end_row. simpl.
    destruct (Z.geb_spec (iRow s + 1) (N + 1)); simpl; lia.
  - simpl. lia.
Qed.

Lemma makematrix_fatal_msg (g : Globals F) :
  fatal_msg (makematrix jjj fuel g) = fatal_msg (makematrix_loops jjj fuel g).
Proof.
  unfold makematrix. destruct (makematrix_loops jjj fuel g); reflexivity.
Qed.

End RowCapacity.

(* ================================================================== *)
(** * The K band of the potential term (C6)                            *)
(* ================================================================== *)


Section Bands.

Import Nest NestFacts Indexed.

Context {F : Type} {ops : FloatOps F}.
Variable jjj : Z -> Z -> Z -> Z -> Z -> Z -> F.
Variable fuel : nat.
Variable g : Globals F.

(** Outside the band the potential-dependent term is zero. *)
Lemma PotDiff_band (L1 jK1 K1 M1 L2 jK2 K2 : Z) (nf : F) :
  (Z.abs (L1 - L2) <=? Lband) && (Z.abs (K1 - K2) <=? Kband)
  && (Z.abs (K1 + K2) <=? Kband) = false ->
  PotDiff jjj g L1 jK1 K1 M1 L2 jK2 K2 nf = of_Z 0.
Proof.
  intros H. unfold PotDiff.
  destruct (Potential g); auto.
  destruct (Z.abs (L1 - L2) <=? Lband), (Z.abs (K1 - K2) <=? Kband),
    (Z.abs (K1 + K2) <=? Kband), (parity (K1 + K2) =? 1), (jK1 - jK2 =? 0);
    simpl in *; auto; discriminate.
Qed.

End Bands.

(* ================================================================== *)
(** * Mirrored elements (C3)                                           *)
(* ================================================================== *)

Section Mirroring.

Context {F : Type} {ops : FloatOps F}.

Lemma mirror_mirror (e : Entry F) : mirror (mirror e) = e.
Proof. destruct e; reflexivity. Qed.

Lemma stored_at_diag (r : Z) (l : list (Entry F)) :
  stored_at r r l = count_occ Z.eq_dec (diag_rows l) r.
Proof.
  unfold stored_at, diag_rows.
  induction l as [| e l IH]; simpl; auto.
  unfold is_diag at 1.
  destruct (Z.eqb_spec (ridx e) (cidx e)) as [Hd | Hd]; simpl.
  - rewrite <- Hd, andb_diag.
    destruct (Z.eqb_spec (ridx e) r), (Z.eq_dec (ridx e) r);
      simpl; try rewrite IH; auto; lia.
  - destruct (Z.eqb_spec (ridx e) r), (Z.eqb_spec (cidx e) r);
      simpl; auto; lia.
Qed.

Lemma diag_rows_cons (e : Entry F) (l : list (Entry F)) :
  diag_rows (e :: l)
  = if ridx e =? cidx e then ridx e :: diag_rows l else diag_rows l.
Proof.
  unfold diag_rows. simpl. unfold is_diag at 1.
  destruct (ridx e =? cidx e); reflexivity.
Qed.

Lemma NoDup_diag_once (l : list (Entry F)) :
  NoDup (diag_rows l) -> diag_once l.
Proof.
  intros Hnd e He Hd.
  rewrite <- Hd, stored_at_diag.
  assert (Hin : In (ridx e) (diag_rows l)).
  { unfold diag_rows. apply in_map. apply filter_In. split; auto.
    unfold is_diag. apply Z.eqb_eq. exact Hd. }
  pose proof (proj1 (NoDup_count_occ Z.eq_dec (diag_rows l)) Hnd (ridx e)).
  pose proof (proj1 (count_occ_In Z.eq_dec (diag_rows l) (ridx e)) Hin).
  lia.
Qed.

Lemma diag_rows_rev (l : list (Entry F)) :
  diag_rows (rev l) = rev (diag_rows l).
Proof.
  unfold diag_rows. rewrite filter_rev, map_rev. reflexivity.
Qed.

Lemma mirrored_rev (l : list (Entry F)) : mirrored l -> mirrored (rev l).
Proof.
  intros H e He Hd. apply in_rev in He. apply -> in_rev. auto.
Qed.

Variable jjj : Z -> Z -> Z -> Z -> Z -> Z -> F.
Variable fuel : nat.
Variable g : Globals F.

(** The writes of one pass keep what is needed of the invariant. *)
Lemma pass_stores_sym (r c : BasisIndex) (st : MState F) :
  sym_within st ->
  let l := map snd (Assembly.pass_stores jjj g r c st ++ stores st) in
  mirrored l /\ NoDup (diag_rows l)
  /\ forall x, In x (diag_rows l) -> x <= iRow st.
Proof.
  intros (Hm & Hnd & Hd). cbv zeta.
  unfold Assembly.pass_stores, new_stores.
  destruct (is_stored _ _ _ _ _ _).
  - set (e := element_of g r (IsoDiff g (bL r) (bK r))
                (pair_terms jjj g r (bL c) (bjK c) (bK c))
                (Liou3j jjj r (bL c) (bM c)) c st).
    assert (He : ridx e = iRow st /\ cidx e = iCol st) by (split; reflexivity).
    destruct He as (Her & Hec). clearbody e.
    destruct (diagRC st); destruct Hd as (Hcol & Hd); simpl;
      rewrite ?diag_rows_cons; simpl; rewrite ?Her, ?Hec.
    + (* the diagonal pass *)
      rewrite Hcol, Z.eqb_refl.
      split; [ | split ].
      * intros e' [<- | He'] Hne; [ lia | ]. right. apply Hm; auto.
      * constructor; auto. intros Hin. apply Hd in Hin. lia.
      * intros x [<- | Hx]; [ lia | ]. apply Hd in Hx. lia.
    + (* an off-diagonal pass: the element and its mirror image *)
      destruct (Z.eqb_spec (iCol st) (iRow st)); [ lia | ].
      destruct (Z.eqb_spec (iRow st) (iCol st)); [ lia | ].
      split; [ | split ]; auto.
      intros e' [<- | [<- | He']] Hne.
      * right. left. symmetry. apply mirror_mirror.
      * left. reflexivity.
      * right. right. apply Hm; auto.
  - simpl. split; [ | split ]; auto.
    destruct (diagRC st); destruct Hd as (_ & Hd); intros x Hx;
      apply Hd in Hx; lia.
Qed.

(** In every state in which the assembly stops, each off-diagonal element
    written has its mirror image written, and the diagonal elements
    written have distinct rows. *)
Lemma makematrix_loops_sym :
  written g = [] ->
  holds (fun st => mirrored (map snd (stores st))
                   /\ NoDup (diag_rows (map snd (stores st))))
        (makematrix_loops jjj fuel g).
Proof.
  intros Hw.
  assert (Hgen :
    stops sym_between
          (fun _ st => mirrored (map snd (stores st))
                       /\ NoDup (diag_rows (map snd (stores st))))
          (makematrix_loops jjj fuel g)).
  { apply makematrix_loops_stops with (Pin := fun _ => sym_within).
    - intros r c s _ Hs.
      pose proof (pass_stores_sym r c s Hs) as Hnew. cbv zeta in Hnew.
      destruct Hnew as (Hm & Hnd & Hd).
      assert (Hrc : iRow s <= iCol s).
      { destruct Hs as (_ & _ & H). destruct (diagRC s); lia. }
      generalize (column_body_effect g r (IsoDiff g (bL r) (bK r))
                    (pair_terms jjj g r (bL c) (bjK c) (bK c))
                    (Liou3j jjj r (bL c) (bM c)) c s).
      cbv zeta. intros Heff. eapply stops_weaken; [ exact Heff | | ].
      + intros s' (-> & _). unfold sym_within. simpl.
        split; [ exact Hm | split; [ exact Hnd | ] ].
        split; [ lia | exact Hd ].
      + intros msg s' [(_ & -> & _) | (_ & -> & _)]; simpl; auto.
    - intros r s (Hm & Hnd & Hd). unfold sym_within. simpl. auto.
    - intros r s (Hm & Hnd & Hd). unfold end_row, sym_between.
      match goal with |- stops _ _ (if ?b then _ else _) => destruct b end;
        simpl; auto.
      split; [ exact Hm | split; [ exact Hnd | ] ].
      intros x Hx. destruct (diagRC s); destruct Hd as (_ & Hd);
        apply Hd in Hx; lia.
    - unfold sym_between. simpl. rewrite Hw. simpl.
      split; [ intros e [] | split; [ constructor | intros x [] ] ]. }
  unfold holds. eapply stops_weaken; [ exact Hgen | | ]; simpl; auto.
  intros s (Hm & Hnd & _). auto.
Qed.

End Mirroring.

(** C3: in every state in which the assembly started by [mexFunction]
    stops, in particular after every completed run, each stored element
    whose row index differs from its column index has a companion among
    the stored elements, with row and column exchanged and the same real
    and the same imaginary part (not conjugated); and each stored element
    whose row index equals its column index is the only element stored at
    its position. *)
Theorem C3_mirrored_once {F : Type} {ops : FloatOps F}
  (jjj : Z -> Z -> Z -> Z -> Z -> Z -> F) (fuel : nat) (g : Globals F) (N : Z) :
  holds (fun g' =>
           (forall e, In e (elements g') -> ridx e <> cidx e ->
                      In {| ridx := cidx e; cidx := ridx e;
                            MatrixRe := MatrixRe e; MatrixIm := MatrixIm e |}
                         (elements g'))
           /\ (forall e, In e (elements g') -> ridx e = cidx e ->
                         stored_at (ridx e) (cidx e) (elements g') = 1%nat))
        (makematrix jjj fuel (allocate N g)).
Proof.
  assert (H : holds (fun g' => mirrored (map snd (written g'))
                               /\ NoDup (diag_rows (map snd (written g'))))
                (makematrix jjj fuel (allocate N g))).
  { apply (makematrix_written jjj fuel (allocate N g)
             (fun l => mirrored (map snd l) /\ NoDup (diag_rows (map snd l)))).
    apply makematrix_loops_sym. reflexivity. }
  unfold holds in *. eapply stops_weaken; [ exact H | | ];
    intros; cbv beta in *.
  - destruct H0 as (Hm & Hnd). unfold elements. split.
    + apply (mirrored_rev _ Hm).
    + apply NoDup_diag_once. rewrite diag_rows_rev. apply NoDup_rev. exact Hnd.
  - destruct H0 as (Hm & Hnd). unfold elements. split.
    + apply (mirrored_rev _ Hm).
    + apply NoDup_diag_once. rewrite diag_rows_rev. apply NoDup_rev. exact Hnd.
Qed.

(* ================================================================== *)
(** * The assembly, position by position                               *)
(* ================================================================== *)

Section ByPosition.

Import Nest NestFacts Indexed.

Context {F : Type} {ops : FloatOps F}.
Variable jjj : Z -> Z -> Z -> Z -> Z -> Z -> F.
Variable fuel : nat.
Variable g : Globals F.

(** The invariant rule of the assembly with the positions in hand: the
    pass number [j] of the row number [k] handles the [j]-th column of
    the [k]-th basis function, and a row ends after its last column. *)
Theorem makematrix_loops_positions
  (Pin : nat -> nat -> MState F -> Prop) (Pout : nat -> MState F -> Prop)
  (Q : string -> MState F -> Prop) :
  complete fuel (basis_nest g) ->
  (forall k r j c s,
      nth_error (basis g) k = Some r ->
      nth_error (columns g r) j = Some c ->
      iRow s = Z.of_nat k -> iCol s = Z.of_nat (k + j) ->
      diagRC s = (j =? 0)%nat ->
      Pin k j s ->
      stops (Pin k (Datatypes.S j)) Q (Assembly.pass jjj g r c s)) ->
  (forall k r s,
      nth_error (basis g) k = Some r -> iRow s = Z.of_nat k ->
      Pout k s -> Pin k 0%nat (begin_row s)) ->
  (forall k r s,
      nth_error (basis g) k = Some r -> iRow s = Z.of_nat k ->
      Pin k (List.length (columns g r)) s ->
      stops (Pout (Datatypes.S k)) Q (end_row g s)) ->
  Pout 0%nat (makematrix_init g) ->
  stops (Pout (List.length (basis g))) Q (makematrix_loops jjj fuel g).
Proof.
  intros Hc Hpass Hbegin Hend Hinit.
  rewrite makematrix_loops_fold by exact Hc.
  assert (Hrows :
    stops (fun s => iRow s = Z.of_nat (0 + List.length (basis g))
                    /\ Pout (0 + List.length (basis g))%nat s) Q
      (foldM (fun r st => foldM (Assembly.pass jjj g r) (columns g r)
                            (begin_row st) ;; end_row g)
         (basis g) (makematrix_init g))).
  { apply foldM_indexed
      with (P := fun k s => iRow s = Z.of_nat k /\ Pout k s);
      [ | split; auto ].
    intros k r s Hk (Hrow & Hs). simpl in Hrow, Hs, Hk.
    apply andthen_stops
      with (P := fun s' => iRow s' = Z.of_nat k
                           /\ Pin k (List.length (columns g r)) s').
    - assert (Hfold :
        stops (fun s' => (iRow s' = Z.of_nat k
                          /\ iCol s' = Z.of_nat (k + (0 + List.length (columns g r)))
                          /\ diagRC s'
                             = ((0 + List.length (columns g r)) =? 0)%nat)
                         /\ Pin k (0 + List.length (columns g r))%nat s') Q
          (foldM (Assembly.pass jjj g r) (columns g r) (begin_row s))).
      { apply foldM_indexed
          with (P := fun j s' => (iRow s' = Z.of_nat k
                                  /\ iCol s' = Z.of_nat (k + j)
                                  /\ diagRC s' = (j =? 0)%nat)
                                 /\ Pin k j s').
        - intros j c s' Hj ((Hr' & Hc' & Hd') & Hin').
          simpl in Hr', Hc', Hd', Hin'.
          apply stops_and.
          + eapply stops_weaken; [ apply (pass_counters jjj g r c s') | | ];
              simpl; auto.
            intros s2 (E1 & E2 & E3). rewrite E1, E2, E3, Hr', Hc'.
            repeat split; auto; lia.
          + apply (Hpass k r j c s'); auto.
        - simpl. repeat split; auto.
          + rewrite Hrow. f_equal. lia.
          + apply (Hbegin k r); auto. }
      eapply stops_weaken; [ exact Hfold | | ]; simpl; auto.
      intros s' ((Hr' & _) & Hin'). auto.
    - intros s' (Hr' & Hin').
      pose proof (Hend k r s' Hk Hr' Hin') as He.
      unfold end_row in *. simpl in *.
      destruct (iRow s' + 1 >=? maxRows g); simpl in *; auto.
      split; [ lia | auto ]. }
  eapply stops_weaken; [ exact Hrows | | ]; simpl; auto.
  intros s (_ & H). exact H.
Qed.

(** What follows the columns of a row, among the basis functions from the
    row onward, lies beyond the band of [L]. *)
Lemma columns_split (r : BasisIndex) :
  reaches (basis_nest g) (vars r) ->
  exists rest,
    enum_from (basis_nest g) (vars r) = columns g r ++ rest
    /\ Forall (fun c => bL r + Lband < bL c) rest.
Proof.
  unfold columns, basis_nest, cols_nest, vars. cbn [reaches enum_from].
  intros (HL & _).
  apply zrange_In_le in HL.
  assert (Hm : bL r <= mini (Lemax g) (bL r + Lband))
    by (apply mini_glb; unfold Lband; lia).
  rewrite (zrange_1_app (bL r + 1) (mini (Lemax g) (bL r + Lband)) (Lemax g));
    [ | lia | apply mini_le_l ].
  rewrite flat_map_app, app_assoc.
  eexists. split; [ reflexivity | ].
  apply Forall_flat_map. apply Forall_forall. intros v Hv.
  destruct (skip_L g v); [ constructor | ].
  assert (HF : Forall (fun c => bL c = v) (enum (basis_nest_L g v))).
  { apply all_leaves_enum. simpl. intros. reflexivity. }
  eapply Forall_impl; [ | exact HF ]. intros c ->.
  assert (H01 : 0 <= 1) by lia.
  pose proof (zrange_In_ge _ _ _ _ H01 Hv).
  pose proof (zrange_In_le _ _ _ _ Hv).
  unfold mini in *. destruct (Z.ltb_spec (Lemax g) (bL r + Lband)); lia.
Qed.

(** The columns of the [k]-th basis function are exactly the basis
    functions from number [k] onward that lie within the band. *)
Lemma columns_cover (k j : nat) (r c : BasisIndex) :
  complete fuel (basis_nest g) ->
  nth_error (basis g) k = Some r ->
  nth_error (basis g) (k + j) = Some c ->
  bL c <= bL r + Lband ->
  nth_error (columns g r) j = Some c.
Proof.
  intros Hc Hk Hj Hband.
  destruct (enum_position fuel (basis_nest g) Hc k r Hk)
    as (start & Hr & Hl & Hs).
  pose proof (basis_reaches_vars g start r Hr Hl) as E. subst start.
  destruct (columns_split r Hr) as (rest & Hp & Hrest).
  rewrite <- nth_error_skipn in Hj. unfold basis in Hj.
  rewrite Hs, Hp in Hj.
  destruct (Nat.lt_ge_cases j (List.length (columns g r))) as [Hlt | Hge].
  - rewrite nth_error_app1 in Hj by exact Hlt. exact Hj.
  - rewrite nth_error_app2 in Hj by exact Hge.
    apply nth_error_In in Hj. rewrite Forall_forall in Hrest.
    apply Hrest in Hj. lia.
Qed.

(** The writes of the pass for the pair [(r, c)]. *)
Lemma pass_stores_entry (r c : BasisIndex) (s : MState F) :
  Assembly.pass_stores jjj g r c s
  = if nonzero_pair jjj g r c then
      (if diagRC s then []
       else [(iElement s + 1, mirror (entry_at jjj g (iRow s) (iCol s) r c))])
      ++ [(iElement s, entry_at jjj g (iRow s) (iCol s) r c)]
    else [].
Proof. reflexivity. Qed.

(** The effect of the pass for the pair [(r, c)] on the write log. *)
Lemma pass_stores_effect (r c : BasisIndex) (s : MState F) :
  holds (fun s' => stores s' = Assembly.pass_stores jjj g r c s ++ stores s)
        (Assembly.pass jjj g r c s).
Proof.
  unfold Assembly.pass, Assembly.pass_stores.
  generalize (column_body_effect g r (IsoDiff g (bL r) (bK r))
                (pair_terms jjj g r (bL c) (bjK c) (bK c))
                (Liou3j jjj r (bL c) (bM c)) c s).
  cbv zeta. unfold holds. intros Heff.
  eapply stops_weaken; [ exact Heff | | ].
  - intros s' (-> & _). reflexivity.
  - intros msg s' [(_ & -> & _) | (_ & -> & _)]; reflexivity.
Qed.

(** Every element written is the element computed for a pair of basis
    functions [i <= j], at the position [(i, j)], or its mirror image. *)
Lemma makematrix_loops_sound :
  complete fuel (basis_nest g) ->
  written g = [] ->
  holds (fun s => Forall (fun ke => exists i j, computed_for jjj g (snd ke) i j)
                    (stores s))
        (makematrix_loops jjj fuel g).
Proof.
  intros Hc Hw.
  set (P := fun s : MState F =>
              Forall (fun ke => exists i j, computed_for jjj g (snd ke) i j)
                (stores s)).
  unfold holds.
  apply makematrix_loops_positions
    with (Pin := fun _ _ => P) (Pout := fun _ => P)
         (Q := fun _ => P); auto.
  - intros k r j c s Hk Hj Hrow Hcol Hd Hs.
    destruct (basis_columns fuel g k r Hc Hk) as (_ & Hcols).
    pose proof (Hcols j c Hj) as Hkj.
    assert (Hnew : Forall (fun ke => exists i j, computed_for jjj g (snd ke) i j)
                     (Assembly.pass_stores jjj g r c s ++ stores s)).
    { apply Forall_app. split; [ | exact Hs ].
      rewrite pass_stores_entry, Hrow, Hcol, Hd.
      destruct (nonzero_pair jjj g r c) eqn:Hnz; [ | constructor ].
      assert (H1 : exists i j0,
                 computed_for jjj g
                   (entry_at jjj g (Z.of_nat k) (Z.of_nat (k + j)) r c) i j0).
      { exists k, (k + j)%nat. split; [ lia | ].
        exists r, c. repeat split; auto. }
      destruct (Nat.eqb_spec j 0) as [Hj0 | Hj0]; simpl.
      - repeat constructor. exact H1.
      - repeat constructor; [ | exact H1 ].
        exists k, (k + j)%nat. split; [ lia | ].
        exists r, c. repeat split; auto. right. split; [ lia | reflexivity ]. }
    generalize (pass_stores_effect r c s). unfold holds. intros Heff.
    eapply stops_weaken; [ exact Heff | | ];
      simpl; unfold P; intros; match goal with H : stores _ = _ |- _ => rewrite H end;
      exact Hnew.
  - intros k r s _ _ Hs. unfold end_row.
    match goal with |- stops _ _ (if ?b then _ else _) => destruct b end;
      exact Hs.
  - unfold P. simpl. rewrite Hw. constructor.
Qed.

(** When the assembly runs to its end, the element of every pair of basis
    functions [i <= j] within the band that passes the test is among the
    elements written, at the position [(i, j)]. *)
Lemma makematrix_loops_complete :
  complete fuel (basis_nest g) ->
  ended (fun s =>
           forall (i j : nat) (r c : BasisIndex),
             (i <= j)%nat ->
             nth_error (basis g) i = Some r ->
             nth_error (basis g) j = Some c ->
             bL c <= bL r + Lband ->
             nonzero_pair jjj g r c = true ->
             In (entry_at jjj g (Z.of_nat i) (Z.of_nat j) r c)
                (map snd (stores s)))
        (makematrix_loops jjj fuel g).
Proof.
  intros Hc.
  set (Above := fun (k : nat) (s : MState F) =>
         forall (i j : nat) (r c : BasisIndex),
           (i < k)%nat -> (i <= j)%nat ->
           nth_error (basis g) i = Some r ->
           nth_error (basis g) j = Some c ->
           bL c <= bL r + Lband ->
           nonzero_pair jjj g r c = true ->
           In (entry_at jjj g (Z.of_nat i) (Z.of_nat j) r c)
              (map snd (stores s))).
  set (Row := fun (k j : nat) (s : MState F) =>
         forall (j' : nat) (r c : BasisIndex),
           (j' < j)%nat ->
           nth_error (basis g) k = Some r ->
           nth_error (columns g r) j' = Some c ->
           nonzero_pair jjj g r c = true ->
           In (entry_at jjj g (Z.of_nat k) (Z.of_nat (k + j')) r c)
              (map snd (stores s))).
  assert (Hgen : stops (Above (List.length (basis g))) (fun _ _ => True)
                   (makematrix_loops jjj fuel g)).
  { apply makematrix_loops_positions
      with (Pin := fun k j s => Above k s /\ Row k j s); auto.
    - intros k r j c s Hk Hj Hrow Hcol Hd (Hab & Hro).
      generalize (pass_stores_effect r c s). unfold holds. intros Heff.
      eapply stops_weaken; [ exact Heff | | ]; simpl; auto.
      intros s' Hs'. split.
      + intros i j0 r0 c0 H1 H2 H3 H4 H5 H6.
        rewrite Hs', map_app. apply in_or_app. right.
        apply (Hab i j0 r0 c0); auto.
      + intros j' r0 c0 Hlt Hk0 Hj' Hnz.
        rewrite Hs', map_app. apply in_or_app.
        destruct (Nat.eq_dec j' j) as [-> | Hne].
        * left. assert (r0 = r) by congruence. subst r0.
          assert (c0 = c) by congruence. subst c0.
          rewrite pass_stores_entry, Hnz, Hrow, Hcol, map_app.
          apply in_or_app. right. left. reflexivity.
        * right. apply (Hro j' r0 c0); auto. lia.
    - intros k r s Hk Hrow Hab. split; [ exact Hab | ].
      intros j' r0 c0 Hlt. lia.
    - intros k r s Hk Hrow (Hab & Hro). unfold end_row.
      match goal with |- stops _ _ (if ?b then _ else _) => destruct b end;
        simpl; auto.
      intros i j r0 c0 Hi Hij Hr0 Hc0 Hband Hnz. simpl.
      destruct (Nat.eq_dec i k) as [-> | Hne].
      + assert (r0 = r) by congruence. subst r0.
        replace j with (k + (j - k))%nat in Hc0 |- * by lia.
        pose proof (columns_cover k (j - k) r c0 Hc Hk Hc0 Hband) as Hcol.
        apply (Hro (j - k)%nat r c0); auto.
        apply nth_error_Some. congruence.
      + apply (Hab i j r0 c0); auto. lia.
    - intros i j r c Hi. lia. }
  unfold ended. eapply stops_weaken; [ exact Hgen | | ]; simpl; auto.
  intros s Hab i j r c Hij Hi Hj Hband Hnz.
  apply (Hab i j r c); auto.
  apply nth_error_Some. congruence.
Qed.

End ByPosition.

Lemma makematrix_stops {F : Type} {ops : FloatOps F}
  (jjj : Z -> Z -> Z -> Z -> Z -> Z -> F) (fuel : nat) (g : Globals F)
  (P : MState F -> Prop) (Q : string -> MState F -> Prop) :
  stops P Q (makematrix_loops jjj fuel g) ->
  stops (fun g' => exists s, g' = with_counts g s /\ P s)
        (fun msg g' => exists s, g' = with_written g s /\ Q msg s)
        (makematrix jjj fuel g).
Proof.
  unfold makematrix. destruct (makematrix_loops jjj fuel g); simpl; eauto.
Qed.

(** X1: Every element of the output arrays is the element computed for two
    basis functions number [i <= j], stored at [(i, j)], or its mirror
    image stored at [(j, i)] when [i < j]: the real part is the diffusion
    element of the pair, the imaginary part the negated Liouville element,
    computed with the function of the smaller number as the row. *)
Theorem stored_elements_computed {F : Type} {ops : FloatOps F}
  (jjj : Z -> Z -> Z -> Z -> Z -> Z -> F) (fuel : nat) (g : Globals F) (N : Z) :
  BasisSize fuel g = Done N ->
  holds (fun g' =>
           Forall (fun e => exists i j, computed_for jjj g e i j) (elements g'))
        (makematrix jjj fuel (allocate N g)).
Proof.
  intros HN. destruct (BasisSize_basis fuel g N HN) as (Hc & _).
  assert (H : holds (fun g' =>
                       Forall (fun ke => exists i j,
                                   computed_for jjj g (snd ke) i j)
                         (written g'))
                (makematrix jjj fuel (allocate N g))).
  { apply (makematrix_written jjj fuel (allocate N g)
             (Forall (fun ke => exists i j, computed_for jjj g (snd ke) i j))).
    apply (makematrix_loops_sound jjj fuel (allocate N g) Hc eq_refl). }
  unfold holds in *. eapply stops_weaken; [ exact H | | ];
    intros; cbv beta in *; unfold elements;
    apply Forall_rev; apply Forall_map;
    match goal with H : Forall _ (written _) |- _ => exact H end.
Qed.

Lemma stored_elements_computed_witness :
  BasisSize 10 Inputs3.g_potential = Done 4
  /\ holds (fun g' =>
              Forall (fun e => exists i j,
                          computed_for Inputs.jjj_any Inputs3.g_potential e i j)
                     (elements g'))
           (makematrix Inputs.jjj_any 10 (allocate 4 Inputs3.g_potential)).
Proof.
  assert (H : BasisSize 10 Inputs3.g_potential = Done 4) by reflexivity.
  split; [ exact H | ].
  exact (stored_elements_computed Inputs.jjj_any 10 Inputs3.g_potential 4 H).
Defined.

(** X2: When the assembly runs to its end, nothing is missing: for every two
    basis functions number [i <= j] whose [L] differ by at most [Lband]
    and whose diffusion element or Liouville element is not zero, the
    element is in the output arrays at the position [(i, j)]. *)
Theorem stored_elements_complete {F : Type} {ops : FloatOps F}
  (jjj : Z -> Z -> Z -> Z -> Z -> Z -> F) (fuel : nat) (g : Globals F) (N : Z) :
  BasisSize fuel g = Done N ->
  ended (fun g' =>
           forall (i j : nat) (r c : BasisIndex),
             (i <= j)%nat ->
             nth_error (basis g) i = Some r ->
             nth_error (basis g) j = Some c ->
             bL c <= bL r + Lband ->
             nonzero_pair jjj g r c = true ->
             In (entry_at jjj g (Z.of_nat i) (Z.of_nat j) r c) (elements g'))
        (makematrix jjj fuel (allocate N g)).
Proof.
  intros HN. destruct (BasisSize_basis fuel g N HN) as (Hc & _).
  pose proof (makematrix_stops jjj fuel (allocate N g) _ _
                (makematrix_loops_complete jjj fuel (allocate N g) Hc)) as H.
  unfold ended in *. eapply stops_weaken; [ exact H | | ]; simpl; auto.
  intros g' (s & -> & Hs) i j r c Hij Hi Hj Hband Hnz.
  unfold elements. simpl. apply -> in_rev.
  apply (Hs i j r c); auto.
Qed.

Lemma stored_elements_complete_witness :
  BasisSize 10 Inputs3.g_potential = Done 4
  /\ ended (fun g' =>
              forall (i j : nat) (r c : BasisIndex),
                (i <= j)%nat ->
                nth_error (basis Inputs3.g_potential) i = Some r ->
                nth_error (basis Inputs3.g_potential) j = Some c ->
                bL c <= bL r + Lband ->
                nonzero_pair Inputs.jjj_any Inputs3.g_potential r c = true ->
                In (entry_at Inputs.jjj_any Inputs3.g_potential
                      (Z.of_nat i) (Z.of_nat j) r c) (elements g'))
           (makematrix Inputs.jjj_any 10 (allocate 4 Inputs3.g_potential)).
Proof.
  assert (H : BasisSize 10 Inputs3.g_potential = Done 4) by reflexivity.
  split; [ exact H | ].
  exact (stored_elements_complete Inputs.jjj_any 10 Inputs3.g_potential 4 H).
Defined.



(* ================================================================== *)
(** * The layout of the output arrays                                  *)
(* ================================================================== *)

Section Layout.

Context {F : Type} {ops : FloatOps F}.
Variable jjj : Z -> Z -> Z -> Z -> Z -> Z -> F.
Variable fuel : nat.
Variable g : Globals F.

Lemma in_positions (p : Z * Z) (l : list (Z * Entry F)) :
  In p (map (fun ke => (ridx (snd ke), cidx (snd ke))) l) ->
  exists ke, In ke l /\ ridx (snd ke) = fst p /\ cidx (snd ke) = snd p.
Proof.
  intros H. apply in_map_iff in H. destruct H as (ke & <- & Hke).
  exists ke. auto.
Qed.

(** No position is written twice: a position written lies in an earlier
    row, or in the current row and an earlier column. *)
Lemma makematrix_loops_positions_once :
  written g = [] ->
  holds (fun st =>
           NoDup (map (fun ke => (ridx (snd ke), cidx (snd ke))) (stores st)))
        (makematrix_loops jjj fuel g).
Proof.
  intros Hw.
  set (pos := fun ke : Z * Entry F => (ridx (snd ke), cidx (snd ke))).
  set (before := fun (st : MState F) (ke : Z * Entry F) =>
         Z.min (ridx (snd ke)) (cidx (snd ke)) < iRow st
         \/ (Z.min (ridx (snd ke)) (cidx (snd ke)) = iRow st
             /\ Z.max (ridx (snd ke)) (cidx (snd ke)) < iCol st)).
  set (Pin := fun st : MState F =>
         NoDup (map pos (stores st))
         /\ (if diagRC st then iCol st = iRow st else iRow st < iCol st)
         /\ Forall (before st) (stores st)).
  set (Pout := fun st : MState F =>
         NoDup (map pos (stores st))
         /\ Forall (fun ke => Z.min (ridx (snd ke)) (cidx (snd ke)) < iRow st)
              (stores st)).
  assert (Hstep : forall r c s, Pin s ->
            NoDup (map pos (Assembly.pass_stores jjj g r c s ++ stores s))
            /\ Forall (fun ke =>
                         Z.min (ridx (snd ke)) (cidx (snd ke)) < iRow s
                         \/ (Z.min (ridx (snd ke)) (cidx (snd ke)) = iRow s
                             /\ Z.max (ridx (snd ke)) (cidx (snd ke)) < iCol s + 1))
                 (Assembly.pass_stores jjj g r c s ++ stores s)).
  { intros r c s (Hnd & Hd & Hb).
    assert (Hold : Forall (fun ke =>
                     Z.min (ridx (snd ke)) (cidx (snd ke)) < iRow s
                     \/ (Z.min (ridx (snd ke)) (cidx (snd ke)) = iRow s
                         /\ Z.max (ridx (snd ke)) (cidx (snd ke)) < iCol s + 1))
                     (stores s)).
    { eapply Forall_impl; [ | exact Hb ]. unfold before. intros ke H. lia. }
    assert (Hfresh : forall p : Z * Z,
               Z.min (fst p) (snd p) = iRow s ->
               Z.max (fst p) (snd p) = iCol s ->
               ~ In p (map pos (stores s))).
    { intros p H1 H2 Hin. apply in_positions in Hin.
      destruct Hin as (ke & Hke & E1 & E2).
      rewrite Forall_forall in Hb. specialize (Hb ke Hke).
      unfold before in Hb. rewrite E1, E2 in Hb. lia. }
    rewrite pass_stores_entry.
    destruct (nonzero_pair jjj g r c); [ | simpl; auto ].
    destruct (diagRC s); simpl.
    - split.
      + constructor; auto. apply Hfresh; simpl; lia.
      + constructor; auto. simpl. lia.
    - split.
      + constructor.
        * intros [E | Hin]; [ inversion E; lia | ].
          revert Hin. apply Hfresh; simpl; lia.
        * constructor; auto. apply Hfresh; simpl; lia.
      + constructor; [ simpl; lia | ]. constructor; auto. simpl. lia. }
  assert (Hgen : stops Pout (fun _ st => NoDup (map pos (stores st)))
                   (makematrix_loops jjj fuel g)).
  { apply makematrix_loops_stops with (Pin := fun _ => Pin).
    - intros r c s _ Hs.
      destruct (Hstep r c s Hs) as (Hnd & Hb).
      generalize (column_body_effect g r (IsoDiff g (bL r) (bK r))
                    (pair_terms jjj g r (bL c) (bjK c) (bK c))
                    (Liou3j jjj r (bL c) (bM c)) c s).
      cbv zeta. intros Heff. eapply stops_weaken; [ exact Heff | | ].
      + intros s' (-> & _). unfold Pin. simpl.
        split; [ exact Hnd | split; [ | exact Hb ] ].
        destruct Hs as (_ & Hd & _). destruct (diagRC s); lia.
      + intros msg s' [(_ & -> & _) | (_ & -> & _)]; exact Hnd.
    - intros r s (Hnd & Hb). unfold Pin. simpl.
      split; [ exact Hnd | split; [ reflexivity | ] ].
      eapply Forall_impl; [ | exact Hb ]. unfold before. simpl. auto.
    - intros r s (Hnd & Hd & Hb). unfold end_row, Pout.
      match goal with |- stops _ _ (if ?b then _ else _) => destruct b end;
        simpl; auto.
      split; [ exact Hnd | ].
      eapply Forall_impl; [ | exact Hb ]. unfold before.
      intros ke H. destruct (diagRC s); lia.
    - unfold Pout. simpl. rewrite Hw. simpl. split; constructor. }
  unfold holds. eapply stops_weaken; [ exact Hgen | | ]; simpl; auto.
  intros s (H & _). exact H.
Qed.

(** The writes go to consecutive indices from 0 on, and the element
    counter is the number of elements written. *)
Lemma makematrix_loops_indices :
  written g = [] ->
  holds (fun st =>
           iElement st = Z.of_nat (List.length (stores st))
           /\ rev (map fst (stores st))
              = map Z.of_nat (seq 0 (List.length (stores st))))
        (makematrix_loops jjj fuel g).
Proof.
  intros Hw.
  set (P := fun st : MState F =>
         iElement st = Z.of_nat (List.length (stores st))
         /\ rev (map fst (stores st))
            = map Z.of_nat (seq 0 (List.length (stores st)))).
  assert (Hstep : forall r c s, P s ->
            iElement s + Z.of_nat (List.length (Assembly.pass_stores jjj g r c s))
            = Z.of_nat (List.length (Assembly.pass_stores jjj g r c s ++ stores s))
            /\ rev (map fst (Assembly.pass_stores jjj g r c s ++ stores s))
               = map Z.of_nat
                   (seq 0 (List.length
                             (Assembly.pass_stores jjj g r c s ++ stores s)))).
  { intros r c s (Hi & Hl). rewrite pass_stores_entry.
    destruct (nonzero_pair jjj g r c);
      [ | cbn [app List.length]; split; [ lia | exact Hl ] ].
    destruct (diagRC s); cbn [app map fst rev List.length].
    - split; [ lia | ].
      rewrite Hl, Hi, seq_S, map_app. reflexivity.
    - split; [ lia | ].
      rewrite Hl, Hi, !seq_S, !map_app. cbn [map].
      cbn [Nat.add].
      replace (Z.of_nat (Datatypes.S (List.length (stores s))))
        with (Z.of_nat (List.length (stores s)) + 1) by lia.
      rewrite <- !app_assoc. reflexivity. }
  unfold holds.
  apply makematrix_loops_stops with (Pin := fun _ => P).
  - intros r c s _ Hs. destruct (Hstep r c s Hs) as (H1 & H2).
    generalize (column_body_effect g r (IsoDiff g (bL r) (bK r))
                  (pair_terms jjj g r (bL c) (bjK c) (bK c))
                  (Liou3j jjj r (bL c) (bM c)) c s).
    cbv zeta. intros Heff. eapply stops_weaken; [ exact Heff | | ].
    + intros s' (-> & _). split; [ exact H1 | exact H2 ].
    + intros msg s' [(_ & -> & _) | (_ & -> & _)];
        (split; [ exact H1 | exact H2 ]).
  - intros r s Hs. exact Hs.
  - intros r s Hs. unfold end_row.
    match goal with |- stops _ _ (if ?b then _ else _) => destruct b end;
      exact Hs.
  - unfold P. simpl. rewrite Hw. simpl. auto.
Qed.

End Layout.

(** X4: No position of the matrix is stored twice: the pairs (row index,
    column index) of the elements of the output arrays are pairwise
    distinct, also when the call is aborted. *)
Theorem positions_stored_once {F : Type} {ops : FloatOps F}
  (jjj : Z -> Z -> Z -> Z -> Z -> Z -> F) (fuel : nat) (g : Globals F) (N : Z) :
  holds (fun g' => NoDup (map (fun e => (ridx e, cidx e)) (elements g')))
        (makematrix jjj fuel (allocate N g)).
Proof.
  assert (H : holds (fun g' =>
                       NoDup (map (fun ke => (ridx (snd ke), cidx (snd ke)))
                                (written g')))
                (makematrix jjj fuel (allocate N g))).
  { apply (makematrix_written jjj fuel (allocate N g)
             (fun l => NoDup (map (fun ke => (ridx (snd ke), cidx (snd ke))) l))).
    apply makematrix_loops_positions_once. reflexivity. }
  unfold holds in *. eapply stops_weaken; [ exact H | | ];
    intros; cbv beta in *; unfold elements;
    rewrite map_rev, map_map; apply NoDup_rev; assumption.
Qed.

(** X5: The elements are written at consecutive indices of the output arrays,
    the first at index 0, and when [makematrix] runs to its end the value
    it leaves in [nElements] is the number of elements written. *)
Theorem writes_consecutive {F : Type} {ops : FloatOps F}
  (jjj : Z -> Z -> Z -> Z -> Z -> Z -> F) (fuel : nat) (g : Globals F) (N : Z) :
  stops (fun g' =>
           nElements g' = Z.of_nat (List.length (elements g'))
           /\ map fst (rev (written g'))
              = map Z.of_nat (seq 0 (List.length (elements g'))))
        (fun _ g' =>
           map fst (rev (written g'))
           = map Z.of_nat (seq 0 (List.length (elements g'))))
        (makematrix jjj fuel (allocate N g)).
Proof.
  pose proof (makematrix_stops jjj fuel (allocate N g) _ _
                (makematrix_loops_indices jjj fuel (allocate N g) eq_refl)) as H.
  eapply stops_weaken; [ exact H | | ]; cbv beta.
  - intros g' (s & -> & Hi & Hl). unfold elements. simpl.
    rewrite length_rev, length_map, map_rev. auto.
  - intros msg g' (s & -> & Hi & Hl). unfold elements. simpl.
    rewrite length_rev, length_map, map_rev. auto.
Qed.

(* ================================================================== *)
(** * The element capacity                                             *)
(* ================================================================== *)

Section ElementCapacity.

Import Nest NestFacts Indexed.

Context {F : Type} {ops : FloatOps F}.
Variable jjj : Z -> Z -> Z -> Z -> Z -> Z -> F.
Variable fuel : nat.

Lemma new_stores_length (g : Globals F) (r : BasisIndex) (iso : IsoTerms F)
  (pt : PairTerms F) (l3j : F) (c : BasisIndex) (s : MState F) :
  (List.length (new_stores g r iso pt l3j c s) <= 2)%nat.
Proof.
  unfold new_stores. destruct (is_stored _ _ _ _ _ _); simpl; [ | lia ].
  destruct (diagRC s); simpl; lia.
Qed.

(** With room for at least one element: the assembly started by
    [mexFunction] ends normally only with the element counter below
    [maxElements]; the only abort is the one of the element capacity, and
    then [maxElements] or [maxElements + 1] elements have been written. *)
Lemma makematrix_loops_capacity (g : Globals F) (N : Z) :
  BasisSize fuel g = Done N ->
  1 <= maxElements g ->
  stops (fun st => 0 <= iElement st < maxElements g)
        (fun msg st =>
           msg = msg_elements
           /\ maxElements g <= Z.of_nat (List.length (stores st))
              <= maxElements g + 1)
        (makematrix_loops jjj fuel (allocate N g)).
Proof.
  intros HN Hcap. destruct (BasisSize_basis fuel g N HN) as (Hc & HNl).
  change (basis g) with (basis (allocate N g)) in HNl.
  set (P := fun st : MState F =>
         0 <= iElement st < maxElements g
         /\ iElement st = Z.of_nat (List.length (stores st))).
  assert (Hgen :
    stops P
      (fun msg st =>
         msg = msg_elements
         /\ maxElements g <= Z.of_nat (List.length (stores st))
            <= maxElements g + 1)
      (makematrix_loops jjj fuel (allocate N g))).
  { apply makematrix_loops_indexed with (Pin := fun _ => P).
    - exact Hc.
    - intros r c s Hr Hci Hrc Hd Hband (Hi & Hl).
      assert (Hc0 : 0 <= iCol s) by lia.
      pose proof (nth_error_lt _ _ _ Hc0 Hci) as Hlt.
      unfold Assembly.pass.
      generalize (column_body_effect (allocate N g) r
                    (IsoDiff (allocate N g) (bL r) (bK r))
                    (pair_terms jjj (allocate N g) r (bL c) (bjK c) (bK c))
                    (Liou3j jjj r (bL c) (bM c)) c s).
      generalize (new_stores_length (allocate N g) r
                    (IsoDiff (allocate N g) (bL r) (bK r))
                    (pair_terms jjj (allocate N g) r (bL c) (bjK c) (bK c))
                    (Liou3j jjj r (bL c) (bM c)) c s).
      cbv zeta.
      generalize (new_stores (allocate N g) r
                    (IsoDiff (allocate N g) (bL r) (bK r))
                    (pair_terms jjj (allocate N g) r (bL c) (bjK c) (bK c))
                    (Liou3j jjj r (bL c) (bM c)) c s).
      intros new Hlen Heff. eapply stops_weaken; [ exact Heff | | ].
      + intros s' (-> & Hne & _). unfold P. simpl in *.
        rewrite length_app. destruct new as [| x new].
        * simpl. lia.
        * assert (Hx : x :: new <> []) by discriminate.
          specialize (Hne Hx). simpl in *. lia.
      + intros msg s' [(-> & -> & _ & Hmax) | (-> & -> & _ & Hmax)];
          simpl in *.
        * split; [ reflexivity | ]. rewrite length_app. lia.
        * lia.
    - intros r s _ _ Hs. exact Hs.
    - intros r s Hr Hrow Hs.
      pose proof (nth_error_lt _ _ _ Hrow Hr) as Hlt.
      unfold end_row. simpl.
      destruct (Z.geb_spec (iRow s + 1) (N + 1)); simpl; [ lia | exact Hs ].
    - unfold P. simpl. lia. }
  eapply stops_weaken; [ exact Hgen | | ]; simpl; auto.
  intros s (H & _). exact H.
Qed.

End ElementCapacity.

(** X6: When [deltaK >= 1], the options are far inside the range of [int],
    [BasisSize] returns [N] and there is room for at least one element
    ([N] and [maxElements] below 2^31 - 1, so that no counter leaves the
    range of [int]), the assembly started as [mexFunction] starts it, with
    [maxRows = N + 1] and empty arrays, either ends with fewer than
    [maxElements] elements stored, or is aborted with the message of the
    element capacity, and then [maxElements] or [maxElements + 1] elements
    have been written: arrays that the elements fill exactly are
    refused. *)
Theorem makematrix_element_capacity {F : Type} {ops : FloatOps F}
  (jjj : Z -> Z -> Z -> Z -> Z -> Z -> F) (fuel : nat) (g : Globals F) (N : Z) :
  1 <= deltaK g ->
  int_sized g ->
  BasisSize fuel g = Done N ->
  N < 2147483647 ->
  1 <= maxElements g < 2147483647 ->
  stops (fun g' => 0 <= nElements g' < maxElements g')
        (fun msg g' =>
           msg = msg_elements
           /\ maxElements g' <= Z.of_nat (List.length (written g'))
              <= maxElements g' + 1)
        (makematrix jjj fuel (allocate N g)).
Proof.
  intros Hd Hsized HN Hint (Hcap & Hcap').
  pose proof (makematrix_stops jjj fuel (allocate N g) _ _
                (makematrix_loops_capacity jjj fuel g N HN Hcap)) as H.
  eapply stops_weaken; [ exact H | | ]; cbv beta.
  - intros g' (s & -> & Hs). simpl. exact Hs.
  - intros msg g' (s & -> & Hs). simpl. exact Hs.
Qed.

Lemma makematrix_element_capacity_witness :
  1 <= deltaK Inputs2.g_rhombic
  /\ int_sized Inputs2.g_rhombic
  /\ BasisSize 3 Inputs2.g_rhombic = Done 3
  /\ 3 < 2147483647
  /\ 1 <= maxElements Inputs2.g_rhombic < 2147483647
  /\ stops (fun g' => 0 <= nElements g' < maxElements g')
           (fun msg g' =>
              msg = msg_elements
              /\ maxElements g' <= Z.of_nat (List.length (written g'))
                 <= maxElements g' + 1)
           (makematrix Inputs.jjj_any 3 (allocate 3 Inputs2.g_rhombic)).
Proof.
  assert (H1 : 1 <= deltaK Inputs2.g_rhombic) by (vm_compute; discriminate).
  assert (Hs : int_sized Inputs2.g_rhombic)
    by (vm_compute; repeat split; reflexivity).
  assert (H2 : BasisSize 3 Inputs2.g_rhombic = Done 3) by reflexivity.
  assert (H3 : 3 < 2147483647) by reflexivity.
  assert (H4 : 1 <= maxElements Inputs2.g_rhombic < 2147483647)
    by (vm_compute; split; [ discriminate | reflexivity ]).
  split; [ exact H1 | split; [ exact Hs | split; [ exact H2 | ] ] ].
  split; [ exact H3 | split; [ exact H4 | ] ].
  exact (makematrix_element_capacity Inputs.jjj_any 3 Inputs2.g_rhombic 3
           H1 Hs H2 H3 H4).
Defined.

(* ================================================================== *)
(** * The K loops and [deltaK]                                         *)
(* ================================================================== *)

Section KLoops.

Import Nest NestFacts.

Context {F : Type} {ops : FloatOps F}.

Lemma foldM_finished {A S : Type} (body : A -> S -> outcome S) (l : list A) :
  (forall a s, body a s <> OutOfFuel) ->
  forall s, foldM body l s <> OutOfFuel.
Proof.
  intros Hb. induction l as [| a l IH]; intros s; simpl; [ discriminate | ].
  specialize (Hb a s). destruct (body a s); simpl; auto; discriminate.
Qed.

Lemma pass_finished (jjj : Z -> Z -> Z -> Z -> Z -> Z -> F) (g : Globals F)
  (r c : BasisIndex) (s : MState F) :
  Assembly.pass jjj g r c s <> OutOfFuel.
Proof.
  unfold Assembly.pass, column_body, store_element, next_column.
  repeat match goal with
         | |- context [if ?b then _ else _] => destruct b; simpl
         end; discriminate.
Qed.

(** A loop whose step is not positive and whose body always ends normally
    is still running when the fuel ends, whatever the fuel. *)
Lemma for_loop_diverges {S : Type} (body : Z -> S -> outcome S) (hi step : Z) :
  step <= 0 ->
  (forall i s, exists s', body i s = Done s') ->
  forall fuel i s, i <= hi -> for_loop fuel i hi step body s = OutOfFuel.
Proof.
  intros Hstep Hbody. induction fuel as [| fuel IH]; intros i s Hi; simpl.
  - destruct (Z.leb_spec i hi); [ reflexivity | lia ].
  - destruct (Z.leb_spec i hi); [ | lia ].
    destruct (Hbody i s) as (s' & ->). simpl. apply IH. lia.
Qed.

(** The first pass of a loop with a constant positive step. *)
Lemma for_up_first {S : Type} (body : Z -> S -> outcome S) (lo hi step : Z)
  (s : S) :
  lo <= hi -> body lo s = OutOfFuel -> for_up lo hi step body s = OutOfFuel.
Proof.
  intros Hle Hb. unfold for_up.
  destruct (Z.to_nat (hi - lo + 1)) as [| n] eqn:Hn; [ lia | ].
  simpl. destruct (Z.leb_spec lo hi); [ | lia ].
  rewrite Hb. reflexivity.
Qed.

Lemma BasisSize_M1_total (g : Globals F) (L1 : Z) (s : Z) :
  exists s', BasisSize_M1 g L1 s = Done s'.
Proof.
  unfold BasisSize_M1, BasisSize_pS1, BasisSize_qS1, BasisSize_pI1,
    BasisSize_qI1, BasisSize_pI1b, BasisSize_qI1b.
  cbv zeta.
  repeat (apply for_up_total; [ lia | ]; intros);
    try match goal with
        | |- exists _, (if ?b then _ else _) = _ => destruct b
        end; eauto.
  repeat (apply for_up_total; [ lia | ]; intros). eauto.
Qed.

(** When no loop of the basis runs out of fuel, the assembly does not
    either. *)
Lemma makematrix_loops_finished (jjj : Z -> Z -> Z -> Z -> Z -> Z -> F)
  (fuel : nat) (g : Globals F) :
  complete fuel (basis_nest g) ->
  makematrix_loops jjj fuel g <> OutOfFuel.
Proof.
  intros Hc. rewrite (makematrix_loops_fold jjj fuel g Hc).
  apply foldM_finished. intros r s.
  pose proof (foldM_finished (Assembly.pass jjj g r) (columns g r)
                (pass_finished jjj g r) (begin_row s)) as Hcols.
  destruct (foldM _ _ (begin_row s)) as [s1 | msg s1 |]; simpl;
    [ | discriminate | congruence ].
  unfold end_row.
  match goal with |- (if ?b then _ else _) <> _ => destruct b end;
    discriminate.
Qed.

(** The same loops on an [int] variable. *)
Lemma Int32_for_loop_not_fatal {S : Type} (body : Z -> S -> outcome S)
  (hi step : Z) :
  (forall i s, is_fatal (body i s) = false) ->
  forall fuel i s, is_fatal (Int32.for_loop fuel i hi step body s) = false.
Proof.
  intros Hbody. induction fuel as [| fuel IH]; intros i s; simpl.
  - destruct (i <=? hi); reflexivity.
  - destruct (i <=? hi); [ | reflexivity ].
    specialize (Hbody i s). destruct (body i s); simpl; auto; discriminate.
Qed.

(** A loop whose variable stays at [i <= hi] and whose body never aborts
    is still running when the fuel ends. *)
Lemma Int32_for_loop_stuck {S : Type} (body : Z -> S -> outcome S) (hi : Z) :
  (forall i s, is_fatal (body i s) = false) ->
  0 <= hi ->
  forall fuel s, Int32.for_loop fuel 0 hi 0 body s = OutOfFuel.
Proof.
  intros Hbody Hhi. induction fuel as [| fuel IH]; intros s; simpl.
  - destruct (Z.leb_spec 0 hi); [ reflexivity | lia ].
  - destruct (Z.leb_spec 0 hi); [ | lia ].
    specialize (Hbody 0 s). destruct (body 0 s); simpl;
      [ apply IH | discriminate | reflexivity ].
Qed.

Lemma Int32_for_up_first {S : Type} (body : Z -> S -> outcome S)
  (lo hi step : Z) (s : S) :
  lo <= hi -> body lo s = OutOfFuel ->
  Int32.for_up lo hi step body s = OutOfFuel.
Proof.
  intros Hle Hb. unfold Int32.for_up.
  destruct (Z.to_nat (hi - lo + 1)) as [| n] eqn:Hn; [ lia | ].
  simpl. destruct (Z.leb_spec lo hi); [ | lia ].
  rewrite Hb. reflexivity.
Qed.

Lemma Int32_BasisSize_M1_not_fatal (g : Globals F) (L1 : Z) (s : Z) :
  is_fatal (Int32.BasisSize_M1 g L1 s) = false.
Proof.
  unfold Int32.BasisSize_M1, Int32.BasisSize_pS1, Int32.BasisSize_qS1,
    Int32.BasisSize_pI1, Int32.BasisSize_qI1, Int32.BasisSize_pI1b,
    Int32.BasisSize_qI1b, Int32.for_up.
  cbv zeta.
  repeat (apply Int32_for_loop_not_fatal; intros);
    try match goal with
        | |- is_fatal (if ?b then _ else _) = _ => destruct b
        end;
    try reflexivity.
  repeat (apply Int32_for_loop_not_fatal; intros). reflexivity.
Qed.

End KLoops.



(** X8: With [deltaK = 0] (and [Lemax >= 0], [jKmin <= 1], [Kmax >= 0], so
    that the K loop is entered at [L1 = 0]) the K loop, whose variable
    starts at 0 and advances by [deltaK], never ends: its variable stays
    at 0.  [BasisSize] does not return, whatever the fuel, with unbounded
    integers and in two's complement alike, and neither does a call of
    [mexFunction] with four inputs and five outputs. *)
Theorem zero_deltaK_diverges {F : Type} {ops : FloatOps F}
  (jjj : Z -> Z -> Z -> Z -> Z -> Z -> F)
  (prhs : mxInputs F) (g0 : Globals F) :
  deltaK (parse_inputs prhs g0) = 0 ->
  0 <= Lemax (parse_inputs prhs g0) ->
  jKmin (parse_inputs prhs g0) <= 1 ->
  0 <= Kmax (parse_inputs prhs g0) ->
  forall fuel : nat,
    BasisSize fuel (parse_inputs prhs g0) = OutOfFuel
    /\ Int32.BasisSize fuel (parse_inputs prhs g0) = OutOfFuel
    /\ mexFunction jjj fuel 5 4 prhs g0 = OutOfFuel
    /\ Int32.mexFunction jjj fuel 5 4 prhs g0 = OutOfFuel.
Proof.
  set (g := parse_inputs prhs g0).
  intros Hd HL HjK HK fuel.
  assert (HB : BasisSize fuel g = OutOfFuel).
  { unfold BasisSize, BasisSize_L1.
    apply for_up_first; [ exact HL | ].
    change (truth (isodd 0) && (0 >? Lomax g)) with false. cbv iota.
    unfold BasisSize_jK1.
    apply for_up_first; [ exact HjK | ].
    unfold BasisSize_K1. cbv zeta.
    apply for_loop_diverges.
    - lia.
    - intros K1 s.
      match goal with |- exists _, (if ?b then _ else _) = _ => destruct b end;
        eauto.
      apply BasisSize_M1_total.
    - unfold mini. destruct (Z.ltb_spec (Kmax g) 0); lia. }
  assert (HB' : Int32.BasisSize fuel g = OutOfFuel).
  { unfold Int32.BasisSize, Int32.BasisSize_L1.
    apply Int32_for_up_first; [ exact HL | ].
    change (truth (isodd 0) && (0 >? Lomax g)) with false. cbv iota.
    unfold Int32.BasisSize_jK1.
    apply Int32_for_up_first; [ exact HjK | ].
    unfold Int32.BasisSize_K1. cbv zeta. rewrite Hd.
    apply Int32_for_loop_stuck.
    - intros K1 s.
      match goal with |- is_fatal (if ?b then _ else _) = _ => destruct b end;
        [ reflexivity | apply Int32_BasisSize_M1_not_fatal ].
    - unfold mini. destruct (Z.ltb_spec (Kmax g) 0); lia. }
  split; [ exact HB | split; [ exact HB' | ] ].
  unfold mexFunction, Int32.mexFunction. simpl. fold g. rewrite HB, HB'.
  split; reflexivity.
Qed.

Lemma zero_deltaK_diverges_witness :
  deltaK (parse_inputs Inputs5.prhs_deltaK0 Inputs.globals0) = 0
  /\ forall fuel : nat,
       BasisSize fuel (parse_inputs Inputs5.prhs_deltaK0 Inputs.globals0)
       = OutOfFuel
       /\ mexFunction Inputs.jjj_any fuel 5 4 Inputs5.prhs_deltaK0 Inputs.globals0
          = OutOfFuel.
Proof.
  assert (H1 : deltaK (parse_inputs Inputs5.prhs_deltaK0 Inputs.globals0) = 0)
    by (vm_compute; reflexivity).
  assert (H2 : 0 <= Lemax (parse_inputs Inputs5.prhs_deltaK0 Inputs.globals0))
    by (vm_compute; discriminate).
  assert (H3 : jKmin (parse_inputs Inputs5.prhs_deltaK0 Inputs.globals0) <= 1)
    by (vm_compute; discriminate).
  assert (H4 : 0 <= Kmax (parse_inputs Inputs5.prhs_deltaK0 Inputs.globals0))
    by (vm_compute; discriminate).
  split; [ exact H1 | ].
  intros fuel.
  destruct (zero_deltaK_diverges Inputs.jjj_any Inputs5.prhs_deltaK0
              Inputs.globals0 H1 H2 H3 H4 fuel) as (Ha & _ & Hb & _).
  split; [ exact Ha | exact Hb ].
Defined.

(* ================================================================== *)
(** * The helpers [isodd] and [parity]                                 *)
(* ================================================================== *)

(** As a condition, [isodd(k)] tells whether [k] is odd, also for a
    negative [k], where the remainder of C is -1. *)
Lemma truth_isodd (k : Z) : truth (isodd k) = Z.odd k.
Proof. unfold truth, isodd. symmetry. apply Zodd_rem. Qed.

Lemma parity_odd (k : Z) : parity k = if Z.odd k then -1 else 1.
Proof. unfold parity. rewrite truth_isodd. reflexivity. Qed.

(** X9: [isodd(k)] is 0, 1 or -1, and -1 exactly for the negative odd [k];
    [parity(k)] is nevertheless the sign (-1)^k for every [int] [k]: 1 for
    an even [k] and -1 for an odd one, the same for [k] and [-k], and
    multiplicative over sums. *)
Theorem parity_is_sign (a b : Z) :
  (isodd a = -1 <-> (a < 0 /\ Z.odd a = true))
  /\ parity a = (if Z.even a then 1 else -1)
  /\ parity (- a) = parity a
  /\ parity (a + b) = parity a * parity b.
Proof.
  split; [ | split; [ | split ] ].
  - unfold isodd. rewrite Zrem_odd.
    destruct (Z.odd a); [ | split; [ discriminate | intros (_ & H); discriminate ] ].
    split.
    + intros H. split; [ lia | reflexivity ].
    + intros (H & _). lia.
  - rewrite parity_odd, <- Z.negb_even. destruct (Z.even a); reflexivity.
  - rewrite !parity_odd, Z.odd_opp. reflexivity.
  - rewrite !parity_odd, Z.odd_add.
    destruct (Z.odd a), (Z.odd b); reflexivity.
Qed.

(* ================================================================== *)
(** * The basis functions                                              *)
(* ================================================================== *)

Section RangeFacts.

Import Nest NestFacts.

Lemma iter_In_mod (hi step : Z) :
  forall f i v, In v (iter f i hi step) -> (v - i) mod step = 0.
Proof.
  induction f as [| f IH]; intros i v Hv.
  - rewrite iter_O in Hv. destruct Hv.
  - rewrite iter_succ in Hv. destruct (Z.leb_spec i hi); [ | destruct Hv ].
    destruct Hv as [<- | Hv].
    + rewrite Z.sub_diag. apply Zmod_0_l.
    + apply IH in Hv.
      replace (v - i) with (v - (i + step) + 1 * step) by ring.
      rewrite Z_mod_plus_full. exact Hv.
Qed.

(** The values of a loop with a positive step. *)
Lemma zrange_In_iff (lo hi step v : Z) :
  1 <= step ->
  In v (zrange lo hi step) <-> (lo <= v <= hi /\ (v - lo) mod step = 0).
Proof.
  intros Hstep. split.
  - intros Hv. split; [ split | ].
    + apply (zrange_In_ge lo hi step); [ lia | exact Hv ].
    + apply (zrange_In_le lo hi step). exact Hv.
    + unfold zrange in Hv. apply (iter_In_mod hi step _ lo v Hv).
  - intros ((Hlo & Hhi) & Hm).
    assert (Hn : exists n : nat, v = lo + Z.of_nat n * step).
    { exists (Z.to_nat ((v - lo) / step)).
      pose proof (Z.div_mod (v - lo) step ltac:(lia)) as Hdm.
      rewrite Hm in Hdm.
      assert (0 <= (v - lo) / step) by (apply Z.div_pos; lia).
      rewrite Z2Nat.id by lia. lia. }
    destruct Hn as (n & Hn). clear Hm Hlo. revert lo Hn.
    induction n as [| n IH]; intros lo Hn.
    + rewrite zrange_cons by lia. left. lia.
    + rewrite zrange_cons by nia. right. apply IH. lia.
Qed.

Lemma enum_In_reaches {A : Type} (n : t A) (a : A) :
  In a (enum n) <-> exists start, reaches n start /\ leaf_at n start = Some a.
Proof.
  induction n as [a0 | fueled lo hi step skip inner IH]; simpl.
  - split.
    + intros [<- | []]. exists []. auto.
    + intros (start & -> & E). inversion E. auto.
  - rewrite in_flat_map. split.
    + intros (v & Hv & Ha).
      destruct (skip v) eqn:Hs; [ destruct Ha | ].
      apply IH in Ha. destruct Ha as (start & Hr & Hl).
      exists (v :: start). auto.
    + intros (start & Hr & Hl).
      destruct start as [| v start]; [ destruct Hr | ].
      destruct Hr as (Hv & Hs & Hr).
      exists v. split; auto. rewrite Hs. apply IH. eauto.
Qed.

End RangeFacts.

Section BasisSet.

Import Nest NestFacts.

Context {F : Type} {ops : FloatOps F}.
Variable g : Globals F.

Lemma leaf_at_vars (r : BasisIndex) : leaf_at (basis_nest g) (vars r) = Some r.
Proof. destruct r; reflexivity. Qed.

Lemma basis_In_reaches (r : BasisIndex) :
  In r (basis g) <-> reaches (basis_nest g) (vars r).
Proof.
  unfold basis. rewrite enum_In_reaches. split.
  - intros (start & Hr & Hl).
    rewrite <- (basis_reaches_vars g start r Hr Hl). exact Hr.
  - intros Hr. exists (vars r). split; [ exact Hr | apply leaf_at_vars ].
Qed.

Lemma skip_L_false (L : Z) :
  skip_L g L = false <-> (Z.odd L = true -> L <= Lomax g).
Proof.
  unfold skip_L. rewrite truth_isodd.
  destruct (Z.odd L), (Z.gtb_spec L (Lomax g)); simpl;
    split; intros Himp; try discriminate; try reflexivity; try lia;
    try (specialize (Himp eq_refl); lia).
Qed.

Lemma skip_K_false (L jK K : Z) :
  (K =? 0) && negb (parity L =? jK) = false
  <-> (K = 0 -> jK = if Z.odd L then -1 else 1).
Proof.
  rewrite parity_odd.
  destruct (Z.eqb_spec K 0), (Z.eqb_spec (if Z.odd L then -1 else 1) jK);
    simpl; split; intros Himp; try discriminate; try reflexivity; try lia;
    try (intros; congruence);
    try (exfalso; match goal with Hn : _ <> _ |- _ => apply Hn end;
         symmetry; apply Himp; assumption).
Qed.

Lemma skip_symm_false (b : bool) (x M : Z) :
  b && negb (x =? M) = false <-> (b = true -> x = M).
Proof.
  destruct b, (Z.eqb_spec x M); simpl; split; intros Himp;
    try discriminate; try reflexivity; auto;
    try (specialize (Himp eq_refl); contradiction).
Qed.

(** The row loops reach a tuple exactly when it meets the conditions of
    the loop headers. *)
Lemma reaches_truncation (r : BasisIndex) :
  1 <= deltaK g ->
  reaches (basis_nest g) (vars r) <-> in_truncation g r.
Proof.
  intros Hd.
  unfold basis_nest, basis_nest_L, vars, in_truncation. cbn [reaches].
  rewrite !zrange_In_iff by lia.
  rewrite skip_L_false, skip_K_false, skip_symm_false.
  rewrite !Z.sub_0_r, !Z.sub_opp_r, !Z.mod_1_r.
  unfold never, mini.
  destruct (Z.ltb_spec (Kmax g) (bL r)), (Z.ltb_spec (Mmax g) (bL r));
    intuition lia.
Qed.

End BasisSet.

Section BasisDistinct.

Import Nest NestFacts.

Context {F : Type} {ops : FloatOps F}.
Variable fuel : nat.
Variable g : Globals F.

(** A basis function has one position in the basis. *)
Lemma basis_position_unique (k k' : nat) (r : BasisIndex) :
  complete fuel (basis_nest g) ->
  nth_error (basis g) k = Some r ->
  nth_error (basis g) k' = Some r ->
  k = k'.
Proof.
  intros Hc Hk Hk'.
  destruct (enum_position fuel (basis_nest g) Hc k r Hk)
    as (start & Hr & Hl & Hs).
  destruct (enum_position fuel (basis_nest g) Hc k' r Hk')
    as (start' & Hr' & Hl' & Hs').
  rewrite (basis_reaches_vars g start r Hr Hl) in Hs.
  rewrite (basis_reaches_vars g start' r Hr' Hl') in Hs'.
  assert (Hlen : List.length (skipn k (enum (basis_nest g)))
                 = List.length (skipn k' (enum (basis_nest g))))
    by (rewrite Hs, Hs'; reflexivity).
  rewrite !length_skipn in Hlen.
  assert ((k < List.length (basis g))%nat)
    by (apply nth_error_Some; congruence).
  assert ((k' < List.length (basis g))%nat)
    by (apply nth_error_Some; congruence).
  unfold basis in *. lia.
Qed.

Lemma basis_NoDup : complete fuel (basis_nest g) -> NoDup (basis g).
Proof.
  intros Hc. apply NoDup_nth_error. intros i j Hi Hij.
  destruct (nth_error (basis g) i) as [r |] eqn:Hr.
  - apply (basis_position_unique i j r Hc); auto.
  - apply nth_error_None in Hr. lia.
Qed.

End BasisDistinct.



(* ================================================================== *)
(** * Selection rules                                                  *)
(* ================================================================== *)

Section Selection.

Context {F : Type} {ops : FloatOps F}.
Variable g : Globals F.
Hypothesis zero_eq : feqb (of_Z 0) (of_Z 0) = true.

Lemma nonzero_zero : nonzero (of_Z 0) = false.
Proof. unfold nonzero, fneb. rewrite zero_eq. reflexivity. Qed.

Lemma GammaElement_selection (r c : BasisIndex) (iso : IsoTerms F) (nk pd : F) :
  nonzero (GammaElement g r c iso nk pd) = true ->
  bjK r = bjK c /\ bM r = bM c /\ bpS r = bpS c /\ bpI r = bpI c
  /\ bpIb r = bpIb c.
Proof.
  intros Hnz. unfold GammaElement in Hnz.
  repeat match type of Hnz with
         | context [if ?b then _ else _] => destruct b eqn:?
         end;
    try (rewrite nonzero_zero in Hnz; discriminate);
    repeat match goal with
           | H : _ && _ = true |- _ => apply andb_prop in H; destruct H
           | H : (_ =? _) = true |- _ => apply Z.eqb_eq in H
           end;
    repeat split; lia.
Qed.

Lemma LiouvilleElement_selection (r c : BasisIndex) (nf : F) (rk : Rank2 F)
  (l3j : F) :
  nonzero (LiouvilleElement g r c nf rk l3j) = true ->
  Z.abs (bL r - bL c) <= 2 /\ Z.abs (bM r - bM c) <= 2
  /\ Z.abs (bpS r - bpS c) <= 1 /\ Z.abs (bpI r - bpI c) <= 1
  /\ Z.abs (bpIb r - bpIb c) <= 1
  /\ Z.abs (bqS r - bqS c) = Z.abs (bpS r - bpS c)
  /\ Z.abs (bqI r - bqI c) = Z.abs (bpI r - bpI c)
  /\ Z.abs (bqIb r - bqIb c) = Z.abs (bpIb r - bpIb c)
  /\ (feqb (DirTilt (Sys g)) (of_Z 0) = true ->
      (bpS r - bpS c) + (bpI r - bpI c) + (bpIb r - bpIb c) = bM r - bM c).
Proof.
  intros Hnz. unfold LiouvilleElement in Hnz.
  match type of Hnz with
  | nonzero (if ?b then _ else _) = true => destruct b eqn:Hb
  end; [ clear Hnz | rewrite nonzero_zero in Hnz; discriminate ].
  repeat match goal with
         | H : _ && _ = true |- _ => apply andb_prop in H; destruct H
         | H : (_ <=? _) = true |- _ => apply Z.leb_le in H
         | H : (_ =? _) = true |- _ => apply Z.eqb_eq in H
         end.
  repeat split; try lia.
  intros Ht.
  match goal with
  | H : _ || _ = true |- _ =>
      unfold fneb in H; rewrite Ht in H; simpl in H; apply Z.eqb_eq in H
  end.
  lia.
Qed.

End Selection.

Lemma makematrix_elements_sound {F : Type} {ops : FloatOps F}
  (jjj : Z -> Z -> Z -> Z -> Z -> Z -> F) (fuel : nat) (g : Globals F) (N : Z)
  (P : Entry F -> Prop) :
  BasisSize fuel g = Done N ->
  (forall e i j, computed_for jjj g e i j -> P e) ->
  holds (fun g' => Forall P (elements g')) (makematrix jjj fuel (allocate N g)).
Proof.
  intros HN HP. destruct (BasisSize_basis fuel g N HN) as (Hc & _).
  assert (H : holds (fun g' =>
                       Forall (fun ke => exists i j,
                                   computed_for jjj g (snd ke) i j)
                         (written g'))
                (makematrix jjj fuel (allocate N g))).
  { apply (makematrix_written jjj fuel (allocate N g)
             (Forall (fun ke => exists i j, computed_for jjj g (snd ke) i j))).
    apply (makematrix_loops_sound jjj fuel (allocate N g) Hc eq_refl). }
  unfold holds in *. eapply stops_weaken; [ exact H | | ];
    intros; cbv beta in *; unfold elements;
    apply Forall_rev; apply Forall_map;
    (eapply Forall_impl;
     [ | match goal with H : Forall _ (written _) |- _ => exact H end ]);
    intros a (i & j & Ha); apply (HP _ i j Ha).
Qed.

(** X11: The sparsity pattern.  Where [0.0 == 0.0] holds, every element of the
    output arrays connects two basis functions whose [M] differ by at most
    2 and whose [pS], [pI] and [pIb] differ by at most 1; and an element
    whose real part (the diffusion element) is not zero connects two basis
    functions with the same [jK], [M], [pS], [pI] and [pIb]. *)
Theorem stored_elements_selection {F : Type} {ops : FloatOps F}
  (jjj : Z -> Z -> Z -> Z -> Z -> Z -> F) (fuel : nat) (g : Globals F) (N : Z) :
  feqb (of_Z 0) (of_Z 0) = true ->
  BasisSize fuel g = Done N ->
  holds (fun g' =>
           Forall (fun e => exists r c,
                       connects g e r c
                       /\ Z.abs (bM r - bM c) <= 2
                       /\ Z.abs (bpS r - bpS c) <= 1
                       /\ Z.abs (bpI r - bpI c) <= 1
                       /\ Z.abs (bpIb r - bpIb c) <= 1
                       /\ (nonzero (MatrixRe e) = true ->
                           bjK r = bjK c /\ bM r = bM c /\ bpS r = bpS c
                           /\ bpI r = bpI c /\ bpIb r = bpIb c))
                  (elements g'))
        (makematrix jjj fuel (allocate N g)).
Proof.
  intros H0 HN. apply makematrix_elements_sound; [ exact HN | ].
  intros e i j (Hij & r & c & Hi & Hj & Hnz & He).
  assert (Hre : nonzero (Gamma_of jjj g r c) = true ->
                bjK r = bjK c /\ bM r = bM c /\ bpS r = bpS c
                /\ bpI r = bpI c /\ bpIb r = bpIb c)
    by (apply (GammaElement_selection g H0)).
  assert (Hband : Z.abs (bM r - bM c) <= 2 /\ Z.abs (bpS r - bpS c) <= 1
                  /\ Z.abs (bpI r - bpI c) <= 1
                  /\ Z.abs (bpIb r - bpIb c) <= 1).
  { unfold nonzero_pair in Hnz. apply orb_prop in Hnz.
    destruct Hnz as [Hg | Hl].
    - apply Hre in Hg. lia.
    - apply (LiouvilleElement_selection g H0) in Hl. lia. }
  destruct He as [-> | (Hlt & ->)].
  - exists r, c. unfold connects, entry_at. cbn [ridx cidx MatrixRe].
    rewrite !Nat2Z.id.
    split; [ split; assumption | ].
    repeat (split; [ lia | ]). exact Hre.
  - exists c, r. unfold connects, mirror, entry_at. cbn [ridx cidx MatrixRe].
    rewrite !Nat2Z.id.
    split; [ split; assumption | ].
    repeat (split; [ lia | ]). intros Hg. apply Hre in Hg. lia.
Qed.

Lemma stored_elements_selection_witness :
  feqb (of_Z (F := float) 0) (of_Z 0) = true
  /\ BasisSize 10 Inputs3.g_potential = Done 4
  /\ holds (fun g' =>
              Forall (fun e => exists r c,
                          connects Inputs3.g_potential e r c
                          /\ Z.abs (bM r - bM c) <= 2
                          /\ Z.abs (bpS r - bpS c) <= 1
                          /\ Z.abs (bpI r - bpI c) <= 1
                          /\ Z.abs (bpIb r - bpIb c) <= 1
                          /\ (nonzero (MatrixRe e) = true ->
                              bjK r = bjK c /\ bM r = bM c /\ bpS r = bpS c
                              /\ bpI r = bpI c /\ bpIb r = bpIb c))
                     (elements g'))
           (makematrix Inputs.jjj_any 10 (allocate 4 Inputs3.g_potential)).
Proof.
  assert (H0 : feqb (of_Z (F := float) 0) (of_Z 0) = true) by reflexivity.
  assert (H : BasisSize 10 Inputs3.g_potential = Done 4) by reflexivity.
  split; [ exact H0 | split; [ exact H | ] ].
  exact (stored_elements_selection Inputs.jjj_any 10 Inputs3.g_potential 4 H0 H).
Defined.

(* ================================================================== *)
(** * What a call takes from the globals                               *)
(* ================================================================== *)

Section FreshCall.

Context {F : Type} {ops : FloatOps F}.
Variable jjj : Z -> Z -> Z -> Z -> Z -> Z -> F.
Variable fuel : nat.

(** The loops of [makematrix] read neither [nRows] nor [nElements]. *)
Lemma makematrix_loops_counts (g : Globals F) (n1 n2 : Z) :
  makematrix_loops jjj fuel g
  = makematrix_loops jjj fuel
      {| maxElements := maxElements g; maxRows := maxRows g;
         written := written g; nRows := n1; nElements := n2;
         Lemax := Lemax g; Lomax := Lomax g; Kmax := Kmax g; Mmax := Mmax g;
         jKmin := jKmin g; pSmin := pSmin g; pImax := pImax g;
         pIbmax := pIbmax g; deltaK := deltaK g;
         MeirovitchSymm := MeirovitchSymm g; Sys := Sys g; Diff := Diff g |}.
Proof. destruct g. reflexivity. Qed.

End FreshCall.

(** X12: A call of [mexFunction] with four inputs and five outputs takes
    nothing from what earlier calls left in the globals: started from any
    two states of the globals it ends the same way, with the same globals
    after a normal end, and with the same message and the same writes
    after an abort. *)
Theorem call_forgets_globals {F : Type} {ops : FloatOps F}
  (jjj : Z -> Z -> Z -> Z -> Z -> Z -> F) (fuel : nat)
  (prhs : mxInputs F) (g1 g2 : Globals F) :
  same_outcome (mexFunction jjj fuel 5 4 prhs g1)
               (mexFunction jjj fuel 5 4 prhs g2).
Proof.
  unfold mexFunction. simpl.
  assert (HB : BasisSize fuel (parse_inputs prhs g1)
               = BasisSize fuel (parse_inputs prhs g2))
    by (apply BasisSize_same_truncation; repeat split).
  rewrite HB.
  generalize (BasisSize_not_fatal fuel (parse_inputs prhs g2)).
  destruct (BasisSize fuel (parse_inputs prhs g2)) as [N | msg N |];
    simpl; [ | intros [] | auto ].
  intros _. unfold makematrix.
  rewrite (makematrix_loops_counts jjj fuel (allocate N (parse_inputs prhs g1)) 0 0).
  rewrite (makematrix_loops_counts jjj fuel (allocate N (parse_inputs prhs g2)) 0 0).
  cbn [allocate parse_inputs maxElements maxRows written Lemax Lomax Kmax Mmax
       jKmin pSmin pImax pIbmax deltaK MeirovitchSymm Sys Diff].
  match goal with
  | |- same_outcome (match ?o with _ => _ end) _ => destruct o
  end; simpl; auto.
Qed.

(* ================================================================== *)
(** * The order of the elements                                        *)
(* ================================================================== *)

Section ElementOrder.

Context {F : Type} {ops : FloatOps F}.

Lemma StronglySorted_snoc {A : Type} (R : A -> A -> Prop) (l : list A) (x : A) :
  StronglySorted R l -> Forall (fun a => R a x) l ->
  StronglySorted R (l ++ [x]).
Proof.
  induction l as [| a l IH]; intros Hs Hx; simpl.
  - repeat constructor.
  - apply StronglySorted_inv in Hs. destruct Hs as (Hs & Ha).
    inversion Hx; subst. constructor; auto.
    apply Forall_app. split; auto.
Qed.

Lemma StronglySorted_rev {A : Type} (R : A -> A -> Prop) (l : list A) :
  StronglySorted (fun a b => R b a) l -> StronglySorted R (rev l).
Proof.
  induction l as [| a l IH]; intros Hs; simpl.
  - constructor.
  - apply StronglySorted_inv in Hs. destruct Hs as (Hs & Ha).
    apply StronglySorted_snoc; auto. apply Forall_rev. exact Ha.
Qed.

Lemma upper_app (l1 l2 : list (Entry F)) :
  upper (l1 ++ l2) = upper l1 ++ upper l2.
Proof. unfold upper. rewrite filter_app, map_app. reflexivity. Qed.

Lemma upper_rev (l : list (Entry F)) : upper (rev l) = rev (upper l).
Proof. unfold upper. rewrite filter_rev, map_rev. reflexivity. Qed.

Variable jjj : Z -> Z -> Z -> Z -> Z -> Z -> F.
Variable fuel : nat.
Variable g : Globals F.

(** The elements on or above the diagonal written by one pass. *)
Lemma upper_pass_stores (r c : BasisIndex) (s : MState F) :
  iRow s <= iCol s ->
  (diagRC s = false -> iRow s < iCol s) ->
  upper (map snd (Assembly.pass_stores jjj g r c s))
  = if nonzero_pair jjj g r c then [(iRow s, iCol s)] else [].
Proof.
  intros Hle Hlt. rewrite pass_stores_entry.
  destruct (nonzero_pair jjj g r c); [ | reflexivity ].
  unfold upper. destruct (diagRC s); simpl.
  - destruct (Z.leb_spec (iRow s) (iCol s)); [ reflexivity | lia ].
  - specialize (Hlt eq_refl).
    destruct (Z.leb_spec (iCol s) (iRow s)); [ lia | ].
    destruct (Z.leb_spec (iRow s) (iCol s)); [ reflexivity | lia ].
Qed.

(** The elements on or above the diagonal are written row by row and,
    within a row, column by column. *)
Lemma makematrix_loops_sorted :
  written g = [] ->
  holds (fun st =>
           StronglySorted (fun p q => lex_lt q p) (upper (map snd (stores st))))
        (makematrix_loops jjj fuel g).
Proof.
  intros Hw.
  set (U := fun st : MState F => upper (map snd (stores st))).
  set (Pin := fun st : MState F =>
         StronglySorted (fun p q => lex_lt q p) (U st)
         /\ (if diagRC st then iCol st = iRow st else iRow st < iCol st)
         /\ Forall (fun p => lex_lt p (iRow st, iCol st)) (U st)).
  set (Pout := fun st : MState F =>
         StronglySorted (fun p q => lex_lt q p) (U st)
         /\ Forall (fun p => fst p < iRow st) (U st)).
  assert (Hstep : forall r c s, Pin s ->
            StronglySorted (fun p q => lex_lt q p)
              (upper (map snd (Assembly.pass_stores jjj g r c s ++ stores s)))
            /\ Forall (fun p => lex_lt p (iRow s, iCol s + 1))
                 (upper (map snd (Assembly.pass_stores jjj g r c s ++ stores s)))).
  { intros r c s (Hs & Hd & Hb).
    assert (Hle : iRow s <= iCol s) by (destruct (diagRC s); lia).
    assert (Hlt : diagRC s = false -> iRow s < iCol s)
      by (intros E; rewrite E in Hd; exact Hd).
    assert (Hold : Forall (fun p => lex_lt p (iRow s, iCol s + 1)) (U s)).
    { eapply Forall_impl; [ | exact Hb ].
      unfold lex_lt. simpl. intros p H. lia. }
    rewrite map_app, upper_app, (upper_pass_stores r c s Hle Hlt).
    destruct (nonzero_pair jjj g r c); simpl; [ | auto ].
    split.
    - constructor; [ exact Hs | exact Hb ].
    - constructor; [ | exact Hold ]. unfold lex_lt. simpl. lia. }
  assert (Hgen : stops Pout
                   (fun _ st => StronglySorted (fun p q => lex_lt q p) (U st))
                   (makematrix_loops jjj fuel g)).
  { apply makematrix_loops_stops with (Pin := fun _ => Pin).
    - intros r c s _ Hs.
      destruct (Hstep r c s Hs) as (H1 & H2).
      generalize (column_body_effect g r (IsoDiff g (bL r) (bK r))
                    (pair_terms jjj g r (bL c) (bjK c) (bK c))
                    (Liou3j jjj r (bL c) (bM c)) c s).
      cbv zeta. intros Heff. eapply stops_weaken; [ exact Heff | | ].
      + intros s' (-> & _). unfold Pin, U. simpl.
        split; [ exact H1 | split; [ | exact H2 ] ].
        destruct Hs as (_ & Hd & _). destruct (diagRC s); lia.
      + intros msg s' [(_ & -> & _) | (_ & -> & _)]; exact H1.
    - intros r s (Hs & Hb). unfold Pin, U. simpl.
      split; [ exact Hs | split; [ reflexivity | ] ].
      eapply Forall_impl; [ | exact Hb ]. unfold lex_lt. simpl. auto.
    - intros r s (Hs & Hd & Hb). unfold end_row, Pout, U.
      match goal with |- stops _ _ (if ?b then _ else _) => destruct b end;
        simpl; auto.
      split; [ exact Hs | ].
      eapply Forall_impl; [ | exact Hb ]. unfold lex_lt. simpl.
      intros p H. lia.
    - unfold Pout, U. simpl. rewrite Hw. simpl. split; constructor. }
  unfold holds. eapply stops_weaken; [ exact Hgen | | ]; simpl; auto.
  intros s (H & _). exact H.
Qed.

End ElementOrder.

(** X13: The elements on or above the diagonal appear in the output arrays in
    row-major order: sorted by row index and, within a row, by column
    index, strictly. *)
Theorem upper_triangle_sorted {F : Type} {ops : FloatOps F}
  (jjj : Z -> Z -> Z -> Z -> Z -> Z -> F) (fuel : nat) (g : Globals F) (N : Z) :
  holds (fun g' => StronglySorted lex_lt (upper (elements g')))
        (makematrix jjj fuel (allocate N g)).
Proof.
  assert (H : holds (fun g' =>
                       StronglySorted (fun p q => lex_lt q p)
                         (upper (map snd (written g'))))
                (makematrix jjj fuel (allocate N g))).
  { apply (makematrix_written jjj fuel (allocate N g)
             (fun l => StronglySorted (fun p q => lex_lt q p)
                         (upper (map snd l)))).
    apply makematrix_loops_sorted. reflexivity. }
  unfold holds in *. eapply stops_weaken; [ exact H | | ];
    intros; cbv beta in *; unfold elements;
    rewrite upper_rev; apply StronglySorted_rev; assumption.
Qed.

(* ================================================================== *)
(** * A capacity that always suffices                                  *)
(* ================================================================== *)

Section Sizing.

Context {F : Type} {ops : FloatOps F}.

(** Pairwise distinct positions within an [N] by [N] square are at most
    [N * N]. *)
Lemma positions_count (N : Z) (l : list (Z * Z)) :
  0 <= N ->
  NoDup l ->
  Forall (fun p => 0 <= fst p < N /\ 0 <= snd p < N) l ->
  Z.of_nat (List.length l) <= N * N.
Proof.
  intros HN Hnd Hr.
  set (side := map Z.of_nat (seq 0 (Z.to_nat N))).
  assert (Hside : forall x, 0 <= x < N -> In x side).
  { intros x Hx. unfold side. apply in_map_iff.
    exists (Z.to_nat x). split; [ lia | ]. apply in_seq. lia. }
  assert (Hincl : incl l (list_prod side side)).
  { intros (x, y) Hin. rewrite Forall_forall in Hr.
    destruct (Hr _ Hin) as (Hx & Hy). simpl in *.
    apply in_prod; auto. }
  pose proof (NoDup_incl_length Hnd Hincl) as Hlen.
  rewrite length_prod in Hlen. unfold side in Hlen.
  rewrite length_map, length_seq in Hlen. nia.
Qed.

End Sizing.



(* ================================================================== *)
(** * The extents of the interaction arrays                            *)
(* ================================================================== *)

Section ArrayExtents.

Context {F : Type} {ops : FloatOps F}.
Variable jjj : Z -> Z -> Z -> Z -> Z -> Z -> F.
Variables g1 g2 : Globals F.
Hypothesis Hsame : same_within_extents (Sys g1) (Sys g2).

Lemma tensor2_extent (Re1 Re2 : Z -> F) (Im1 Im2 : option (Z -> F))
  (jK1 jK2 : Z) (coeff : F) (q : Z) :
  agree_on 5 Re1 Re2 -> agree_opt 5 Im1 Im2 -> Z.abs q <= 2 ->
  tensor2 Re1 Im1 jK1 jK2 coeff q = tensor2 Re2 Im2 jK1 jK2 coeff q.
Proof.
  intros HRe HIm Hq. unfold tensor2.
  destruct (jK1 =? jK2).
  - rewrite (HRe (q + 2)) by lia. reflexivity.
  - destruct Im1 as [x |], Im2 as [y |]; simpl in HIm;
      try contradiction; try reflexivity.
    rewrite (HIm (q + 2)) by lia. reflexivity.
Qed.

(** The reduced couplings read the rank-2 tensors at the offsets 0..4. *)
Lemma reduced_extent (L1 jK1 K1 L2 jK2 K2 : Z) :
  reduced jjj g1 L1 jK1 K1 L2 jK2 K2 = reduced jjj g2 L1 jK1 K1 L2 jK2 K2.
Proof.
  destruct Hsame as (_ & _ & _ & _ & _ & _ & _ & _
                     & HE & HEi & HA & HAi & HB & HBi & _).
  unfold reduced.
  destruct (Z.abs (L1 - L2) <=? 2); [ | reflexivity ].
  destruct (Z.leb_spec (Z.abs (K1 - K2)) 2);
    destruct (Z.leb_spec (Z.abs (K1 + K2)) 2);
    repeat match goal with
           | |- context [tensor2 (?f (Sys g1)) (?h (Sys g1)) ?a ?b ?c ?q] =>
               rewrite (tensor2_extent (f (Sys g1)) (f (Sys g2))
                          (h (Sys g1)) (h (Sys g2)) a b c q)
                 by assumption
           end;
    reflexivity.
Qed.

(** The Liouville element reads [d2psi] at the offsets 0..24, wherever
    the value read enters the element. *)
Lemma LiouvilleElement_extent (r c : BasisIndex) (nf : F) (rk : Rank2 F)
  (l3j : F) :
  LiouvilleElement g1 r c nf rk l3j = LiouvilleElement g2 r c nf rk l3j.
Proof.
  destruct Hsame as (HI & HNZ & HHF & HIb & HNZb & HHFb & HEZ & HDT
                     & _ & _ & _ & _ & _ & _ & Hd).
  unfold LiouvilleElement.
  rewrite HI, HNZ, HHF, HIb, HNZb, HHFb, HEZ, HDT.
  match goal with
  | |- (if ?b then _ else _) = _ => destruct b eqn:Hguard
  end; [ | reflexivity ].
  repeat match goal with
         | H : _ && _ = true |- _ => apply andb_prop in H; destruct H
         | H : (_ <=? _) = true |- _ => apply Z.leb_le in H
         end.
  set (o := bpS r - bpS c + (bpI r - bpI c) + (bpIb r - bpIb c) + 2
            + (bM r - bM c + 2) * 5).
  destruct (Z_le_gt_dec 0 o) as [Hlo | Hlo];
    [ destruct (Z_lt_ge_dec o 25) as [Hhi | Hhi] | ].
  - (* the offset lies within the array *)
    rewrite (Hd o) by lia. reflexivity.
  - (* offset 25: neither nucleus is diagonal, the value is not used *)
    assert (E1 : (bpI r - bpI c =? 0) = false) by (apply Z.eqb_neq; lia).
    assert (E2 : (bpIb r - bpIb c =? 0) = false) by (apply Z.eqb_neq; lia).
    rewrite E1, E2. rewrite ?andb_false_r. cbn [andb]. reflexivity.
  - (* offset -1: the same *)
    assert (E1 : (bpI r - bpI c =? 0) = false) by (apply Z.eqb_neq; lia).
    assert (E2 : (bpIb r - bpIb c =? 0) = false) by (apply Z.eqb_neq; lia).
    rewrite E1, E2. rewrite ?andb_false_r. cbn [andb]. reflexivity.
Qed.

End ArrayExtents.

(** X15: the Liouville element that the loops compute for a pair of basis
    functions depends on the rank-2 tensors of the system only through
    their entries 0..4 and on [d2psi] only through its entries 0..24: two
    systems with the same scalars that agree on these entries give the
    same element.  (Under the guard of the Liouville block the offset
    [(pd+2)+(Md+2)*5] at which [d2psi] is read lies in -1..25; at -1 and
    at 25 the value read does not enter the element.) *)
Theorem interaction_arrays_extents {F : Type} {ops : FloatOps F}
  (jjj : Z -> Z -> Z -> Z -> Z -> Z -> F) (g1 g2 : Globals F)
  (r c : BasisIndex) :
  same_within_extents (Sys g1) (Sys g2) ->
  Liouville_of jjj g1 r c = Liouville_of jjj g2 r c.
Proof.
  intros H. unfold Liouville_of, pair_terms.
  cbn [pt_NormFactor pt_rank2].
  rewrite (reduced_extent jjj g1 g2 H).
  apply (LiouvilleElement_extent g1 g2 H).
Qed.

Lemma interaction_arrays_extents_witness :
  same_within_extents (Sys Inputs3.g_potential) (Sys Inputs6.g_beyond)
  /\ Liouville_of Inputs.jjj_any Inputs3.g_potential
       {| bL := 2; bjK := 1; bK := 0; bM := 0; bpS := 1; bqS := 0;
          bpI := 0; bqI := 0; bpIb := 0; bqIb := 0 |}
       {| bL := 4; bjK := 1; bK := 0; bM := 0; bpS := 1; bqS := 0;
          bpI := 0; bqI := 0; bpIb := 0; bqIb := 0 |}
     = Liouville_of Inputs.jjj_any Inputs6.g_beyond
         {| bL := 2; bjK := 1; bK := 0; bM := 0; bpS := 1; bqS := 0;
            bpI := 0; bqI := 0; bpIb := 0; bqIb := 0 |}
         {| bL := 4; bjK := 1; bK := 0; bM := 0; bpS := 1; bqS := 0;
            bpI := 0; bqI := 0; bpIb := 0; bqIb := 0 |}.
Proof.
  assert (H : same_within_extents (Sys Inputs3.g_potential)
                (Sys Inputs6.g_beyond)).
  { unfold same_within_extents, agree_on, agree_opt. simpl.
    repeat split; auto; intros k Hk.
    - destruct (Z.eqb_spec k 7); [ lia | reflexivity ].
    - destruct (Z.eqb_spec k 30); [ lia | reflexivity ]. }
  split; [ exact H | ].
  exact (interaction_arrays_extents Inputs.jjj_any Inputs3.g_potential
           Inputs6.g_beyond _ _ H).
Defined.

Section TableExtent.

Context {F : Type} {ops : FloatOps F}.
Variable jjj : Z -> Z -> Z -> Z -> Z -> Z -> F.
Variables g1 g2 : Globals F.
Hypothesis Hdiff : same_diffusion (Diff g1) (Diff g2).

(** One pass of the sum over [L] reads the table at offsets from 0 to
    [16 * (maxL + 1) + 8]. *)
Lemma PotDiff_step_extent (L1 jK1 K1 M1 L2 jK2 K2 : Z) (acc : F) (L : Z) :
  0 <= maxL (Diff g1) ->
  Z.abs (K1 - K2) <= Kband -> 0 <= K1 + K2 <= Kband -> 0 <= L <= Lband ->
  PotDiff_step jjj g1 L1 jK1 K1 M1 L2 jK2 K2 acc L
  = PotDiff_step jjj g2 L1 jK1 K1 M1 L2 jK2 K2 acc L.
Proof.
  destruct Hdiff as (_ & _ & _ & _ & HmaxL & Hx).
  unfold Kband, Lband. intros Hm Hd Hs HL. unfold PotDiff_step.
  rewrite <- HmaxL.
  assert (E1 : (K1 - K2 >=? - L) = true ->
               xlk (Diff g1) ((K1 - K2 + L) * (maxL (Diff g1) + 1) + L)
               = xlk (Diff g2) ((K1 - K2 + L) * (maxL (Diff g1) + 1) + L)).
  { intros H. apply Z.geb_le in H. apply Hx. nia. }
  assert (E2 : (K1 + K2 <=? L) = true ->
               xlk (Diff g1) ((K1 + K2 + L) * (maxL (Diff g1) + 1) + L)
               = xlk (Diff g2) ((K1 + K2 + L) * (maxL (Diff g1) + 1) + L)).
  { intros H. apply Z.leb_le in H. apply Hx. nia. }
  destruct (K1 - K2 >=? - L); destruct (K1 + K2 <=? L);
    rewrite ?E1, ?E2 by reflexivity; reflexivity.
Qed.

Lemma PotDiff_extent (L1 jK1 K1 M1 L2 jK2 K2 : Z) (nf : F) :
  0 <= K1 -> 0 <= K2 ->
  PotDiff jjj g1 L1 jK1 K1 M1 L2 jK2 K2 nf
  = PotDiff jjj g2 L1 jK1 K1 M1 L2 jK2 K2 nf.
Proof.
  intros HK1 HK2. unfold PotDiff, Potential.
  destruct Hdiff as (_ & _ & _ & _ & HmaxL & _). rewrite <- HmaxL.
  destruct (Z.geb_spec (maxL (Diff g1)) 0) as [Hm | Hm]; [ | reflexivity ].
  match goal with
  | |- (if ?b then _ else _) = _ => destruct b eqn:Hguard
  end; [ | reflexivity ].
  repeat match goal with
         | H : _ && _ = true |- _ => apply andb_prop in H; destruct H
         | H : (_ <=? _) = true |- _ => apply Z.leb_le in H
         end.
  assert (Hs : 0 <= K1 + K2 <= Kband) by lia.
  cbn [fold_left].
  rewrite !(PotDiff_step_extent L1 jK1 K1 M1 L2 jK2 K2) by (unfold Lband; lia).
  reflexivity.
Qed.

End TableExtent.

(** X16: the diffusion element that the loops compute for a pair of basis
    functions with [K >= 0] depends on the table of potential coefficients
    only through its entries from 0 to [16 * (maxL + 1) + 8]: the sum over
    [L] runs to [Lband = 8] whatever [maxL] is, and reads the table at the
    offsets [(K1-K2+L)*(maxL+1)+L] and [(K1+K2+L)*(maxL+1)+L]. *)
Theorem potential_table_extent {F : Type} {ops : FloatOps F}
  (jjj : Z -> Z -> Z -> Z -> Z -> Z -> F) (g1 g2 : Globals F)
  (r c : BasisIndex) :
  Sys g1 = Sys g2 ->
  same_diffusion (Diff g1) (Diff g2) ->
  0 <= bK r -> 0 <= bK c ->
  Gamma_of jjj g1 r c = Gamma_of jjj g2 r c.
Proof.
  intros HS HD Hr Hc. unfold Gamma_of, pair_terms.
  cbn [pt_N_K pt_PotDiff].
  rewrite (PotDiff_extent jjj g1 g2 HD) by assumption.
  destruct HD as (Hx & Hy & Hz & He & Hm & _).
  unfold GammaElement, IsoDiff, RhombicDiff, ExchangePresent, Potential.
  rewrite HS, Hx, Hy, Hz, He, Hm. reflexivity.
Qed.

Lemma potential_table_extent_witness :
  Sys Inputs3.g_potential = Sys Inputs7.g_table
  /\ same_diffusion (Diff Inputs3.g_potential) (Diff Inputs7.g_table)
  /\ Gamma_of Inputs.jjj_any Inputs3.g_potential
       {| bL := 2; bjK := 1; bK := 0; bM := 0; bpS := 1; bqS := 0;
          bpI := 0; bqI := 0; bpIb := 0; bqIb := 0 |}
       {| bL := 4; bjK := 1; bK := 0; bM := 0; bpS := 1; bqS := 0;
          bpI := 0; bqI := 0; bpIb := 0; bqIb := 0 |}
     = Gamma_of Inputs.jjj_any Inputs7.g_table
         {| bL := 2; bjK := 1; bK := 0; bM := 0; bpS := 1; bqS := 0;
            bpI := 0; bqI := 0; bpIb := 0; bqIb := 0 |}
         {| bL := 4; bjK := 1; bK := 0; bM := 0; bpS := 1; bqS := 0;
            bpI := 0; bqI := 0; bpIb := 0; bqIb := 0 |}.
Proof.
  assert (H1 : Sys Inputs3.g_potential = Sys Inputs7.g_table) by reflexivity.
  assert (H2 : same_diffusion (Diff Inputs3.g_potential) (Diff Inputs7.g_table)).
  { assert (E : maxL (Diff Inputs3.g_potential) = 2)
      by (vm_compute; reflexivity).
    unfold same_diffusion, agree_on. rewrite E.
    repeat split; try reflexivity. intros k Hk. simpl.
    destruct (Z.eqb_spec k 57); [ lia | reflexivity ]. }
  split; [ exact H1 | split; [ exact H2 | ] ].
  apply (potential_table_extent Inputs.jjj_any Inputs3.g_potential
           Inputs7.g_table _ _ H1 H2); simpl; lia.
Defined.

(* ================================================================== *)
(** * Terms that vanish                                                *)
(* ================================================================== *)

Section Vanishing.

Context {F : Type} {ops : FloatOps F}.
Variable finite : F -> bool.
Hypothesis laws : zero_laws finite.
Variable jjj : Z -> Z -> Z -> Z -> Z -> Z -> F.
Variable g : Globals F.

Local Open Scope F_scope.

Lemma zero_0 : nonzero (of_Z 0) = false.
Proof. exact (zl_zero laws). Qed.

Lemma zero_mul_l (x y : F) :
  nonzero x = false -> finite y = true -> nonzero (x * y) = false.
Proof. apply (zl_mul_l laws). Qed.

Lemma zero_mul_r (x y : F) :
  finite x = true -> nonzero y = false -> nonzero (x * y) = false.
Proof. apply (zl_mul_r laws). Qed.

Lemma zero_add (x y : F) :
  nonzero x = false -> nonzero y = false -> nonzero (x + y) = false.
Proof. apply (zl_add laws). Qed.

Lemma zero_opp (x : F) : nonzero x = false -> nonzero (- x) = false.
Proof. apply (zl_opp laws). Qed.

Lemma zero_sub (x : F) : finite x = true -> nonzero (x - x) = false.
Proof. apply (zl_sub laws). Qed.

Lemma zero_div (K1 K2 : Z) : nonzero (of_Z 0 / N_K K1 K2) = false.
Proof. apply (zl_div laws). Qed.

(** A sum of products is a zero when every product has a zero factor and
    finite other factors. *)
Ltac zeros :=
  repeat match goal with
         | |- nonzero (of_Z 0) = false => apply zero_0
         | H : nonzero ?x = false |- nonzero ?x = false => exact H
         | |- nonzero (_ + _) = false => apply zero_add
         | |- nonzero (- _) = false => apply zero_opp
         | |- nonzero (of_Z 0 / N_K _ _) = false => apply zero_div
         | H : finite ?x = true |- nonzero (?x - ?x) = false =>
             apply (zero_sub x H)
         | H : finite ?y = true |- nonzero (?x * ?y) = false =>
             apply (fun Hx => zero_mul_l x y Hx H)
         | H : finite ?x = true |- nonzero (?x * ?y) = false =>
             apply (zero_mul_r x y H)
         end.

Lemma tensor2_vanishes (Re : Z -> F) (Im : option (Z -> F)) (jK1 jK2 : Z)
  (coeff : F) (q : Z) :
  zero_tensor Re Im -> (Z.abs q <= 2)%Z ->
  finite coeff = true -> finite (of_Z jK1) = true ->
  nonzero (tensor2 Re Im jK1 jK2 coeff q) = false.
Proof.
  intros (HRe & HIm) Hq Hc Hj. unfold tensor2.
  destruct (jK1 =? jK2)%Z.
  - rewrite HRe by lia. zeros.
  - destruct Im as [im |]; [ | zeros ].
    rewrite (HIm im eq_refl) by lia. zeros.
Qed.

(** With zero tensors the reduced couplings are zeros. *)
Lemma reduced_vanishes (r c : BasisIndex) :
  zero_tensor (ReEZI2 (Sys g)) (ImEZI2 (Sys g)) ->
  zero_tensor (ReHFI2 (Sys g)) (ImHFI2 (Sys g)) ->
  zero_tensor (ReHFI2b (Sys g)) (ImHFI2b (Sys g)) ->
  finite_reduced finite jjj r c = true ->
  let rk := reduced jjj g (bL r) (bjK r) (bK r) (bL c) (bjK c) (bK c) in
  nonzero (R_EZI2 rk) = false /\ nonzero (R_HFI2 rk) = false
  /\ nonzero (R_HFI2b rk) = false.
Proof.
  intros HE HA HB Hf. unfold finite_reduced in Hf.
  repeat match goal with
         | H : _ && _ = true |- _ => apply andb_prop in H; destruct H
         end.
  cbv zeta. unfold reduced.
  destruct (Z.abs (bL r - bL c) <=? 2)%Z;
    [ | cbn [R_EZI2 R_HFI2 R_HFI2b]; repeat split; zeros ].
  destruct (Z.leb_spec (Z.abs (bK r - bK c)) 2);
    destruct (Z.leb_spec (Z.abs (bK r + bK c)) 2);
    cbn [R_EZI2 R_HFI2 R_HFI2b];
    repeat split;
    repeat first [ apply zero_add | apply zero_mul_r
                 | apply tensor2_vanishes | assumption | apply zero_0 ].
Qed.

(** Beyond [|K1 - K2| = 2] and [|K1 + K2| = 2] they are zeros whatever the
    tensors. *)
Lemma reduced_far (r c : BasisIndex) :
  (2 < Z.abs (bK r - bK c))%Z -> (2 < Z.abs (bK r + bK c))%Z ->
  finite (of_Z (bjK c * parity (bL c + bK c))) = true ->
  let rk := reduced jjj g (bL r) (bjK r) (bK r) (bL c) (bjK c) (bK c) in
  nonzero (R_EZI2 rk) = false /\ nonzero (R_HFI2 rk) = false
  /\ nonzero (R_HFI2b rk) = false.
Proof.
  intros Hd Hs Hf. cbv zeta. unfold reduced.
  destruct (Z.abs (bL r - bL c) <=? 2)%Z;
    [ | cbn [R_EZI2 R_HFI2 R_HFI2b]; repeat split; zeros ].
  destruct (Z.leb_spec (Z.abs (bK r - bK c)) 2); [ lia | ].
  destruct (Z.leb_spec (Z.abs (bK r + bK c)) 2); [ lia | ].
  cbn [R_EZI2 R_HFI2 R_HFI2b]. repeat split; zeros.
Qed.

(** The Liouville element is a zero when the reduced couplings are zeros
    and either the rank-0 terms are not included or the five scalars are
    zeros. *)
Lemma LiouvilleElement_vanishes (r c : BasisIndex) (nf : F) (rk : Rank2 F)
  (l3j : F) :
  nonzero (R_EZI2 rk) = false -> nonzero (R_HFI2 rk) = false ->
  nonzero (R_HFI2b rk) = false ->
  finite_spin finite g r c = true ->
  finite (nf * (d2psi (Sys g)
                  ((bpS r - bpS c + (bpI r - bpI c) + (bpIb r - bpIb c) + 2)
                   + (bM r - bM c + 2) * 5)%Z * l3j)) = true ->
  ((bL r =? bL c)%Z && (bK r =? bK c)%Z && (bjK r - bjK c =? 0)%Z
   && (bM r - bM c =? 0)%Z
   && (bpS r - bpS c + (bpI r - bpI c) + (bpIb r - bpIb c) =? 0)%Z = false
   \/ (nonzero (EZI0 (Sys g)) = false /\ nonzero (HFI0 (Sys g)) = false
       /\ nonzero (HFI0b (Sys g)) = false /\ nonzero (NZI0 (Sys g)) = false
       /\ nonzero (NZI0b (Sys g)) = false)) ->
  nonzero (LiouvilleElement g r c nf rk l3j) = false.
Proof.
  intros H1 H2 H3 Hs Hp H0.
  unfold finite_spin, finite_hyperfine in Hs. cbv zeta in Hs.
  unfold LiouvilleElement. cbv zeta.
  destruct (hyperfine_coeffs (SysI (Sys g)) (bpS r) (bqS r) (bpS r - bpS c)
              (bqS r - bqS c) (bpI r) (bqI r) (bpI r - bpI c) (bqI r - bqI c))
    as [[C0 C2] SA].
  destruct (hyperfine_coeffs (Ib (Sys g)) (bpS r) (bqS r) (bpS r - bpS c)
              (bqS r - bqS c) (bpIb r) (bqIb r) (bpIb r - bpIb c)
              (bqIb r - bqIb c))
    as [[C0b C2b] SAb].
  destruct (bpS r - bpS c =? 0)%Z;
    repeat match goal with
           | H : _ && _ = true |- _ => apply andb_prop in H; destruct H
           end;
    (destruct ((bL r =? bL c)%Z && (bK r =? bK c)%Z && (bjK r - bjK c =? 0)%Z
               && (bM r - bM c =? 0)%Z
               && (bpS r - bpS c + (bpI r - bpI c) + (bpIb r - bpIb c) =? 0)%Z)
       eqn:Hinc;
     [ destruct H0 as [H0 | (He & Hh & Hhb & Hn & Hnb)]; [ discriminate | ]
     | clear H0 ]);
    rewrite ?andb_false_r;
    repeat match goal with
           | |- context [if ?b then _ else _] => destruct b
           end;
    zeros.
Qed.

(** The diffusion element is a zero when the [K] of the two functions
    differ by more than 2 and the potential term is a zero. *)
Lemma GammaElement_far (r c : BasisIndex) (iso : IsoTerms F) (nk pd : F) :
  (2 < Z.abs (bK r - bK c))%Z -> nonzero pd = false ->
  nonzero (GammaElement g r c iso nk pd) = false.
Proof.
  intros Hk Hpd. unfold GammaElement. cbv zeta.
  assert (E0 : (bK r - bK c =? 0)%Z = false) by (apply Z.eqb_neq; lia).
  assert (E1 : (bK r - bK c =? 2)%Z = false) by (apply Z.eqb_neq; lia).
  assert (E2 : (bK r - bK c =? -2)%Z = false) by (apply Z.eqb_neq; lia).
  assert (E3 : (bK r =? bK c)%Z = false) by (apply Z.eqb_neq; lia).
  rewrite E0, E1, E2, E3.
  repeat (rewrite ?andb_false_r; cbn [andb]).
  repeat match goal with
         | |- context [if ?b then _ else _] => destruct b
         end;
    zeros.
Qed.

(** Far from the diagonal in [K] neither element is computed different
    from zero. *)
Lemma nonzero_pair_far (r c : BasisIndex) :
  (0 <= bK r)%Z -> (0 <= bK c)%Z -> (Kband < Z.abs (bK r - bK c))%Z ->
  finite_coefficients finite jjj g r c = true ->
  nonzero_pair jjj g r c = false.
Proof.
  intros Hr Hc Hk Hf. unfold Kband in Hk.
  unfold finite_coefficients in Hf.
  apply andb_prop in Hf. destruct Hf as (Hf & HK).
  apply andb_prop in Hf. destruct Hf as (Hf & Hp).
  apply andb_prop in Hf. destruct Hf as (Hred & Hs).
  unfold nonzero_pair, Gamma_of, Liouville_of, pair_terms.
  cbn [pt_rank2 pt_N_K pt_NormFactor pt_PotDiff].
  rewrite GammaElement_far; [ | lia | ].
  - cbn [orb].
    unfold finite_reduced in Hred.
    repeat match goal with
           | H : _ && _ = true |- _ => apply andb_prop in H; destruct H
           end.
    destruct (reduced_far r c) as (R1 & R2 & R3); [ lia | lia | assumption | ].
    apply LiouvilleElement_vanishes; auto.
    left. replace (bK r =? bK c)%Z with false by (symmetry; apply Z.eqb_neq; lia).
    rewrite andb_false_r. reflexivity.
  - rewrite PotDiff_band; [ apply (zl_zero laws) | ].
    unfold Kband.
    replace (Z.abs (bK r - bK c) <=? 8)%Z with false
      by (symmetry; apply Z.leb_gt; lia).
    rewrite andb_false_r. reflexivity.
Qed.

Variable R0 : F.
Hypothesis Hzero : zero_interaction g R0.
Hypothesis HR0 : finite R0 = true.
Hypothesis Hhalf : (R0 + R0) / of_Z 2 = R0.

(** Without interactions the Liouville element of a pair is a zero. *)
Lemma Liouville_of_vanishes (r c : BasisIndex) :
  finite_coefficients finite jjj g r c = true ->
  nonzero (Liouville_of jjj g r c) = false.
Proof.
  intros Hf. unfold finite_coefficients in Hf.
  apply andb_prop in Hf. destruct Hf as (Hf & HK).
  apply andb_prop in Hf. destruct Hf as (Hf & Hp).
  apply andb_prop in Hf. destruct Hf as (Hred & Hs).
  destruct Hzero as (HEZ & HNZ & HHF & HNZb & HHFb & HE & HA & HB & _).
  destruct (reduced_vanishes r c HE HA HB Hred) as (R1 & R2 & R3).
  unfold Liouville_of, pair_terms. cbn [pt_rank2 pt_NormFactor].
  apply LiouvilleElement_vanishes; auto.
  right. rewrite HEZ, HNZ, HHF, HNZb, HHFb.
  repeat split; apply (zl_zero laws).
Qed.

(** With the isotropic tensor the rhombic terms are not computed and the
    K-squared term is a zero. *)
Lemma IsoDiff_isotropic (L1 K1 : Z) :
  IsoDiffKm2 (IsoDiff g L1 K1) = of_Z 0
  /\ IsoDiffKp2 (IsoDiff g L1 K1) = of_Z 0
  /\ IsoDiffKdiag (IsoDiff g L1 K1)
     = R0 * of_Z (imul L1 (L1 + 1)) + of_Z (imul K1 K1) * (R0 - R0).
Proof.
  destruct Hzero as (_ & _ & _ & _ & _ & _ & _ & _ & _ & _ & _ & Hx & Hy & Hz).
  unfold IsoDiff, RhombicDiff, fneb.
  rewrite Hx, Hy, Hz, (zl_eq laws R0 HR0), Hhalf. cbn [negb].
  repeat split.
Qed.

(** A diffusion element that is not zero belongs to two functions with
    the same [L] and is [R0 * (L * (L + 1))]. *)
Lemma Gamma_of_isotropic (r c : BasisIndex) :
  finite (of_Z (imul (bK r) (bK r))) = true ->
  nonzero (Gamma_of jjj g r c) = true ->
  bL r = bL c
  /\ Gamma_of jjj g r c = R0 * of_Z (imul (bL r) (bL r + 1)).
Proof.
  intros HK. unfold Gamma_of, pair_terms. cbn [pt_N_K pt_PotDiff].
  destruct (IsoDiff_isotropic (bL r) (bK r)) as (Em & Ep & Ed).
  destruct Hzero as (_ & _ & _ & _ & _ & _ & _ & _ & Hex & Hpot & _).
  unfold GammaElement, ExchangePresent, Potential.
  rewrite Em, Ep, Ed, Hex.
  change (fneb (of_Z 0) (of_Z 0)) with (nonzero (of_Z 0)).
  rewrite (zl_zero laws).
  replace (maxL (Diff g) >=? 0)%Z with false by (symmetry; lia).
  assert (Hz : nonzero (of_Z (imul (bK r) (bK r)) * (R0 - R0)) = false)
    by zeros.
  destruct (Z.eqb_spec (bL r - bL c) 0) as [HL | HL]; cbn [andb].
  - repeat match goal with
           | |- context [if ?b then _ else _] => destruct b
           end;
      intros Hnz;
      try (rewrite (zl_zero laws) in Hnz; discriminate);
      try (rewrite (zl_add laws) in Hnz by zeros; discriminate).
    all: split; [ lia | ].
    all: match type of Hnz with
         | nonzero (?z + ?x) = true =>
             assert (E : z + x = x)
               by (apply (zl_add_l laws); [ zeros | exact Hnz ]);
             rewrite E in Hnz |- *
         end.
    all: apply (zl_add_r laws); [ exact Hz | exact Hnz ].
  - repeat match goal with
           | |- context [if ?b then _ else _] => destruct b
           end;
      intros Hnz; rewrite (zl_zero laws) in Hnz; discriminate.
Qed.

End Vanishing.

(* ================================================================== *)
(** * Zeros in binary64 and in exact arithmetic                        *)
(* ================================================================== *)

Section Binary64Zeros.

Import Float64.

(** A double compares equal to zero exactly when it is +0 or -0. *)
Lemma f64_zero_iff (x : float) :
  nonzero x = false <-> exists s, Prim2SF x = S754_zero s.
Proof.
  unfold nonzero, fneb. cbn [feqb ops of_Z].
  change (f64_of_Z 0) with 0%float.
  rewrite negb_false_iff, eqb_spec.
  change (Prim2SF 0%float) with (S754_zero false).
  destruct (Prim2SF x) as [s | s | | s m e]; simpl; try destruct s; split;
    try discriminate; try (intros (s' & H); discriminate); eauto.
Qed.

Lemma f64_mul_zero_l (x y : float) :
  nonzero x = false -> f64_finite y = true -> nonzero (x * y)%fl = false.
Proof.
  rewrite !f64_zero_iff. unfold f64_finite. intros (s & Hx) Hy.
  cbn [fmul ops]. rewrite mul_spec, Hx. unfold SF64mul.
  destruct (Prim2SF y); try discriminate; simpl; eauto.
Qed.

Lemma f64_mul_zero_r (x y : float) :
  f64_finite x = true -> nonzero y = false -> nonzero (x * y)%fl = false.
Proof.
  rewrite !f64_zero_iff. unfold f64_finite. intros Hx (s & Hy).
  cbn [fmul ops]. rewrite mul_spec, Hy. unfold SF64mul.
  destruct (Prim2SF x); try discriminate; simpl; eauto.
Qed.

Lemma f64_add_zero (x y : float) :
  nonzero x = false -> nonzero y = false -> nonzero (x + y)%fl = false.
Proof.
  rewrite !f64_zero_iff. intros (s & Hx) (s' & Hy).
  cbn [fadd ops]. rewrite add_spec, Hx, Hy. unfold SF64add.
  destruct s, s'; simpl; eauto.
Qed.

Lemma f64_opp_zero (x : float) : nonzero x = false -> nonzero (- x)%fl = false.
Proof.
  rewrite !f64_zero_iff. intros (s & Hx).
  cbn [fopp ops]. rewrite opp_spec, Hx. simpl. eauto.
Qed.

(** Adding a zero to a double that is not a zero leaves it as it is;
    adding it to a zero gives a zero. *)
Lemma f64_add_zero_r (x z : float) :
  nonzero z = false -> nonzero (x + z)%fl = true -> (x + z)%fl = x.
Proof.
  rewrite f64_zero_iff. intros (s & Hz) Hn.
  assert (Hn' : forall s', Prim2SF (x + z)%float <> S754_zero s').
  { intros s' H.
    assert (E : nonzero (x + z)%fl = false) by (apply f64_zero_iff; eauto).
    congruence. }
  cbn [fadd ops]. apply Prim2SF_inj.
  rewrite add_spec, Hz in *. unfold SF64add in *.
  destruct (Prim2SF x) as [sx | sx | | sx m e]; simpl in *; auto.
  destruct sx, s; simpl in *; try reflexivity; exfalso; eapply Hn'; reflexivity.
Qed.

Lemma f64_add_zero_l (x z : float) :
  nonzero z = false -> nonzero (z + x)%fl = true -> (z + x)%fl = x.
Proof.
  rewrite f64_zero_iff. intros (s & Hz) Hn.
  assert (Hn' : forall s', Prim2SF (z + x)%float <> S754_zero s').
  { intros s' H.
    assert (E : nonzero (z + x)%fl = false) by (apply f64_zero_iff; eauto).
    congruence. }
  cbn [fadd ops]. apply Prim2SF_inj.
  rewrite add_spec, Hz in *. unfold SF64add in *.
  destruct (Prim2SF x) as [sx | sx | | sx m e]; simpl in *; auto.
  destruct sx, s; simpl in *; try reflexivity; exfalso; eapply Hn'; reflexivity.
Qed.

Lemma f64_sub_self (x : float) :
  f64_finite x = true -> nonzero (x - x)%fl = false.
Proof.
  unfold f64_finite. intros Hx. apply f64_zero_iff.
  cbn [fsub ops]. rewrite sub_spec. unfold SF64sub.
  destruct (Prim2SF x) as [sx | sx | | sx m e]; try discriminate.
  - destruct sx; simpl; eauto.
  - unfold SFsub. rewrite Z.min_id. unfold shl_align. rewrite Z.sub_diag.
    cbn [fst]. rewrite ?Z.sub_diag. simpl. eauto.
Qed.

Lemma f64_eqb_self (x : float) : f64_finite x = true -> feqb x x = true.
Proof.
  unfold f64_finite. intros Hx. cbn [feqb ops]. rewrite eqb_spec.
  destruct (Prim2SF x) as [sx | sx | | sx m e]; try discriminate.
  - reflexivity.
  - unfold SFeqb, SFcompare. rewrite Z.compare_refl.
    fold (Pos.compare m m). rewrite Pos.compare_refl. destruct sx; reflexivity.
Qed.

Lemma f64_zero_div_N_K (K1 K2 : Z) :
  nonzero (F := float) (of_Z 0 / N_K K1 K2)%fl = false.
Proof.
  unfold N_K. destruct (K1 =? 0), (K2 =? 0); vm_compute; reflexivity.
Qed.

(** Binary64 obeys the laws, with the finite doubles as finite values. *)
Lemma binary64_zero_laws : zero_laws f64_finite.
Proof.
  constructor.
  - reflexivity.
  - exact f64_mul_zero_l.
  - exact f64_mul_zero_r.
  - exact f64_add_zero.
  - exact f64_opp_zero.
  - exact f64_add_zero_r.
  - exact f64_add_zero_l.
  - exact f64_sub_self.
  - exact f64_eqb_self.
  - exact f64_zero_div_N_K.
Qed.

End Binary64Zeros.

Section ExactZeros.

Import RealOps.

Local Open Scope R_scope.

Lemma exact_zero_iff (x : R) : nonzero x = false <-> x = 0.
Proof.
  unfold nonzero, fneb. cbn [feqb ops of_Z].
  destruct (Req_dec_T x 0); simpl; split; congruence.
Qed.

(** Exact arithmetic obeys the laws, every value being finite. *)
Lemma exact_zero_laws : zero_laws (fun _ : R => true).
Proof.
  constructor.
  - apply exact_zero_iff. reflexivity.
  - intros x y Hx _. apply exact_zero_iff in Hx. apply exact_zero_iff.
    subst. cbn [fmul ops]. ring.
  - intros x y _ Hy. apply exact_zero_iff in Hy. apply exact_zero_iff.
    subst. cbn [fmul ops]. ring.
  - intros x y Hx Hy. apply exact_zero_iff in Hx, Hy. apply exact_zero_iff.
    subst. cbn [fadd ops]. ring.
  - intros x Hx. apply exact_zero_iff in Hx. apply exact_zero_iff.
    subst. cbn [fopp ops]. ring.
  - intros x z Hz _. apply exact_zero_iff in Hz. subst. cbn [fadd ops]. ring.
  - intros x z Hz _. apply exact_zero_iff in Hz. subst. cbn [fadd ops]. ring.
  - intros x _. apply exact_zero_iff. cbn [fsub ops]. ring.
  - intros x _. cbn [feqb ops]. destruct (Req_dec_T x x); congruence.
  - intros K1 K2. apply exact_zero_iff. cbn [fdiv ops of_Z].
    unfold Rdiv. ring.
Qed.

(** Then the coefficients of every pair are finite. *)
Lemma exact_all_finite (jjj : Z -> Z -> Z -> Z -> Z -> Z -> R) (g : Globals R) :
  all_finite (fun _ : R => true) jjj g.
Proof.
  intros r c _ _.
  unfold finite_coefficients, finite_reduced, finite_spin, finite_hyperfine,
    finite_prefactor.
  cbv zeta.
  repeat match goal with
         | |- context [let '(_, _) := ?x in _] => destruct x
         end.
  reflexivity.
Qed.

End ExactZeros.

(* ================================================================== *)
(** * The bands in L and K (C6)                                        *)
(* ================================================================== *)

Section PairsOfElements.

Import Nest NestFacts Indexed.

Context {F : Type} {ops : FloatOps F}.
Variable jjj : Z -> Z -> Z -> Z -> Z -> Z -> F.
Variable fuel : nat.
Variable g : Globals F.

(** A basis function has [K >= 0]: a K loop that ends has a positive
    step. *)
Lemma basis_K_nonneg (r : BasisIndex) :
  complete fuel (basis_nest g) -> In r (basis g) -> 0 <= bK r.
Proof.
  intros Hc Hr. apply basis_In_reaches in Hr.
  unfold basis_nest, basis_nest_L, vars in Hr, Hc.
  cbn [reaches] in Hr. cbn [complete] in Hc.
  destruct Hr as (HL & HsL & HjK & HsjK & HK & _).
  destruct Hc as (_ & Hc). specialize (Hc _ HL HsL).
  destruct Hc as (_ & Hc). specialize (Hc _ HjK HsjK).
  destruct Hc as (Hex & _). cbn [fuel_for] in Hex.
  destruct (Z_le_gt_dec 0 (mini (Kmax g) (bL r))) as [Hhi | Hhi].
  - pose proof (exhausted_step _ _ _ _ Hex Hhi) as Hstep.
    apply zrange_In_ge in HK; lia.
  - unfold zrange in HK.
    replace (Z.to_nat (mini (Kmax g) (bL r) - 0 + 1)) with 0%nat in HK by lia.
    rewrite iter_O in HK. destruct HK.
Qed.

(** A property of the pairs of basis functions whose element is computed
    different from zero is a property of the pairs that the stored
    elements connect. *)
Lemma makematrix_loops_pairs (P : BasisIndex -> BasisIndex -> Prop) (N : Z) :
  BasisSize fuel g = Done N ->
  (forall r c, P r c -> P c r) ->
  (forall r c, In r (basis g) -> In c (basis g) ->
               bL r <= bL c <= bL r + Lband ->
               nonzero_pair jjj g r c = true -> P r c) ->
  holds (fun st =>
           Forall (fun ke => exists r c, connects g (snd ke) r c /\ P r c)
                  (stores st))
        (makematrix_loops jjj fuel (allocate N g)).
Proof.
  intros HN Hsym HP. destruct (BasisSize_basis fuel g N HN) as (Hc & _).
  unfold holds.
  apply makematrix_loops_indexed
    with (Pin := fun _ st =>
                   Forall (fun ke => exists r c,
                               connects g (snd ke) r c /\ P r c)
                          (stores st)).
  - exact Hc.
  - intros r c s Hr Hci Hrc Hd Hband Hs.
    unfold Assembly.pass.
    generalize (column_body_effect (allocate N g) r
                  (IsoDiff (allocate N g) (bL r) (bK r))
                  (pair_terms jjj (allocate N g) r (bL c) (bjK c) (bK c))
                  (Liou3j jjj r (bL c) (bM c)) c s).
    cbv zeta. intros Heff.
    assert (Hnew : Forall (fun ke => exists r c,
                             connects g (snd ke) r c /\ P r c)
                     (new_stores (allocate N g) r
                        (IsoDiff (allocate N g) (bL r) (bK r))
                        (pair_terms jjj (allocate N g) r (bL c) (bjK c) (bK c))
                        (Liou3j jjj r (bL c) (bM c)) c s ++ stores s)).
    { apply Forall_app. split; auto.
      unfold new_stores.
      change (is_stored (allocate N g) r
                (IsoDiff (allocate N g) (bL r) (bK r))
                (pair_terms jjj (allocate N g) r (bL c) (bjK c) (bK c))
                (Liou3j jjj r (bL c) (bM c)) c)
        with (nonzero_pair jjj g r c).
      destruct (nonzero_pair jjj g r c) eqn:Hnz; [ | constructor ].
      assert (HPrc : P r c).
      { apply HP; auto.
        - eapply nth_error_In. exact Hr.
        - eapply nth_error_In. exact Hci. }
      assert (H1 : exists r0 c0,
                 connects g (element_of (allocate N g) r
                   (IsoDiff (allocate N g) (bL r) (bK r))
                   (pair_terms jjj (allocate N g) r (bL c) (bjK c) (bK c))
                   (Liou3j jjj r (bL c) (bM c)) c s) r0 c0
                 /\ P r0 c0).
      { exists r, c. split; [ split; assumption | exact HPrc ]. }
      assert (H2 : exists r0 c0,
                 connects g (mirror (element_of (allocate N g) r
                   (IsoDiff (allocate N g) (bL r) (bK r))
                   (pair_terms jjj (allocate N g) r (bL c) (bjK c) (bK c))
                   (Liou3j jjj r (bL c) (bM c)) c s)) r0 c0
                 /\ P r0 c0).
      { exists c, r. split; [ split; assumption | apply Hsym; exact HPrc ]. }
      destruct (diagRC s); simpl; repeat constructor; assumption. }
    eapply stops_weaken; [ exact Heff | | ].
    + intros s' (-> & _). exact Hnew.
    + intros msg s' [(_ & -> & _) | (_ & -> & _)]; exact Hnew.
  - intros r s _ _ Hs. exact Hs.
  - intros r s _ _ Hs. unfold end_row.
    match goal with |- stops _ _ (if ?b then _ else _) => destruct b end;
      exact Hs.
  - constructor.
Qed.

Variable finite : F -> bool.
Hypothesis laws : zero_laws finite.

(** Every stored element connects two basis functions whose [L] differ
    by at most [Lband] and whose [K] differ by at most [Kband]. *)
Lemma makematrix_loops_bands (N : Z) :
  all_finite finite jjj g ->
  BasisSize fuel g = Done N ->
  holds (fun st =>
           Forall (fun ke => exists r c,
                       connects g (snd ke) r c
                       /\ Z.abs (bL r - bL c) <= Lband
                       /\ Z.abs (bK r - bK c) <= Kband)
                  (stores st))
        (makematrix_loops jjj fuel (allocate N g)).
Proof.
  intros Hfin HN. destruct (BasisSize_basis fuel g N HN) as (Hc & _).
  apply (makematrix_loops_pairs
           (fun r c => Z.abs (bL r - bL c) <= Lband
                       /\ Z.abs (bK r - bK c) <= Kband) N HN).
  - intros r c. lia.
  - intros r c Hr Hci Hband Hnz. split; [ lia | ].
    destruct (Z_le_gt_dec (Z.abs (bK r - bK c)) Kband) as [Hk | Hk]; auto.
    rewrite (nonzero_pair_far finite laws jjj g r c) in Hnz;
      [ discriminate | | | lia | ]; auto using basis_K_nonneg.
Qed.

End PairsOfElements.



(** In binary64 the condition on the coefficients is needed: when the
    entries of [d2psi] are NaN, the Liouville element of the basis
    functions number 5 and 6, (L,K) = (10,0) and (10,10), is NaN, which
    compares different from zero, and the element is stored although the
    two [K] differ by 10. *)
Lemma K_band_needs_finite :
  match mexFunction Inputs.jjj_any 20 5 4 Inputs9.prhs_nan Inputs.globals0 with
  | Done g' =>
      exists e r c,
        In e (elements g') /\ connects g' e r c
        /\ Kband < Z.abs (bK r - bK c)
  | _ => False
  end.
Proof.
  vm_compute.
  eexists {| ridx := 5; cidx := 6; MatrixRe := _; MatrixIm := _ |}.
  eexists. eexists. split; [ | split; [ split | ] ].
  - repeat first [ left; reflexivity | right ].
  - reflexivity.
  - reflexivity.
  - reflexivity.
Qed.

(** In exact arithmetic no condition on the coefficients is left. *)
Lemma bands_exact (jjj : Z -> Z -> Z -> Z -> Z -> Z -> R) (fuel : nat)
  (g : Globals R) (N : Z) :
  BasisSize fuel g = Done N ->
  holds (fun g' =>
           Forall (fun ke => exists r c,
                       connects g (snd ke) r c
                       /\ Z.abs (bL r - bL c) <= Lband
                       /\ Z.abs (bK r - bK c) <= Kband)
                  (written g'))
        (makematrix jjj fuel (allocate N g)).
Proof.
  intros HN. apply makematrix_written.
  apply (makematrix_loops_bands jjj fuel g (fun _ => true) exact_zero_laws N
           (exact_all_finite jjj g) HN).
Qed.

(* ================================================================== *)
(** * Without interactions and with isotropic diffusion (C5)           *)
(* ================================================================== *)

(** In binary64, for the basis options [2 0 2 0 1 1 2 0 0 0] and the
    diffusion tensor (7 7 7): the basis functions are (L,K) = (0,0), (2,0),
    (2,2); the two elements stored are the diagonal elements of the rows 1
    and 2, with the diffusion value 7*2*3 and the Liouville value zero
    (stored negated). *)
Lemma zero_interaction_binary64 :
  match mexFunction Inputs.jjj_any 10 5 4 Inputs4.prhs_isotropic Inputs.globals0 with
  | Done g' =>
      elements g'
      = [ {| ridx := 1; cidx := 1; MatrixRe := 42%float; MatrixIm := (-0)%float |};
          {| ridx := 2; cidx := 2; MatrixRe := 42%float; MatrixIm := (-0)%float |} ]
  | _ => False
  end.
Proof. vm_compute. reflexivity. Qed.


Section IsotropicAssembly.

Context {F : Type} {ops : FloatOps F}.
Variable finite : F -> bool.
Hypothesis laws : zero_laws finite.
Variable jjj : Z -> Z -> Z -> Z -> Z -> Z -> F.
Variable fuel : nat.
Variable g : Globals F.
Variable R0 : F.
Hypothesis Hzero : zero_interaction g R0.
Hypothesis HR0 : finite R0 = true.
Hypothesis Hhalf : ((R0 + R0) / of_Z 2)%fl = R0.
Hypothesis Hfin : all_finite finite jjj g.

(** Every element of the output arrays has an imaginary part that is a
    zero and the real part [R0 * (L * (L + 1))], where [L] is the orbital
    rank of the basis function of its row. *)
Lemma makematrix_isotropic (N : Z) :
  BasisSize fuel g = Done N ->
  holds (fun g' =>
           Forall (fun e =>
                     nonzero (MatrixIm e) = false
                     /\ exists r,
                          nth_error (basis g) (Z.to_nat (ridx e)) = Some r
                          /\ MatrixRe e
                             = (R0 * of_Z (imul (bL r) (bL r + 1)))%fl)
                  (elements g'))
        (makematrix jjj fuel (allocate N g)).
Proof.
  intros HN. apply makematrix_elements_sound; [ exact HN | ].
  intros e i j (Hij & r & c & Hi & Hj & Hnz & He).
  assert (Hr : In r (basis g)) by (eapply nth_error_In; exact Hi).
  assert (Hc : In c (basis g)) by (eapply nth_error_In; exact Hj).
  pose proof (Hfin r c Hr Hc) as Hrc.
  pose proof (Liouville_of_vanishes finite laws jjj g R0 Hzero r c Hrc) as HL.
  unfold nonzero_pair in Hnz. rewrite HL, orb_false_r in Hnz.
  assert (HK : finite (of_Z (imul (bK r) (bK r))) = true).
  { unfold finite_coefficients in Hrc.
    apply andb_prop in Hrc. destruct Hrc as (_ & HK). exact HK. }
  destruct (Gamma_of_isotropic finite laws jjj g R0 Hzero HR0 Hhalf r c HK Hnz)
    as (HLL & HG).
  destruct He as [-> | (Hlt & ->)];
    unfold mirror, entry_at; cbn [ridx cidx MatrixRe MatrixIm];
    rewrite Nat2Z.id;
    (split; [ apply (zl_opp laws); exact HL | ]).
  - exists r. split; [ exact Hi | exact HG ].
  - exists c. split; [ exact Hj | rewrite <- HLL; exact HG ].
Qed.

End IsotropicAssembly.

(** The [int] product [L * (L + 1)] is the product of the integers up to
    [L = 46340]. *)
Lemma imul_succ_exact (L : Z) :
  0 <= L <= 46340 -> imul L (L + 1) = L * (L + 1).
Proof.
  intros HL. unfold imul, wrap32.
  rewrite Z.mod_small; [ lia | ]. nia.
Qed.



(** In exact arithmetic the conditions on [R0] and on the coefficients are
    void. *)
Lemma zero_interaction_exact (jjj : Z -> Z -> Z -> Z -> Z -> Z -> R)
  (fuel : nat) (g : Globals R) (N : Z) (R0 : R) :
  zero_interaction g R0 ->
  BasisSize fuel g = Done N ->
  holds (fun g' =>
           Forall (fun e =>
                     MatrixIm e = 0%R
                     /\ exists r,
                          nth_error (basis g) (Z.to_nat (ridx e)) = Some r
                          /\ MatrixRe e
                             = (R0 * IZR (imul (bL r) (bL r + 1)))%R)
                  (elements g'))
        (makematrix jjj fuel (allocate N g)).
Proof.
  intros Hz HN.
  assert (Hh : ((R0 + R0) / of_Z 2)%fl = R0) by (simpl; lra).
  pose proof (makematrix_isotropic (fun _ => true) exact_zero_laws jjj fuel g R0
                Hz eq_refl Hh (exact_all_finite jjj g) N HN) as H.
  unfold holds in *. eapply stops_weaken; [ exact H | | ];
    intros; cbv beta in *;
    (eapply Forall_impl; [ | eassumption ]);
    intros e (Him & Hre); (split; [ apply exact_zero_iff; exact Him | exact Hre ]).
Qed.

(* ================================================================== *)
(** * A K loop that runs backward (C9)                                 *)
(* ================================================================== *)

Section BackwardLoop.

Lemma wrap32_eq (z : Z) :
  wrap32 z = (z + 2147483648) mod 4294967296 - 2147483648.
Proof. reflexivity. Qed.

Lemma wrap32_small (z : Z) : -2147483648 <= z < 2147483648 -> wrap32 z = z.
Proof. intros H. rewrite wrap32_eq, Z.mod_small; lia. Qed.

Lemma wrap32_add_l (a b : Z) : wrap32 (wrap32 a + b) = wrap32 (a + b).
Proof.
  rewrite !wrap32_eq.
  replace ((a + 2147483648) mod 4294967296 - 2147483648 + b + 2147483648)
    with ((a + 2147483648) mod 4294967296 + b) by lia.
  rewrite Zplus_mod_idemp_l. f_equal. f_equal. lia.
Qed.

(** A loop over an [int] that starts at [i <= 0], steps by -1 and counts
    its passes: the variable reaches -2^31, wraps to 2^31 - 1 and the loop
    ends, after [i + 2^31 + 1] passes. *)
Lemma for_loop_backward (body : Z -> Z -> outcome Z) :
  (forall i c, body i c = Done (Int32.iadd c 1)) ->
  forall (fuel : nat) (i c : Z),
    -2147483648 <= i <= 0 ->
    i + 2147483649 <= Z.of_nat fuel ->
    Int32.for_loop fuel i 0 (-1) body c
    = Done (wrap32 (c + (i + 2147483649))).
Proof.
  intros Hbody. induction fuel as [| fuel IH]; intros i c Hi Hf.
  - simpl in Hf. lia.
  - cbn [Int32.for_loop]. destruct (Z.leb_spec i 0); [ | lia ].
    rewrite Hbody. cbn [andthen].
    destruct (Z.eq_dec i (-2147483648)) as [-> | Hne].
    + change (Int32.iadd (-2147483648) (-1)) with 2147483647.
      assert (E : forall f s, Int32.for_loop f 2147483647 0 (-1) body s = Done s)
        by (intros [| f] s; reflexivity).
      rewrite E. unfold Int32.iadd. f_equal.
    + unfold Int32.iadd at 1. rewrite (wrap32_small (i + -1)) by lia.
      rewrite IH by lia.
      unfold Int32.iadd. rewrite wrap32_add_l. f_equal. f_equal. lia.
Qed.

Lemma parse_backward :
  parse_inputs Inputs8.prhs_backward Inputs.globals0 = Inputs8.g_backward.
Proof. vm_compute. reflexivity. Qed.

(** [BasisSize] with [deltaK = -1]: the K loop at [L1 = 0] makes
    2^31 + 1 passes, each of which counts one basis function; the count
    wraps to -2^31 + 1. *)
Lemma BasisSize_backward (fuel : nat) :
  2147483649 <= Z.of_nat fuel ->
  Int32.BasisSize fuel Inputs8.g_backward = Done (-2147483647).
Proof.
  intros Hf.
  assert (HK : Int32.BasisSize_K1 fuel Inputs8.g_backward 0 1 0
               = Done (-2147483647)).
  { unfold Int32.BasisSize_K1. cbv zeta.
    change (mini (Kmax Inputs8.g_backward) 0) with 0.
    change (deltaK Inputs8.g_backward) with (-1).
    rewrite for_loop_backward; [ reflexivity | | lia | lia ].
    intros i c.
    change (parity 0 =? 1) with true. cbn [negb c_int].
    rewrite Z.land_0_r. change (truth 0) with false. cbv iota.
    cbv - [Int32.iadd]. reflexivity. }
  unfold Int32.BasisSize, Int32.BasisSize_L1, Int32.BasisSize_jK1, Int32.for_up.
  change (Z.to_nat (Lemax Inputs8.g_backward - 0 + 1)) with 1%nat.
  change (Z.to_nat (1 - jKmin Inputs8.g_backward + 1)) with 1%nat.
  change (jKmin Inputs8.g_backward) with 1.
  change (Lemax Inputs8.g_backward) with 0.
  change (Lomax Inputs8.g_backward) with 0.
  cbn [Int32.for_loop Z.leb Z.compare].
  change (truth (isodd 0) && (0 >? 0)) with false. cbv iota.
  rewrite HK. reflexivity.
Qed.

(** The call with these options: the assembly is aborted when the column
    counter reaches 1, above [maxRows = -2147483646]. *)
Lemma mexFunction_backward (fuel : nat) :
  2147483649 <= Z.of_nat fuel ->
  Int32.BasisSize fuel (parse_inputs Inputs8.prhs_backward Inputs.globals0)
  = Done (-2147483647)
  /\ fatal_msg (Int32.mexFunction Inputs.jjj_any fuel 5 4
                  Inputs8.prhs_backward Inputs.globals0)
     = Some msg_rows.
Proof.
  intros Hf. rewrite parse_backward.
  split; [ apply BasisSize_backward; exact Hf | ].
  unfold Int32.mexFunction.
  change (4 =? 1) with false. change (negb (4 =? 4)) with false.
  change (negb (5 =? 5)) with false. cbv iota zeta.
  rewrite parse_backward, (BasisSize_backward _ Hf).
  destruct fuel as [| fuel]; [ simpl in Hf; lia | ].
  vm_compute. reflexivity.
Qed.

End BackwardLoop.

(* ================================================================== *)
(** * [BasisSize] within the range of [int]                            *)
(* ================================================================== *)

Section IntAgreement.

Context {F : Type} {ops : FloatOps F}.

Lemma counts_alike_Done (c : Z) : counts_alike c (Done c) (Done c).
Proof. simpl. split; [ lia | reflexivity ]. Qed.

(** A loop whose variable does not wrap, over bodies that count alike. *)
Lemma for_loop_counts_alike (body body32 : Z -> Z -> outcome Z)
  (lo hi step : Z) :
  1 <= step -> -2147483648 <= lo -> hi + step < 2147483648 ->
  (forall i c, lo <= i <= hi -> 0 <= c ->
               counts_alike c (body i c) (body32 i c)) ->
  forall (fuel : nat) (i c : Z),
    lo <= i -> 0 <= c ->
    counts_alike c (for_loop fuel i hi step body c)
      (Int32.for_loop fuel i hi step body32 c).
Proof.
  intros Hstep Hlo Hhi Hbody.
  induction fuel as [| fuel IH]; intros i c Hi Hc.
  - simpl. destruct (i <=? hi); simpl; auto. split; [ lia | reflexivity ].
  - cbn [for_loop Int32.for_loop].
    destruct (Z.leb_spec i hi) as [Hle | Hgt];
      [ | apply counts_alike_Done ].
    assert (Hb : counts_alike c (body i c) (body32 i c))
      by (apply Hbody; auto; lia).
    destruct (body i c) as [c1 | msg c1 |]; simpl in Hb |- *; auto.
    destruct Hb as (Hc1 & Hb).
    assert (IH1 : counts_alike c1 (for_loop fuel (i + step) hi step body c1)
                    (Int32.for_loop fuel (i + step) hi step body32 c1))
      by (apply IH; lia).
    destruct (for_loop fuel (i + step) hi step body c1) as [c' | msg c' |];
      simpl in IH1 |- *; auto.
    destruct IH1 as (Hc' & IH1). split; [ lia | ].
    intros Hr. rewrite Hb by lia. simpl.
    unfold Int32.iadd. rewrite wrap32_small by lia. apply IH1. exact Hr.
Qed.

Lemma for_up_counts_alike (body body32 : Z -> Z -> outcome Z)
  (lo hi step : Z) (c : Z) :
  1 <= step -> -2147483648 <= lo -> hi + step < 2147483648 ->
  (forall i c, lo <= i <= hi -> 0 <= c ->
               counts_alike c (body i c) (body32 i c)) ->
  0 <= c ->
  counts_alike c (for_up lo hi step body c) (Int32.for_up lo hi step body32 c).
Proof.
  intros Hstep Hlo Hhi Hbody Hc. unfold for_up, Int32.for_up.
  apply (for_loop_counts_alike body body32 lo hi step); auto. lia.
Qed.

Variable fuel : nat.
Variable g : Globals F.
Hypothesis Hsized : int_sized g.
Hypothesis HdeltaK : 1 <= deltaK g.

Lemma BasisSize_qI1b_alike (pI1b c : Z) :
  Z.abs pI1b < 536870912 -> 0 <= c ->
  counts_alike c (BasisSize_qI1b g pI1b c) (Int32.BasisSize_qI1b g pI1b c).
Proof.
  destruct Hsized as (_ & _ & _ & _ & _ & _ & _ & _ & Hb).
  intros Hp Hc. unfold BasisSize_qI1b, Int32.BasisSize_qI1b. cbv zeta.
  unfold Int32.iabs. rewrite (wrap32_small (Z.abs pI1b)) by lia.
  unfold Int32.isub. rewrite (wrap32_small (twoIb g - Z.abs pI1b)) by lia.
  unfold Int32.ineg. rewrite (wrap32_small (- (twoIb g - Z.abs pI1b))) by lia.
  apply for_up_counts_alike; auto; try lia.
  intros i c0 Hi Hc0. simpl. split; [ lia | ].
  intros Hr. unfold Int32.iadd. rewrite wrap32_small by lia. reflexivity.
Qed.

Lemma BasisSize_pI1b_alike (M1 pS1 pI1 c : Z) :
  Z.abs pS1 < 536870912 -> Z.abs pI1 < 536870912 -> 0 <= c ->
  counts_alike c (BasisSize_pI1b g M1 pS1 pI1 c)
    (Int32.BasisSize_pI1b g M1 pS1 pI1 c).
Proof.
  destruct Hsized as (_ & _ & _ & _ & _ & _ & Hb & _).
  intros HpS HpI Hc. unfold BasisSize_pI1b, Int32.BasisSize_pI1b.
  unfold Int32.ineg. rewrite (wrap32_small (- pIbmax g)) by lia.
  apply for_up_counts_alike; auto; try lia.
  intros i c0 Hi Hc0.
  unfold Int32.iadd, Int32.isub.
  rewrite (wrap32_small (pI1 + i)) by lia.
  rewrite (wrap32_small (pI1 + i + pS1)) by lia.
  rewrite (wrap32_small (pI1 + i + pS1 - 1)) by lia.
  destruct (symm_on g && negb (pI1 + i + pS1 - 1 =? M1));
    [ apply counts_alike_Done | ].
  apply BasisSize_qI1b_alike; lia.
Qed.

Lemma BasisSize_qI1_alike (M1 pS1 pI1 c : Z) :
  Z.abs pS1 < 536870912 -> Z.abs pI1 < 536870912 -> 0 <= c ->
  counts_alike c (BasisSize_qI1 g M1 pS1 pI1 c)
    (Int32.BasisSize_qI1 g M1 pS1 pI1 c).
Proof.
  destruct Hsized as (_ & _ & _ & _ & _ & _ & _ & Ha & _).
  intros HpS HpI Hc. unfold BasisSize_qI1, Int32.BasisSize_qI1. cbv zeta.
  unfold Int32.iabs. rewrite (wrap32_small (Z.abs pI1)) by lia.
  unfold Int32.isub. rewrite (wrap32_small (twoI g - Z.abs pI1)) by lia.
  unfold Int32.ineg. rewrite (wrap32_small (- (twoI g - Z.abs pI1))) by lia.
  apply for_up_counts_alike; auto; try lia.
  intros i c0 Hi Hc0. apply BasisSize_pI1b_alike; lia.
Qed.

Lemma BasisSize_pI1_alike (M1 pS1 c : Z) :
  Z.abs pS1 < 536870912 -> 0 <= c ->
  counts_alike c (BasisSize_pI1 g M1 pS1 c) (Int32.BasisSize_pI1 g M1 pS1 c).
Proof.
  destruct Hsized as (_ & _ & _ & _ & _ & Ha & _).
  intros HpS Hc. unfold BasisSize_pI1, Int32.BasisSize_pI1.
  unfold Int32.ineg. rewrite (wrap32_small (- pImax g)) by lia.
  apply for_up_counts_alike; auto; try lia.
  intros i c0 Hi Hc0. apply BasisSize_qI1_alike; lia.
Qed.

Lemma BasisSize_qS1_alike (M1 pS1 c : Z) :
  Z.abs pS1 < 536870912 -> 0 <= c ->
  counts_alike c (BasisSize_qS1 g M1 pS1 c) (Int32.BasisSize_qS1 g M1 pS1 c).
Proof.
  intros HpS Hc. unfold BasisSize_qS1, Int32.BasisSize_qS1. cbv zeta.
  unfold Int32.iabs. rewrite (wrap32_small (Z.abs pS1)) by lia.
  unfold Int32.isub. rewrite (wrap32_small (1 - Z.abs pS1)) by lia.
  unfold Int32.ineg. rewrite (wrap32_small (- (1 - Z.abs pS1))) by lia.
  apply for_up_counts_alike; auto; try lia.
  intros i c0 Hi Hc0. apply BasisSize_pI1_alike; lia.
Qed.

Lemma BasisSize_pS1_alike (M1 c : Z) :
  0 <= c ->
  counts_alike c (BasisSize_pS1 g M1 c) (Int32.BasisSize_pS1 g M1 c).
Proof.
  destruct Hsized as (_ & _ & _ & _ & Ha & _).
  intros Hc. unfold BasisSize_pS1, Int32.BasisSize_pS1.
  apply for_up_counts_alike; auto; try lia.
  intros i c0 Hi Hc0. apply BasisSize_qS1_alike; lia.
Qed.

Lemma BasisSize_M1_alike (L1 c : Z) :
  0 <= L1 < 536870912 -> 0 <= c ->
  counts_alike c (BasisSize_M1 g L1 c) (Int32.BasisSize_M1 g L1 c).
Proof.
  destruct Hsized as (_ & _ & Ha & _).
  intros HL Hc. unfold BasisSize_M1, Int32.BasisSize_M1. cbv zeta.
  assert (Hm : -536870912 < mini (Mmax g) L1 < 536870912)
    by (unfold mini; destruct (Z.ltb_spec (Mmax g) L1); lia).
  unfold Int32.ineg. rewrite (wrap32_small (- mini (Mmax g) L1)) by lia.
  apply for_up_counts_alike; auto; try lia.
  intros i c0 Hi Hc0. apply BasisSize_pS1_alike; lia.
Qed.

Lemma BasisSize_K1_alike (L1 jK1 c : Z) :
  0 <= L1 < 536870912 -> 0 <= c ->
  counts_alike c (BasisSize_K1 fuel g L1 jK1 c)
    (Int32.BasisSize_K1 fuel g L1 jK1 c).
Proof.
  destruct Hsized as (_ & Ha & _).
  intros HL Hc. unfold BasisSize_K1, Int32.BasisSize_K1. cbv zeta.
  assert (Hm : mini (Kmax g) L1 < 536870912)
    by (unfold mini; destruct (Z.ltb_spec (Kmax g) L1); lia).
  apply (for_loop_counts_alike _ _ 0); auto; try lia.
  intros i c0 Hi Hc0.
  destruct (truth (Z.land (c_int (i =? 0)) (c_int (negb (parity L1 =? jK1)))));
    [ apply counts_alike_Done | ].
  apply BasisSize_M1_alike; lia.
Qed.

Lemma BasisSize_jK1_alike (L1 c : Z) :
  0 <= L1 < 536870912 -> 0 <= c ->
  counts_alike c (BasisSize_jK1 fuel g L1 c) (Int32.BasisSize_jK1 fuel g L1 c).
Proof.
  destruct Hsized as (_ & _ & _ & Ha & _).
  intros HL Hc. unfold BasisSize_jK1, Int32.BasisSize_jK1.
  apply for_up_counts_alike; auto; try lia.
  intros i c0 Hi Hc0. apply BasisSize_K1_alike; lia.
Qed.

(** With options far inside the range of [int] and a positive [deltaK],
    a count that stays in the range of [int] is the count in two's
    complement. *)
Lemma BasisSize_alike :
  counts_alike 0 (BasisSize fuel g) (Int32.BasisSize fuel g).
Proof.
  destruct Hsized as (Ha & _).
  unfold BasisSize, Int32.BasisSize, BasisSize_L1, Int32.BasisSize_L1.
  apply for_up_counts_alike; auto; try lia.
  intros i c0 Hi Hc0.
  destruct (truth (isodd i) && (i >? Lomax g)); [ apply counts_alike_Done | ].
  apply BasisSize_jK1_alike; lia.
Qed.

Lemma BasisSize_int (N : Z) :
  BasisSize fuel g = Done N -> N < 2147483648 ->
  Int32.BasisSize fuel g = Done N.
Proof.
  intros HN Hr. pose proof BasisSize_alike as H.
  rewrite HN in H. simpl in H. apply H. exact Hr.
Qed.

End IntAgreement.


(* ================================================================== *)
(** * The row capacity (C9)                                            *)
(* ================================================================== *)


